(** * QUDA: preconditioned twisted-mass dslash kernels and the batched
      transform-reduce utility

    A shallow embedding of
    - [transform_reduce.h] (the sequential path: [TransformReduceArg],
      [transform_reduce(Arg&)], [TransformReduce::apply]), and
    - [include/kernels/dslash_twisted_mass_preconditioned.cuh]
      ([TwistedMassArg], [applyWilsonTM], [twistedMass], [twistedMassCPU],
      [twistedMassGPU]),
    together with the properties of these routines. *)

From Stdlib Require Import ZArith Lia Bool List.
From stdpp Require Import base tactics option list list_numbers.

Local Open Scope Z_scope.

(** ** Outcome of a host routine

    Modelled from the spec: the macro [errorQuda] is declared outside the two
    source files; section 7 has a configuration error "fatal, detected once
    at construction ..., reported to the caller before any site processing
    begins - never partially applied".  A routine that reaches [errorQuda]
    ends there with its message and produces nothing. *)
Inductive quda_error : Type :=
| BatchTooLarge (n_batch n_batch_max : Z)
| SizeMismatch (result_size input_size : nat).

(** What a host routine ends in: its result, the fatal error, or no defined
    result (an access outside an array, a read of a slot never written). *)
Inductive outcome (A : Type) : Type :=
| Done (a : A)
| Fatal (msg : quda_error)
| Undefined.

Arguments Done {A} a.
Arguments Fatal {A} msg.
Arguments Undefined {A}.

#[global] Instance outcome_bind : MBind outcome := fun A B k m =>
  match m with
  | Done a => k a
  | Fatal e => Fatal e
  | Undefined => Undefined
  end.

#[global] Instance outcome_ret : MRet outcome := fun A a => Done a.

(** Arithmetic on [unsigned int] wraps modulo 2^32. *)
Definition uint32 (n : Z) : Z := n mod 2 ^ 32.

(** Conversion of an unsigned value to [int] (32-bit two's complement). *)
Definition to_int32 (n : Z) : Z := (n + 2 ^ 31) mod 2 ^ 32 - 2 ^ 31.

(** Conversion of a [size_t] to [int]. *)
Definition int_of_size (n : nat) : Z := to_int32 (Z.of_nat n).

(** ** transform_reduce.h, sequential path *)
Module TransformReduce.

Section Reduce.

(** [T] is the element type, [reduce_t] the type of the reduction; a
    [const T *] is the memory it points to, read at an offset. *)
Context {T reduce_t : Type}.

Definition pointer : Type := Z -> T.

Definition n_batch_max : Z := 8.

Record TransformReduceArg : Type := {
  v : list (option pointer);        (* const T *v[n_batch_max] *)
  n_items : Z;                      (* count_t n_items *)
  n_batch : Z;                      (* int n_batch *)
  init : reduce_t;
  result : list (option reduce_t);  (* reduce_t result[n_batch_max] *)
  h : T -> reduce_t;                (* transformer *)
  r : reduce_t -> reduce_t -> reduce_t  (* reducer *)
}.

Definition set_v (arg : TransformReduceArg) (v' : list (option pointer)) :=
  {| v := v'; n_items := n_items arg; n_batch := n_batch arg;
     init := init arg; result := result arg; h := h arg; r := r arg |}.

Definition set_result (arg : TransformReduceArg) (res : list (option reduce_t)) :=
  {| v := v arg; n_items := n_items arg; n_batch := n_batch arg;
     init := init arg; result := res; h := h arg; r := r arg |}.

(** [a[j] = x] on a C array of fixed extent. *)
Definition store {A} (a : list (option A)) (j : nat) (x : A) : outcome (list (option A)) :=
  if decide (j < length a)%nat then Done (<[j := Some x]> a) else Undefined.

(** [a[j]] read from a C array of fixed extent. *)
Definition load {A} (a : list (option A)) (j : nat) : outcome A :=
  match a !! j with
  | Some (Some x) => Done x
  | _ => Undefined
  end.

(** [for (size_t j = 0; j < v.size(); j++) this->v[j] = v[j];] *)
Fixpoint copy_pointers (vs : list pointer) (j : nat) (dst : list (option pointer))
  : outcome (list (option pointer)) :=
  match vs with
  | [] => Done dst
  | p :: vs' => dst' ← store dst j p; copy_pointers vs' (S j) dst'
  end.

(** The constructor [TransformReduceArg(v, n_items, h, init, r)]. *)
Definition TransformReduceArg_ctor (vs : list pointer) (n_items : Z)
    (h : T -> reduce_t) (init : reduce_t) (r : reduce_t -> reduce_t -> reduce_t)
  : outcome TransformReduceArg :=
  let n_batch := int_of_size (length vs) in
  let this := {| v := replicate (Z.to_nat n_batch_max) None;
                 n_items := n_items; n_batch := n_batch; init := init;
                 result := replicate (Z.to_nat n_batch_max) None;
                 h := h; r := r |} in
  if n_batch >? n_batch_max then Fatal (BatchTooLarge n_batch n_batch_max)
  else v' ← copy_pointers vs 0%nat (v this); Done (set_v this v').

(** The inner loop of [transform_reduce(Arg&)]:
    [for (count_t i = 0; i < arg.n_items; i++) { r_ = arg.r(r_, arg.h(v[i])); }] *)
Fixpoint item_loop (arg : TransformReduceArg) (p : pointer)
    (fuel : nat) (i : Z) (r_ : reduce_t) : reduce_t :=
  match fuel with
  | O => r_
  | S fuel' =>
      if i <? n_items arg
      then item_loop arg p fuel' (i + 1) (r arg r_ (h arg (p i)))
      else r_
  end.

Definition reduce_batch (arg : TransformReduceArg) (p : pointer) : reduce_t :=
  item_loop arg p (Z.to_nat (n_items arg)) 0 (init arg).

(** The outer loop: [for (int j = 0; j < arg.n_batch; j++) { ... arg.result[j] = r_; }] *)
Fixpoint batch_loop (fuel : nat) (j : Z) (arg : TransformReduceArg)
  : outcome TransformReduceArg :=
  match fuel with
  | O => Done arg
  | S fuel' =>
      if j <? n_batch arg then
        p ← load (v arg) (Z.to_nat j);
        res ← store (result arg) (Z.to_nat j) (reduce_batch arg p);
        batch_loop fuel' (j + 1) (set_result arg res)
      else Done arg
  end.

Definition transform_reduce (arg : TransformReduceArg) : outcome TransformReduceArg :=
  batch_loop (Z.to_nat (n_batch arg)) 0 arg.

(** [for (size_t j = 0; j < result.size(); j++) result[j] = arg.result[j];] *)
Fixpoint copy_results (arg : TransformReduceArg) (n : nat) (j : nat)
  : outcome (list reduce_t) :=
  match n with
  | O => Done []
  | S n' => x ← load (result arg) j; xs ← copy_results arg n' (S j); Done (x :: xs)
  end.

(** [TransformReduce::apply], host location: the argument bundle is built,
    then reduced, then the results are copied back to the caller.  (The
    launch parameters that [tuneLaunch] returns are used by the device path
    only.) *)
Definition apply_cpu (res : list reduce_t) (vs : list pointer) (n_items : Z)
    (h : T -> reduce_t) (init : reduce_t) (r : reduce_t -> reduce_t -> reduce_t)
  : outcome (list reduce_t) :=
  arg ← TransformReduceArg_ctor vs n_items h init r;
  arg' ← transform_reduce arg;
  copy_results arg' (length res) 0%nat.

(** The batched entry point [transform_reduce(location, result, v, ...)],
    host location. *)
Definition transform_reduce_host (res : list reduce_t) (vs : list pointer) (n_items : Z)
    (h : T -> reduce_t) (init : reduce_t) (r : reduce_t -> reduce_t -> reduce_t)
  : outcome (list reduce_t) :=
  if negb (length res =? length vs)%nat then Fatal (SizeMismatch (length res) (length vs))
  else apply_cpu res vs n_items h init r.

(** The specification of one batch: the left fold of the reducer over
    [h(p[0]), ..., h(p[n-1])], in ascending index order, from [ini]. *)
Definition fold_items (hh : T -> reduce_t) (rr : reduce_t -> reduce_t -> reduce_t)
    (p : pointer) (n : Z) (ini : reduce_t) : reduce_t :=
  fold_left (fun acc t => rr acc (hh t)) (p <$> seqZ 0 n) ini.

(** An argument bundle [transform_reduce] can run on: the batch count fits
    the arrays and the first [n_batch] pointers were set. *)
Definition well_formed (arg : TransformReduceArg) : Prop :=
  n_batch arg <= Z.of_nat (length (result arg)) /\
  (forall k, 0 <= k < n_batch arg -> exists p, v arg !! Z.to_nat k = Some (Some p)).

End Reduce.

(** A two-batch input over [Z]: sums of doubled elements. *)
Definition example_batches : list (Z -> Z) := [ (fun i => i + 1); (fun i => 10 * i) ].

Definition example_arg : @TransformReduceArg Z Z :=
  {| v := [Some (fun i => i + 1); Some (fun i => 10 * i);
           None; None; None; None; None; None];
     n_items := 3; n_batch := 2; init := 100;
     result := replicate 8 None;
     h := fun t => 2 * t; r := Z.add |}.

(** Nine batches: one more than [n_batch_max]. *)
Definition nine_batches : list (Z -> Z) := replicate 9 (fun i => i).

Arguments TransformReduceArg : clear implicits.
Arguments pointer : clear implicits.

End TransformReduce.

(** ** include/kernels/dslash_twisted_mass_preconditioned.cuh *)
Module TwistedMass.

(** Modelled from the spec: the enumeration [KernelType] is declared outside
    the two source files; section 3 (Kernel Region Classification) lists
    INTERIOR, one EXTERIOR tag per dimension and the fused EXTERIOR_ALL.  The
    kernels name [INTERIOR_KERNEL] and [EXTERIOR_KERNEL_ALL]. *)
Inductive KernelType : Type :=
| INTERIOR_KERNEL
| EXTERIOR_KERNEL_X
| EXTERIOR_KERNEL_Y
| EXTERIOR_KERNEL_Z
| EXTERIOR_KERNEL_T
| EXTERIOR_KERNEL_ALL.

#[global] Instance KernelType_eq_dec : EqDecision KernelType.
Proof. solve_decision. Defined.

(** Modelled from the spec: [doHalo<kernel_type>(d)] is declared outside the
    two source files.  "the region classification processes halo data for
    this dimension": never for INTERIOR, for its own dimension for a
    per-dimension EXTERIOR tag, for every dimension for EXTERIOR_ALL. *)
Definition doHalo (kernel_type : KernelType) (d : Z) : bool :=
  match kernel_type with
  | INTERIOR_KERNEL => false
  | EXTERIOR_KERNEL_X => d =? 0
  | EXTERIOR_KERNEL_Y => d =? 1
  | EXTERIOR_KERNEL_Z => d =? 2
  | EXTERIOR_KERNEL_T => d =? 3
  | EXTERIOR_KERNEL_ALL => true
  end.

(** Modelled from the spec: [doBulk<kernel_type>()] is declared outside the
    two source files.  "the region classification processes bulk
    (non-boundary) data": INTERIOR only. *)
Definition doBulk (kernel_type : KernelType) : bool :=
  match kernel_type with
  | INTERIOR_KERNEL => true
  | _ => false
  end.

(** [int coord[nDim]] and [arg.dim]: arrays of [int] read at a dimension. *)
Definition Coord : Type := Z -> Z.

(** The arithmetic the kernels use on colour-spinors, links and scalars
    ([ColorSpinor], [Matrix], [complex], [mapper<Float>::type]); the kernels
    are templates over it. *)
Class SpinorAlgebra : Type := {
  double : Type;                    (* host double *)
  real : Type;                      (* mapper<Float>::type *)
  complex : Type;                   (* complex<real> *)
  Vector : Type;                    (* ColorSpinor<real,nColor,4> *)
  HalfVector : Type;                (* ColorSpinor<real,nColor,2> *)
  Link : Type;                      (* Matrix<complex<real>,nColor> *)
  d0 : double;                      (* the literal 0.0 *)
  d1 : double;                      (* the literal 1.0 *)
  dneg : double -> double;          (* unary minus *)
  real_of_double : double -> real;  (* conversion to the working precision *)
  mk_complex : real -> real -> complex;          (* complex<real>(re, im) *)
  vzero : Vector;                                (* Vector out; *)
  vadd : Vector -> Vector -> Vector;             (* u + v, u += v *)
  rscale : real -> Vector -> Vector;             (* s * v *)
  cscale : complex -> Vector -> Vector;          (* c * v *)
  gamma : Z -> Vector -> Vector;                 (* v.gamma(dim) *)
  project : Z -> Z -> Vector -> HalfVector;      (* v.project(d, proj_dir) *)
  reconstruct : Z -> Z -> HalfVector -> Vector;  (* h.reconstruct(d, proj_dir) *)
  hscale : HalfVector -> real -> HalfVector;     (* h *= s *)
  link_mul : Link -> HalfVector -> HalfVector;   (* U * h *)
  conj : Link -> Link                            (* conj(U) *)
}.

(** The index arithmetic of the lattice, and the host-side field objects the
    constructor receives. *)
Class Geometry : Type := {
  DslashConstant : Type;            (* arg.dc *)
  ColorSpinorField : Type;
  GaugeField : Type;
  getNeighborIndexCB : Coord -> Z -> Z -> DslashConstant -> Z;
  (* ghostFaceIndex<dir>(coord, dim, d, nFace) *)
  ghostFaceIndex : Z -> Coord -> (Z -> Z) -> Z -> Z -> Z
}.

Section Kernels.

Context `{SA : SpinorAlgebra} `{G : Geometry}.

(** A field accessor [f(x_cb, parity)]. *)
Definition Field : Type := Z -> Z -> Vector.

(** Modelled from the spec: [DslashArg<Float>] is declared outside the two
    source files; section 3 (Operator Arguments) lists lattice extents and
    the active parity.  These are the members the kernels read
    ([arg.parity], [arg.nFace], [arg.dim], [arg.threads], [arg.t_proj_scale],
    [arg.dc]) or set ([twist_a], [twist_b]). *)
Record DslashArg : Type := {
  parity : Z;
  nFace : Z;
  dim : Z -> Z;
  threads : Z;
  t_proj_scale : real;
  twist_a : real;
  twist_b : real;
  dc : DslashConstant
}.

(** Modelled from the spec: [WilsonArg<Float,nColor,reconstruct_>] is
    declared outside the two source files; section 3 (Operator Arguments)
    lists "field accessors for input/output/pass-through fields, the link
    accessor".  These are the members the kernels read or write, with the
    halo variants of the accessors; [kappa] is the fourth argument of the
    base constructor. *)
Record WilsonArg : Type := {
  dslash :> DslashArg;
  out : Field;                          (* arg.out(x_cb, parity) *)
  in_ : Field;                          (* arg.in(x_cb, parity) *)
  in_Ghost : Z -> Z -> Z -> Z -> HalfVector;  (* arg.in.Ghost(d, dir, ghost_idx, parity) *)
  x : Field;                            (* arg.x(x_cb, parity) *)
  U : Z -> Z -> Z -> Link;              (* arg.U(d, x_cb, parity) *)
  U_Ghost : Z -> Z -> Z -> Link;        (* arg.U.Ghost(d, ghost_idx, parity) *)
  kappa : real
}.

(** [struct TwistedMassArg : WilsonArg<Float,nColor,reconstruct_>] *)
Record TwistedMassArg : Type := {
  wilson :> WilsonArg;
  a : real;           (* the scaling factor *)
  b : real;           (* the twist factor *)
  asymmetric : bool   (* whether the asymmetric operator is applied *)
}.

(** [DslashArg<Float>::twist_a = ta; DslashArg<Float>::twist_b = tb;] *)
Definition set_twist (w : WilsonArg) (ta tb : real) : WilsonArg :=
  {| dslash := {| parity := parity w; nFace := nFace w; dim := dim w;
                  threads := threads w; t_proj_scale := t_proj_scale w;
                  twist_a := ta; twist_b := tb; dc := dc w |};
     out := out w; in_ := in_ w; in_Ghost := in_Ghost w; x := x w;
     U := U w; U_Ghost := U_Ghost w; kappa := kappa w |}.

(** The bundle with the storage behind [arg.out] replaced by [o]. *)
Definition set_out (arg : TwistedMassArg) (o : Field) : TwistedMassArg :=
  {| wilson := {| dslash := dslash arg; out := o; in_ := in_ arg;
                  in_Ghost := in_Ghost arg; x := x arg; U := U arg;
                  U_Ghost := U_Ghost arg; kappa := kappa arg |};
     a := a arg; b := b arg; asymmetric := asymmetric arg |}.

(** [arg.out(x_cb, parity) = v] *)
Definition write_out (arg : TwistedMassArg) (x_cb par : Z) (v : Vector) : TwistedMassArg :=
  set_out arg (fun i p => if (i =? x_cb) && (p =? par) then v else out arg i p).

(** The routines of the surrounding Wilson operator that the kernels call
    and that live outside this file. *)
Class Collaborators : Type := {
  (* WilsonArg(out, in, U, kappa, x, parity, dagger, comm_override) *)
  WilsonArg_ctor : ColorSpinorField -> ColorSpinorField -> GaugeField -> double ->
                   ColorSpinorField -> Z -> bool -> (Z -> Z) -> WilsonArg;
  (* x_cb = getCoords<nDim,QUDA_4D_PC,kernel_type>(coord, arg, idx, parity, thread_dim):
     returns (x_cb, coord, thread_dim) *)
  getCoords : Z -> KernelType -> TwistedMassArg -> Z -> Z -> Z * Coord * Z;
  (* isActive<kernel_type>(active, thread_dim, d, coord, arg):
     returns (result, active) *)
  isActive : KernelType -> bool -> Z -> Z -> Coord -> TwistedMassArg -> bool * bool;
  (* isComplete<kernel_type>(arg, coord) *)
  isComplete : KernelType -> TwistedMassArg -> Coord -> bool;
  (* applyWilson<Float,nDim,nColor,nParity,dagger,kernel_type>
       (out, arg, coord, x_cb, parity, idx, thread_dim, active):
     returns (out, active) *)
  applyWilson : Z -> Z -> bool -> KernelType -> Vector -> TwistedMassArg -> Coord ->
                Z -> Z -> Z -> Z -> bool -> Vector * bool
}.

Context `{C : Collaborators}.

(** [TwistedMassArg::TwistedMassArg] *)
Definition TwistedMassArg_ctor (out_f in_f : ColorSpinorField) (U_f : GaugeField)
    (a_ b_ : double) (xpay : bool) (x_f : ColorSpinorField)
    (parity_ : Z) (dagger asymmetric_ : bool) (comm_override : Z -> Z)
  : TwistedMassArg :=
  let base := WilsonArg_ctor out_f in_f U_f (if xpay then d1 else d0) x_f
                             parity_ dagger comm_override in
  let this := {| wilson := base;
                 a := real_of_double a_;
                 b := real_of_double (if dagger then dneg b_ else b_);
                 asymmetric := asymmetric_ |} in
  if dagger && negb asymmetric_
  then {| wilson := set_twist this (a this) (b this);
          a := a this; b := b this; asymmetric := asymmetric this |}
  else this.

(** [arg.a * (v + complex<real>(0.0,arg.b) * v.gamma(4))] *)
Definition twist (arg : TwistedMassArg) (v : Vector) : Vector :=
  rscale (a arg) (vadd v (cscale (mk_complex (real_of_double d0) (b arg)) (gamma 4 v))).

(** The branch of a gather that runs. *)
Inductive Path : Type := HaloPath | BulkPath | NoPath.

(** [if (doHalo<kernel_type>(d) && ghost) {..} else if (doBulk<kernel_type>() && !ghost) {..}] *)
Definition select_path (kernel_type : KernelType) (d : Z) (ghost : bool) : Path :=
  if doHalo kernel_type d && ghost then HaloPath
  else if doBulk kernel_type && negb ghost then BulkPath
  else NoPath.

(** A gather contributes in a pass when it takes one of the two paths. *)
Definition takes_path (kernel_type : KernelType) (d : Z) (ghost : bool) : bool :=
  match select_path kernel_type d ghost with
  | NoPath => false
  | _ => true
  end.

(** Section 4.2 of the spec (rationale): the interior contributions are
    computed first and the boundary contributions afterwards, by one exterior
    pass per dimension or by the fused exterior pass. *)
Definition split_passes : list KernelType :=
  [INTERIOR_KERNEL; EXTERIOR_KERNEL_X; EXTERIOR_KERNEL_Y; EXTERIOR_KERNEL_Z; EXTERIOR_KERNEL_T].

Definition fused_passes : list KernelType := [INTERIOR_KERNEL; EXTERIOR_KERNEL_ALL].

(** [ghost = crosses && isActive<kernel_type>(active, thread_dim, d, coord, arg)]:
    [isActive] runs, and may set [active], only when [crosses] holds. *)
Definition ghost_test (kernel_type : KernelType) (crosses active : bool)
    (thread_dim d : Z) (coord : Coord) (arg : TwistedMassArg) : bool * bool :=
  if crosses then isActive kernel_type active thread_dim d coord arg
  else (false, active).

(** [kernel_type == EXTERIOR_KERNEL_ALL] *)
Definition is_all (kernel_type : KernelType) : bool :=
  bool_decide (kernel_type = EXTERIOR_KERNEL_ALL).

(** [kernel_type == INTERIOR_KERNEL] *)
Definition is_interior (kernel_type : KernelType) : bool :=
  bool_decide (kernel_type = INTERIOR_KERNEL).

(** [nParity == 2 ? 1-parity : 0] *)
Definition their_spinor_parity (nParity par : Z) : Z :=
  if nParity =? 2 then 1 - par else 0.

(** [nParity == 2 ? parity : 0] *)
Definition my_spinor_parity (nParity par : Z) : Z :=
  if nParity =? 2 then par else 0.

(** Forward gather:
    [ghost = (coord[d] + arg.nFace >= arg.dim[d]) && isActive<kernel_type>(..)] *)
Definition forward_ghost (kernel_type : KernelType) (arg : TwistedMassArg)
    (coord : Coord) (thread_dim : Z) (active : bool) (d : Z) : bool * bool :=
  ghost_test kernel_type (coord d + nFace arg >=? dim arg d) active thread_dim d coord arg.

(** Backward gather:
    [ghost = (coord[d] - arg.nFace < 0) && isActive<kernel_type>(..)] *)
Definition backward_ghost (kernel_type : KernelType) (arg : TwistedMassArg)
    (coord : Coord) (thread_dim : Z) (active : bool) (d : Z) : bool * bool :=
  ghost_test kernel_type (coord d - nFace arg <? 0) active thread_dim d coord arg.

(** [ghost_idx = (kernel_type == EXTERIOR_KERNEL_ALL && d != thread_dim) ?
                 ghostFaceIndex<dir>(coord, arg.dim, d, arg.nFace) : idx] *)
Definition ghost_index (dir : Z) (kernel_type : KernelType) (arg : TwistedMassArg)
    (coord : Coord) (idx thread_dim d : Z) : Z :=
  if is_all kernel_type && negb (d =? thread_dim)
  then ghostFaceIndex dir coord (dim arg) d (nFace arg) else idx.

(** [if (d == 3) in *= arg.t_proj_scale;] *)
Definition halo_rescale (arg : TwistedMassArg) (d : Z) (hv : HalfVector) : HalfVector :=
  if d =? 3 then hscale hv (t_proj_scale arg) else hv.

(** The forward gather of [applyWilsonTM] in dimension [d]. *)
Definition forward_gather (nParity : Z) (dagger : bool) (kernel_type : KernelType)
    (arg : TwistedMassArg) (coord : Coord) (x_cb par idx thread_dim : Z)
    (d : Z) (st : Vector * bool) : Vector * bool :=
  let '(out_, active) := st in
  let fwd_idx := getNeighborIndexCB coord d 1 (dc arg) in
  let proj_dir := if dagger then 1 else -1 in
  let '(ghost, active) := forward_ghost kernel_type arg coord thread_dim active d in
  match select_path kernel_type d ghost with
  | HaloPath =>
      let ghost_idx := ghost_index 1 kernel_type arg coord idx thread_dim d in
      let U_ := U arg d x_cb par in
      let in0 := in_Ghost arg d 1 ghost_idx (their_spinor_parity nParity par) in
      let in1 := halo_rescale arg d in0 in
      (vadd out_ (reconstruct d proj_dir (link_mul U_ in1)), active)
  | BulkPath =>
      let U_ := U arg d x_cb par in
      let in0 := in_ arg fwd_idx (their_spinor_parity nParity par) in
      let in1 := twist arg in0 in
      (vadd out_ (reconstruct d proj_dir (link_mul U_ (project d proj_dir in1))), active)
  | NoPath => (out_, active)
  end.

(** The backward gather of [applyWilsonTM] in dimension [d]. *)
Definition backward_gather (nParity : Z) (dagger : bool) (kernel_type : KernelType)
    (arg : TwistedMassArg) (coord : Coord) (x_cb par idx thread_dim : Z)
    (d : Z) (st : Vector * bool) : Vector * bool :=
  let '(out_, active) := st in
  let back_idx := getNeighborIndexCB coord d (-1) (dc arg) in
  let gauge_idx := back_idx in
  let proj_dir := if dagger then -1 else 1 in
  let '(ghost, active) := backward_ghost kernel_type arg coord thread_dim active d in
  match select_path kernel_type d ghost with
  | HaloPath =>
      let ghost_idx := ghost_index 0 kernel_type arg coord idx thread_dim d in
      let U_ := U_Ghost arg d ghost_idx (1 - par) in
      let in0 := in_Ghost arg d 0 ghost_idx (their_spinor_parity nParity par) in
      let in1 := halo_rescale arg d in0 in
      (vadd out_ (reconstruct d proj_dir (link_mul (conj U_) in1)), active)
  | BulkPath =>
      let U_ := U arg d gauge_idx (1 - par) in
      let in0 := in_ arg back_idx (their_spinor_parity nParity par) in
      let in1 := twist arg in0 in
      (vadd out_ (reconstruct d proj_dir (link_mul (conj U_) (project d proj_dir in1))), active)
  | NoPath => (out_, active)
  end.

(** One iteration of [for (int d = 0; d<nDim; d++)]. *)
Definition dim_step (nParity : Z) (dagger : bool) (kernel_type : KernelType)
    (arg : TwistedMassArg) (coord : Coord) (x_cb par idx thread_dim : Z)
    (st : Vector * bool) (d : Z) : Vector * bool :=
  backward_gather nParity dagger kernel_type arg coord x_cb par idx thread_dim d
    (forward_gather nParity dagger kernel_type arg coord x_cb par idx thread_dim d st).

(** [applyWilsonTM<Float,nDim,nColor,nParity,dagger,kernel_type>
      (out, arg, coord, x_cb, parity, idx, thread_dim, active)];
    the result is the accumulator and the [active] flag. *)
Definition applyWilsonTM (nDim nParity : Z) (dagger : bool) (kernel_type : KernelType)
    (out_ : Vector) (arg : TwistedMassArg) (coord : Coord)
    (x_cb par idx thread_dim : Z) (active : bool) : Vector * bool :=
  fold_left (dim_step nParity dagger kernel_type arg coord x_cb par idx thread_dim)
            (seqZ 0 nDim) (out_, active).

(** The hopping routine [twistedMass] calls. *)
Inductive HoppingRoutine : Type := WilsonTM | Wilson.

(** [if (dagger && !asymmetric) applyWilsonTM<..>(..); else applyWilson<..>(..);] *)
Definition hopping_routine (dagger asymmetric_ : bool) : HoppingRoutine :=
  if dagger && negb asymmetric_ then WilsonTM else Wilson.

(** The call of the chosen routine: both take the same arguments. *)
Definition run_hopping (routine : HoppingRoutine) (nDim nParity : Z) (dagger : bool)
    (kernel_type : KernelType) (out_ : Vector) (arg : TwistedMassArg) (coord : Coord)
    (x_cb par idx thread_dim : Z) (active : bool) : Vector * bool :=
  match routine with
  | WilsonTM =>
      applyWilsonTM nDim nParity dagger kernel_type out_ arg coord x_cb par idx thread_dim active
  | Wilson =>
      applyWilson nDim nParity dagger kernel_type out_ arg coord x_cb par idx thread_dim active
  end.

(** [if (kernel_type != INTERIOR_KERNEL && active) out += arg.out(x_cb, my_spinor_parity);] *)
Definition partial_merge (kernel_type : KernelType) (arg : TwistedMassArg)
    (x_cb sp : Z) (active : bool) (out_ : Vector) : Vector :=
  if negb (is_interior kernel_type) && active then vadd out_ (out arg x_cb sp) else out_.

(** [if (isComplete<kernel_type>(arg, coord) && active) { twist; xpay }] *)
Definition finalize (dagger asymmetric_ xpay : bool) (kernel_type : KernelType)
    (arg : TwistedMassArg) (coord : Coord) (x_cb sp : Z) (active : bool)
    (out_ : Vector) : Vector :=
  if isComplete kernel_type arg coord && active then
    let out1 := if negb dagger || asymmetric_ then twist arg out_ else out_ in
    if xpay then vadd out1 (x arg x_cb sp) else out1
  else out_.

(** The first half of [twistedMass]: the coordinates are resolved and the
    hopping term is gathered into a fresh accumulator.  The result is
    [(x_cb, coord, out, active)]. *)
Definition resolve_and_gather (nDim nParity : Z) (dagger asymmetric_ : bool)
    (kernel_type : KernelType) (arg : TwistedMassArg) (idx par : Z)
  : Z * Coord * Vector * bool :=
  let active := if is_all kernel_type then false else true in
  let '(x_cb, coord, thread_dim) := getCoords nDim kernel_type arg idx par in
  let out0 := vzero in
  let '(out1, active) :=
    run_hopping (hopping_routine dagger asymmetric_) nDim nParity dagger kernel_type
                out0 arg coord x_cb par idx thread_dim active in
  (x_cb, coord, out1, active).

(** [twistedMass<Float,nDim,nColor,nParity,dagger,asymmetric,xpay,kernel_type>
      (arg, idx, parity)] *)
Definition twistedMass (nDim nParity : Z) (dagger asymmetric_ xpay : bool)
    (kernel_type : KernelType) (arg : TwistedMassArg) (idx par : Z) : TwistedMassArg :=
  let '(x_cb, coord, out1, active) :=
    resolve_and_gather nDim nParity dagger asymmetric_ kernel_type arg idx par in
  let sp := my_spinor_parity nParity par in
  let out2 := partial_merge kernel_type arg x_cb sp active out1 in
  let out3 := finalize dagger asymmetric_ xpay kernel_type arg coord x_cb sp active out2 in
  if negb (is_all kernel_type) || active then write_out arg x_cb sp out3 else arg.

(** What one call of [twistedMass] works on, read off [resolve_and_gather]:
    the site it addresses in the output field, the coordinate of the site,
    the [active] flag after the gather, and the accumulator after the
    partial merge. *)
Definition site_of (nDim nParity : Z) (dagger asymmetric_ : bool)
    (kernel_type : KernelType) (arg : TwistedMassArg) (idx par : Z) : Z * Z :=
  let '(x_cb, _, _, _) :=
    resolve_and_gather nDim nParity dagger asymmetric_ kernel_type arg idx par in
  (x_cb, my_spinor_parity nParity par).

Definition coord_of (nDim nParity : Z) (dagger asymmetric_ : bool)
    (kernel_type : KernelType) (arg : TwistedMassArg) (idx par : Z) : Coord :=
  let '(_, coord, _, _) :=
    resolve_and_gather nDim nParity dagger asymmetric_ kernel_type arg idx par in
  coord.

Definition active_after (nDim nParity : Z) (dagger asymmetric_ : bool)
    (kernel_type : KernelType) (arg : TwistedMassArg) (idx par : Z) : bool :=
  let '(_, _, _, active) :=
    resolve_and_gather nDim nParity dagger asymmetric_ kernel_type arg idx par in
  active.

Definition merged (nDim nParity : Z) (dagger asymmetric_ : bool)
    (kernel_type : KernelType) (arg : TwistedMassArg) (idx par : Z) : Vector :=
  let '(x_cb, _, out1, active) :=
    resolve_and_gather nDim nParity dagger asymmetric_ kernel_type arg idx par in
  partial_merge kernel_type arg x_cb (my_spinor_parity nParity par) active out1.

(** The value the call stores at its site, as a function of the value
    [old] it finds there: partial merge, then finalize. *)
Definition stored_value (nDim nParity : Z) (dagger asymmetric_ xpay : bool)
    (kernel_type : KernelType) (arg : TwistedMassArg) (idx par : Z)
    (old : Vector) : Vector :=
  let '(x_cb, coord, out1, active) :=
    resolve_and_gather nDim nParity dagger asymmetric_ kernel_type arg idx par in
  let out2 := if negb (is_interior kernel_type) && active then vadd out1 old else out1 in
  finalize dagger asymmetric_ xpay kernel_type arg coord x_cb
           (my_spinor_parity nParity par) active out2.

(** [kernel_type != EXTERIOR_KERNEL_ALL || active]: the call stores its
    accumulator. *)
Definition writes (nDim nParity : Z) (dagger asymmetric_ : bool)
    (kernel_type : KernelType) (arg : TwistedMassArg) (idx par : Z) : bool :=
  negb (is_all kernel_type)
  || active_after nDim nParity dagger asymmetric_ kernel_type arg idx par.

(** [isComplete<kernel_type>(arg, coord) && active]: the call finalizes
    its site. *)
Definition finalizes (nDim nParity : Z) (dagger asymmetric_ : bool)
    (kernel_type : KernelType) (arg : TwistedMassArg) (idx par : Z) : bool :=
  isComplete kernel_type arg
    (coord_of nDim nParity dagger asymmetric_ kernel_type arg idx par)
  && active_after nDim nParity dagger asymmetric_ kernel_type arg idx par.

(** The branch the forward (backward) gather takes in dimension [d]. *)
Definition forward_path (kernel_type : KernelType) (arg : TwistedMassArg)
    (coord : Coord) (thread_dim : Z) (active : bool) (d : Z) : Path :=
  select_path kernel_type d (fst (forward_ghost kernel_type arg coord thread_dim active d)).

Definition backward_path (kernel_type : KernelType) (arg : TwistedMassArg)
    (coord : Coord) (thread_dim : Z) (active : bool) (d : Z) : Path :=
  select_path kernel_type d (fst (backward_ghost kernel_type arg coord thread_dim active d)).

(** The inner loop of [twistedMassCPU]:
    [for (int x_cb = 0; x_cb < arg.threads; x_cb++) twistedMass<..>(arg, x_cb, parity);] *)
Fixpoint site_loop (nDim nParity : Z) (dagger asymmetric_ xpay : bool)
    (kernel_type : KernelType) (fuel : nat) (x_cb par : Z) (arg : TwistedMassArg)
  : TwistedMassArg :=
  match fuel with
  | O => arg
  | S fuel' =>
      if x_cb <? threads arg then
        site_loop nDim nParity dagger asymmetric_ xpay kernel_type fuel' (x_cb + 1) par
          (twistedMass nDim nParity dagger asymmetric_ xpay kernel_type arg x_cb par)
      else arg
  end.

Definition all_sites (nDim nParity : Z) (dagger asymmetric_ xpay : bool)
    (kernel_type : KernelType) (par : Z) (arg : TwistedMassArg) : TwistedMassArg :=
  site_loop nDim nParity dagger asymmetric_ xpay kernel_type
            (Z.to_nat (threads arg)) 0 par arg.

(** The outer loop of [twistedMassCPU]:
    [for (int parity = 0; parity < nParity; parity++) {
       parity = nParity == 2 ? parity : arg.parity;  ...  }]
    The body assigns the loop variable, so the number of iterations is not
    fixed by [nParity]: the loop runs on fuel and [None] is "still running". *)
Fixpoint parity_loop (nDim nParity : Z) (dagger asymmetric_ xpay : bool)
    (kernel_type : KernelType) (fuel : nat) (par : Z) (arg : TwistedMassArg)
  : option TwistedMassArg :=
  match fuel with
  | O => None
  | S fuel' =>
      if par <? nParity then
        let par' := if nParity =? 2 then par else parity arg in
        let arg' := all_sites nDim nParity dagger asymmetric_ xpay kernel_type par' arg in
        parity_loop nDim nParity dagger asymmetric_ xpay kernel_type fuel' (par' + 1) arg'
      else Some arg
  end.

(** [twistedMassCPU<Float,nDim,nColor,nParity,dagger,asymmetric,xpay,kernel_type>(arg)] *)
Definition twistedMassCPU (nDim nParity : Z) (dagger asymmetric_ xpay : bool)
    (kernel_type : KernelType) (fuel : nat) (arg : TwistedMassArg)
  : option TwistedMassArg :=
  parity_loop nDim nParity dagger asymmetric_ xpay kernel_type fuel 0 arg.

(** CUDA's [dim3]: three [unsigned int]. *)
Record dim3 : Type := { dim3_x : Z; dim3_y : Z; dim3_z : Z }.

(** [twistedMassGPU<..>(arg)]: the body one thread runs, given the built-in
    variables [blockDim], [blockIdx] and [threadIdx]. *)
Definition twistedMassGPU (nDim nParity : Z) (dagger asymmetric_ xpay : bool)
    (kernel_type : KernelType) (blockDim blockIdx threadIdx : dim3)
    (arg : TwistedMassArg) : TwistedMassArg :=
  let x_cb := to_int32 (uint32 (dim3_x blockIdx * dim3_x blockDim + dim3_x threadIdx)) in
  if x_cb >=? threads arg then arg
  else
    let par := if nParity =? 2
               then to_int32 (uint32 (dim3_z blockDim * dim3_z blockIdx + dim3_z threadIdx))
               else parity arg in
    match par with
    | 0 => twistedMass nDim nParity dagger asymmetric_ xpay kernel_type arg x_cb 0
    | 1 => twistedMass nDim nParity dagger asymmetric_ xpay kernel_type arg x_cb 1
    | _ => arg
    end.

(** A thread of a launch: its block index and its index in the block. *)
Record Thread : Type := { blockIdx : dim3; threadIdx : dim3 }.

(** The index triples below an extent. *)
Definition range3 (extent : dim3) : list dim3 :=
  i ← seqZ 0 (dim3_x extent);
  j ← seqZ 0 (dim3_y extent);
  k ← seqZ 0 (dim3_z extent);
  [ {| dim3_x := i; dim3_y := j; dim3_z := k |} ].

(** The threads of a launch [<<<gridDim, blockDim>>>]. *)
Definition grid_threads (gridDim blockDim : dim3) : list Thread :=
  bi ← range3 gridDim;
  ti ← range3 blockDim;
  [ {| blockIdx := bi; threadIdx := ti |} ].

(** A launch of [twistedMassGPU]: every thread of [sched] runs the kernel
    body to completion, one thread after the other in the order of the
    list.  (Section 5 of the spec: "a data-parallel fleet of independent
    execution units ... with no inter-unit synchronization during the
    step".) *)
Definition launch (nDim nParity : Z) (dagger asymmetric_ xpay : bool)
    (kernel_type : KernelType) (blockDim : dim3) (sched : list Thread)
    (arg : TwistedMassArg) : TwistedMassArg :=
  fold_left (fun acc t =>
               twistedMassGPU nDim nParity dagger asymmetric_ xpay kernel_type
                              blockDim (blockIdx t) (threadIdx t) acc)
            sched arg.

(** [frame arg arg']: the bundles differ in the output field at most. *)
Definition frame (arg arg' : TwistedMassArg) : Prop := arg' = set_out arg (out arg').

(** *** The two dispatch wrappers side by side *)

(** Section 4.3 of the spec, sequential wrapper: "iterates both parities
    (or the single configured parity) and, within each, all sites in
    ascending linear-index order, invoking 4.2 once per (site, parity)".
    The (index, parity) pairs in that order: *)
Definition cpu_items (nParity : Z) (arg : TwistedMassArg) : list (Z * Z) :=
  if nParity =? 2
  then ((fun i => (i, 0)) <$> seqZ 0 (threads arg))
       ++ ((fun i => (i, 1)) <$> seqZ 0 (threads arg))
  else (fun i => (i, parity arg)) <$> seqZ 0 (threads arg).

(** [twistedMass] called once per pair, in the order of the list. *)
Definition run_items (nDim nParity : Z) (dagger asymmetric_ xpay : bool)
    (kernel_type : KernelType) (items : list (Z * Z)) (arg : TwistedMassArg)
  : TwistedMassArg :=
  fold_left (fun acc it =>
               twistedMass nDim nParity dagger asymmetric_ xpay kernel_type
                           acc (fst it) (snd it))
            items arg.

(** The (index, parity) pair a thread of [twistedMassGPU] works on, if any. *)
Definition item_of_thread (nParity : Z) (blockDim : dim3) (arg : TwistedMassArg)
    (t : Thread) : option (Z * Z) :=
  let x_cb :=
    to_int32 (uint32 (dim3_x (blockIdx t) * dim3_x blockDim + dim3_x (threadIdx t))) in
  if x_cb >=? threads arg then None
  else
    let par := if nParity =? 2
               then to_int32 (uint32 (dim3_z blockDim * dim3_z (blockIdx t)
                                      + dim3_z (threadIdx t)))
               else parity arg in
    if par =? 0 then Some (x_cb, 0)
    else if par =? 1 then Some (x_cb, 1)
    else None.

(** The parity configurations: a full field ([nParity = 2]), or one
    parity, even (0) or odd (1). *)
Definition valid_parity (nParity : Z) (arg : TwistedMassArg) : bool :=
  (nParity =? 2) || ((nParity =? 1) && ((parity arg =? 0) || (parity arg =? 1))).

(** A launch that covers the sites: one thread per index along x (at
    least [arg.threads] of them, fewer than 2^31), a single layer along y,
    and one layer per parity along z. *)
Definition launch_covers (nParity : Z) (gridDim blockDim : dim3)
    (arg : TwistedMassArg) : bool :=
  (0 <? dim3_x gridDim) && (0 <? dim3_x blockDim)
  && (threads arg <=? dim3_x gridDim * dim3_x blockDim)
  && (dim3_x gridDim * dim3_x blockDim <? 2 ^ 31)
  && (dim3_y gridDim =? 1) && (dim3_y blockDim =? 1)
  && (0 <? dim3_z gridDim) && (0 <? dim3_z blockDim)
  && (dim3_z gridDim * dim3_z blockDim =? (if nParity =? 2 then 2 else 1)).

(** The helpers of the surrounding operator do not read the output field. *)
Definition reads_no_output : Prop :=
  (forall nDim kernel_type arg o idx par,
     getCoords nDim kernel_type (set_out arg o) idx par =
     getCoords nDim kernel_type arg idx par) /\
  (forall kernel_type active thread_dim d coord arg o,
     isActive kernel_type active thread_dim d coord (set_out arg o) =
     isActive kernel_type active thread_dim d coord arg) /\
  (forall kernel_type arg o coord,
     isComplete kernel_type (set_out arg o) coord = isComplete kernel_type arg coord) /\
  (forall nDim nParity dagger kernel_type acc arg o coord x_cb par idx thread_dim active,
     applyWilson nDim nParity dagger kernel_type acc (set_out arg o) coord
                 x_cb par idx thread_dim active =
     applyWilson nDim nParity dagger kernel_type acc arg coord
                 x_cb par idx thread_dim active).

(** Two different (index, parity) pairs of a pass that both store their
    accumulator address different sites of the output field. *)
Definition sites_distinct (nDim nParity : Z) (dagger asymmetric_ : bool)
    (kernel_type : KernelType) (arg : TwistedMassArg) : Prop :=
  forall it it' : Z * Z,
    it ∈ cpu_items nParity arg -> it' ∈ cpu_items nParity arg ->
    writes nDim nParity dagger asymmetric_ kernel_type arg (fst it) (snd it) = true ->
    writes nDim nParity dagger asymmetric_ kernel_type arg (fst it') (snd it') = true ->
    site_of nDim nParity dagger asymmetric_ kernel_type arg (fst it) (snd it) =
    site_of nDim nParity dagger asymmetric_ kernel_type arg (fst it') (snd it') ->
    it = it'.

(** The call for the pair [it] stores into site [(i, q)]. *)
Definition targets (nDim nParity : Z) (dagger asymmetric_ : bool)
    (kernel_type : KernelType) (arg : TwistedMassArg) (it : Z * Z) (i q : Z) : Prop :=
  writes nDim nParity dagger asymmetric_ kernel_type arg (fst it) (snd it) = true /\
  site_of nDim nParity dagger asymmetric_ kernel_type arg (fst it) (snd it) = (i, q).

#[global] Instance targets_dec nDim nParity dagger asymmetric_ kernel_type arg it i q :
  Decision (targets nDim nParity dagger asymmetric_ kernel_type arg it i q).
Proof. unfold targets. apply _. Defined.

(** *** The passes of the operator as the calls they make *)

(** A call of [twistedMass] made by a pass: the region classification of
    the pass and the (index, parity) pair of the thread. *)
Definition Call : Type := KernelType * (Z * Z).

(** The calls of one pass over the pairs [items], in their order. *)
Definition pass_calls (kernel_type : KernelType) (items : list (Z * Z)) : list Call :=
  (fun it => (kernel_type, it)) <$> items.

(** The calls of successive passes run on the same bundle, one after the
    other.  (Section 5 of the spec: "cross-pass ordering (interior before
    boundary) is a scheduling contract enforced by the caller".) *)
Definition run_calls (nDim nParity : Z) (dagger asymmetric_ xpay : bool)
    (calls : list Call) (arg : TwistedMassArg) : TwistedMassArg :=
  fold_left (fun acc c =>
               twistedMass nDim nParity dagger asymmetric_ xpay (fst c)
                           acc (fst (snd c)) (snd (snd c)))
            calls arg.

(** Successive passes of the sequential wrapper, one per region
    classification of the list. *)
Fixpoint run_passes (nDim nParity : Z) (dagger asymmetric_ xpay : bool)
    (fuel : nat) (kts : list KernelType) (arg : TwistedMassArg)
  : option TwistedMassArg :=
  match kts with
  | [] => Some arg
  | kt :: kts' =>
      arg' ← twistedMassCPU nDim nParity dagger asymmetric_ xpay kt fuel arg;
      run_passes nDim nParity dagger asymmetric_ xpay fuel kts' arg'
  end.

(** What a sequence of calls has done to one site of the output field:
    [Pending], the site holds no finalized value (it was not stored to, or
    the last store was a partial sum); [Finalized], the last store to the
    site finalized a sum of partial sums; [Overrun], a call added its gather
    to a value that was finalized already. *)
Inductive SiteStatus : Type := Pending | Finalized | Overrun.

#[global] Instance SiteStatus_eq_dec : EqDecision SiteStatus.
Proof. solve_decision. Defined.

(** [kernel_type != INTERIOR_KERNEL && active]: the call adds the value it
    finds at its site to its accumulator. *)
Definition merges (nDim nParity : Z) (dagger asymmetric_ : bool)
    (kernel_type : KernelType) (arg : TwistedMassArg) (idx par : Z) : bool :=
  negb (is_interior kernel_type)
  && active_after nDim nParity dagger asymmetric_ kernel_type arg idx par.

Definition status_step (nDim nParity : Z) (dagger asymmetric_ : bool)
    (arg : TwistedMassArg) (i q : Z) (st : SiteStatus) (c : Call) : SiteStatus :=
  if bool_decide (targets nDim nParity dagger asymmetric_ (fst c) arg (snd c) i q) then
    let fin := finalizes nDim nParity dagger asymmetric_ (fst c) arg
                         (fst (snd c)) (snd (snd c)) in
    if merges nDim nParity dagger asymmetric_ (fst c) arg (fst (snd c)) (snd (snd c))
    then match st with
         | Pending => if fin then Finalized else Pending
         | _ => Overrun
         end
    else if fin then Finalized else Pending
  else st.

Definition site_status (nDim nParity : Z) (dagger asymmetric_ : bool)
    (arg : TwistedMassArg) (calls : list Call) (i q : Z) : SiteStatus :=
  fold_left (status_step nDim nParity dagger asymmetric_ arg i q) calls Pending.

End Kernels.

End TwistedMass.

(** ** A reference lattice

    The kernels are templates over the arithmetic and over the helpers of the
    surrounding operator.  This module fixes one choice of them, with exact
    integer arithmetic, on which the kernels can be evaluated: one colour,
    Gaussian-integer components, a 2 x 2 x 2 x 4 lattice. *)
Module Reference.
Import TwistedMass.

Definition cplx : Type := Z * Z.
Definition cadd (u w : cplx) : cplx := (fst u + fst w, snd u + snd w).
Definition cmul (u w : cplx) : cplx :=
  (fst u * fst w - snd u * snd w, fst u * snd w + snd u * fst w).
Definition cconj (u : cplx) : cplx := (fst u, - snd u).
Definition cint (n : Z) : cplx := (n, 0).

Definition spinor : Type := cplx * cplx * cplx * cplx.
Definition half_spinor : Type := cplx * cplx.

Definition spinor_map (f : cplx -> cplx) (s : spinor) : spinor :=
  let '(s0, s1, s2, s3) := s in (f s0, f s1, f s2, f s3).

Definition spinor_add (s t : spinor) : spinor :=
  let '(s0, s1, s2, s3) := s in
  let '(t0, t1, t2, t3) := t in
  (cadd s0 t0, cadd s1 t1, cadd s2 t2, cadd s3 t3).

(** Modelled from the spec: [ColorSpinor::gamma] is declared outside the two
    source files; section 4.1 asks of [gamma(4)] that it is "a deterministic,
    fixed involution on the spin components".  Here it exchanges the upper
    and the lower spin pair. *)
Definition spinor_gamma (n : Z) (s : spinor) : spinor :=
  let '(s0, s1, s2, s3) := s in
  if n =? 4 then (s2, s3, s0, s1) else s.

(** Modelled from the spec: [ColorSpinor::project] and
    [ColorSpinor::reconstruct] are declared outside the two source files;
    section 4.1 has a "projected input vector" of half size that is
    "reconstructed (expanded) back to full size".  Here the projection keeps
    upper + proj_dir * lower and the reconstruction expands it again. *)
Definition spinor_project (d proj_dir : Z) (s : spinor) : half_spinor :=
  let '(s0, s1, s2, s3) := s in
  (cadd s0 (cmul (cint proj_dir) s2), cadd s1 (cmul (cint proj_dir) s3)).

Definition spinor_reconstruct (d proj_dir : Z) (hs : half_spinor) : spinor :=
  let '(h0, h1) := hs in
  (h0, h1, cmul (cint proj_dir) h0, cmul (cint proj_dir) h1).

Definition algebra : SpinorAlgebra :=
  {| double := Z; real := Z; complex := cplx;
     Vector := spinor; HalfVector := half_spinor; Link := cplx;
     d0 := 0; d1 := 1; dneg := Z.opp; real_of_double := fun z => z;
     mk_complex := fun re im => (re, im);
     vzero := (cint 0, cint 0, cint 0, cint 0);
     vadd := spinor_add;
     rscale := fun s => spinor_map (cmul (cint s));
     cscale := fun c => spinor_map (cmul c);
     gamma := spinor_gamma;
     project := spinor_project;
     reconstruct := spinor_reconstruct;
     hscale := fun hs s => (cmul (cint s) (fst hs), cmul (cint s) (snd hs));
     link_mul := fun u hs => (cmul u (fst hs), cmul u (snd hs));
     conj := cconj |}.

#[local] Existing Instance algebra.

(** The local extents and the partitioned dimensions. *)
Record lattice : Type := { X : Z -> Z; comm : Z -> bool }.

(** A host field: its local data and its halo buffer. *)
Record host_field : Type := {
  data : Z -> Z -> spinor;
  ghost : Z -> Z -> Z -> Z -> half_spinor
}.

(** A host gauge field: its links, its halo links and its lattice. *)
Record host_gauge : Type := {
  links : Z -> Z -> Z -> cplx;
  ghost_links : Z -> Z -> Z -> cplx;
  geom : lattice
}.

Definition shift (coord : Coord) (d dir : Z) (ext : Z -> Z) : Coord :=
  fun k => if k =? d then (coord d + dir) mod ext d else coord k.

Definition linear_index (ext : Z -> Z) (coord : Coord) : Z :=
  ((coord 3 * ext 2 + coord 2) * ext 1 + coord 1) * ext 0 + coord 0.

(** Modelled from the spec: [getNeighborIndexCB] is declared outside the two
    source files; section 2 has it compute "the linear index of a neighbor
    offset by +-1 in a given dimension, accounting for lattice boundaries". *)
Definition neighbor_index (coord : Coord) (d dir : Z) (lat : lattice) : Z :=
  linear_index (X lat) (shift coord d dir (X lat)) / 2.

(** Modelled from the spec: [ghostFaceIndex] is declared outside the two
    source files; the halo accessors are "indexed by a face index".  Here it
    is the checkerboard index of the site among the sites of its face. *)
Definition face_index (dir : Z) (coord : Coord) (ext : Z -> Z) (d nFace : Z) : Z :=
  fold_left (fun acc k => if k =? d then acc else acc * ext k + coord k)
            [3; 2; 1; 0] 0 / 2.

Definition geometry : Geometry :=
  {| DslashConstant := lattice;
     ColorSpinorField := host_field;
     GaugeField := host_gauge;
     getNeighborIndexCB := neighbor_index;
     ghostFaceIndex := face_index |}.

#[local] Existing Instance geometry.

Definition volume (ext : Z -> Z) : Z := ext 0 * ext 1 * ext 2 * ext 3.

(** Modelled from the spec: the constructor of [WilsonArg] is declared
    outside the two source files; section 3 lists what the bundle holds. *)
Definition wilson_arg (out_f in_f : host_field) (U_f : host_gauge) (kappa_ : Z)
    (x_f : host_field) (parity_ : Z) (dagger : bool) (comm_override : Z -> Z)
  : WilsonArg :=
  {| dslash := {| parity := parity_; nFace := 1; dim := X (geom U_f);
                  threads := volume (X (geom U_f)) / 2;
                  t_proj_scale := 1; twist_a := 0; twist_b := 0;
                  dc := {| X := X (geom U_f);
                           comm := fun k => comm (geom U_f) k && negb (comm_override k =? 0) |} |};
     out := data out_f; in_ := data in_f; in_Ghost := ghost in_f;
     x := data x_f; U := links U_f; U_Ghost := ghost_links U_f;
     kappa := kappa_ |}.

(** Modelled from the spec: [getCoords] is declared outside the two source
    files; it "maps a linear site index + parity to 4D coordinates".  The
    checkerboard index is the thread index. *)
Definition coords (nDim : Z) (kernel_type : KernelType) (arg : TwistedMassArg)
    (idx par : Z) : Z * Coord * Z :=
  let ext := X (dc arg) in
  let za := idx / (ext 0 / 2) in
  let x1 := za mod ext 1 in
  let zb := za / ext 1 in
  let x2 := zb mod ext 2 in
  let x3 := zb / ext 2 in
  let x0 := 2 * (idx mod (ext 0 / 2)) + (par + x1 + x2 + x3) mod 2 in
  (idx,
   (fun k => if k =? 0 then x0 else if k =? 1 then x1 else if k =? 2 then x2 else x3),
   3).

(** Modelled from the spec: [isActive] is declared outside the two source
    files; "the active region classification currently includes this
    boundary face" when the dimension is partitioned, and in the fused pass
    a thread that handles a face becomes active. *)
Definition active_face (kernel_type : KernelType) (active : bool)
    (thread_dim d : Z) (coord : Coord) (arg : TwistedMassArg) : bool * bool :=
  if comm (dc arg) d
  then (true, if is_all kernel_type then true else active)
  else (false, active).

Definition on_face (arg : TwistedMassArg) (coord : Coord) (k : Z) : bool :=
  comm (dc arg) k && ((coord k =? 0) || (coord k =? X (dc arg) k - 1)).

(** Modelled from the spec: [isComplete] is declared outside the two source
    files; it tells whether "the site's full neighbor set is known to be
    complete for this pass".  The passes run interior, then the faces of
    dimension 3, 2, 1 and 0: a site is complete in a pass when it lies on no
    partitioned face that a later pass handles. *)
Definition complete (kernel_type : KernelType) (arg : TwistedMassArg) (coord : Coord) : bool :=
  match kernel_type with
  | EXTERIOR_KERNEL_ALL => true
  | INTERIOR_KERNEL =>
      negb (on_face arg coord 3 || on_face arg coord 2 || on_face arg coord 1 || on_face arg coord 0)
  | EXTERIOR_KERNEL_T =>
      negb (on_face arg coord 2 || on_face arg coord 1 || on_face arg coord 0)
  | EXTERIOR_KERNEL_Z => negb (on_face arg coord 1 || on_face arg coord 0)
  | EXTERIOR_KERNEL_Y => negb (on_face arg coord 0)
  | EXTERIOR_KERNEL_X => true
  end.

(** Modelled from the spec: [applyWilson] is declared outside the two source
    files; section 4.2 calls it "the simpler untwisted hopping variant" with
    "the identical accumulator-update contract".  Here it is the hopping term
    of section 4.1 without the pre-rotation of step 5. *)
Definition wilson_gather (nParity : Z) (dagger : bool) (kernel_type : KernelType)
    (arg : TwistedMassArg) (coord : Coord) (x_cb par idx thread_dim : Z)
    (st : spinor * bool) (d : Z) : spinor * bool :=
  let tp := their_spinor_parity nParity par in
  let scale (hs : half_spinor) := if d =? 3 then hscale hs (t_proj_scale arg) else hs in
  let '(acc, active) := st in
  let '(ghost_f, active) :=
    if coord d + nFace arg >=? dim arg d
    then active_face kernel_type active thread_dim d coord arg else (false, active) in
  let dir_f := if dagger then 1 else -1 in
  let acc :=
    if doHalo kernel_type d && ghost_f then
      spinor_add acc (spinor_reconstruct d dir_f
                        (link_mul (U arg d x_cb par) (scale (in_Ghost arg d 1 idx tp))))
    else if doBulk kernel_type && negb ghost_f then
      spinor_add acc (spinor_reconstruct d dir_f
                        (link_mul (U arg d x_cb par)
                           (spinor_project d dir_f
                              (in_ arg (neighbor_index coord d 1 (dc arg)) tp))))
    else acc in
  let '(ghost_b, active) :=
    if coord d - nFace arg <? 0
    then active_face kernel_type active thread_dim d coord arg else (false, active) in
  let dir_b := if dagger then -1 else 1 in
  let acc :=
    if doHalo kernel_type d && ghost_b then
      spinor_add acc (spinor_reconstruct d dir_b
                        (link_mul (cconj (U_Ghost arg d idx (1 - par)))
                           (scale (in_Ghost arg d 0 idx tp))))
    else if doBulk kernel_type && negb ghost_b then
      spinor_add acc (spinor_reconstruct d dir_b
                        (link_mul (cconj (U arg d (neighbor_index coord d (-1) (dc arg)) (1 - par)))
                           (spinor_project d dir_b
                              (in_ arg (neighbor_index coord d (-1) (dc arg)) tp))))
    else acc in
  (acc, active).

Definition wilson_hopping (nDim nParity : Z) (dagger : bool) (kernel_type : KernelType)
    (acc : spinor) (arg : TwistedMassArg) (coord : Coord)
    (x_cb par idx thread_dim : Z) (active : bool) : spinor * bool :=
  fold_left (wilson_gather nParity dagger kernel_type arg coord x_cb par idx thread_dim)
            (seqZ 0 nDim) (acc, active).

Definition collaborators : Collaborators :=
  {| WilsonArg_ctor := wilson_arg;
     getCoords := coords;
     isActive := active_face;
     isComplete := complete;
     applyWilson := wilson_hopping |}.

#[local] Existing Instance collaborators.

(** A 2 x 2 x 2 x 4 lattice; [partitioned] marks dimension 3 as split
    between processes. *)
Definition extents : Z -> Z := fun k => if k =? 3 then 4 else 2.

Definition single : lattice := {| X := extents; comm := fun _ => false |}.
Definition partitioned : lattice := {| X := extents; comm := fun k => k =? 3 |}.

Definition gauge (lat : lattice) : host_gauge :=
  {| links := fun d i p => (d + 1, i - p);
     ghost_links := fun d gi p => (0 - 2, gi + p);
     geom := lat |}.

Definition source : host_field :=
  {| data := fun i p => ((i + 1, p), (0, 1), (2 - i, 0), (p, 3));
     ghost := fun d dir gi p => ((gi + 1, d), (dir, p)) |}.

Definition passthrough : host_field :=
  {| data := fun i p => ((1, 0), (i, 0), (0, p), (5, 0));
     ghost := fun d dir gi p => ((0, 0), (0, 0)) |}.

Definition blank : host_field :=
  {| data := fun i p => ((7, 0), (0, 0), (0, 0), (0, i + p));
     ghost := fun d dir gi p => ((0, 0), (0, 0)) |}.

Definition no_override : Z -> Z := fun _ => 1.

(** The argument bundle of the adjoint (dagger) operator with [a = 2],
    [b = 3], on a chosen lattice and parity. *)
Definition arg_on (lat : lattice) (xpay : bool) (parity_ : Z) (dagger asymmetric_ : bool)
  : TwistedMassArg :=
  TwistedMassArg_ctor blank source (gauge lat) 2 3 xpay passthrough
                      parity_ dagger asymmetric_ no_override.

(** The bundles, sites and launch the kernels are evaluated on below. *)
Definition arg_single : TwistedMassArg := arg_on single true 0 false false.
Definition arg_partitioned : TwistedMassArg := arg_on partitioned true 0 true false.
Definition arg_odd : TwistedMassArg := arg_on single true 1 true false.

(** The coordinate of a site. *)
Definition coord_at (arg : TwistedMassArg) (idx par : Z) : Coord :=
  snd (fst (coords 4 INTERIOR_KERNEL arg idx par)).

(** A launch of 4 x 1 x 2 blocks of 4 x 1 x 1 threads: 16 indices, 2 parities. *)
Definition grid_dim : dim3 := {| dim3_x := 4; dim3_y := 1; dim3_z := 2 |}.
Definition block_dim : dim3 := {| dim3_x := 4; dim3_y := 1; dim3_z := 1 |}.

(** A launch of 2 x 1 x 1 blocks of 8 x 1 x 1 threads: 16 indices, 1 parity. *)
Definition grid_dim_one : dim3 := {| dim3_x := 2; dim3_y := 1; dim3_z := 1 |}.
Definition block_dim_one : dim3 := {| dim3_x := 8; dim3_y := 1; dim3_z := 1 |}.

(** The passes of the operator on the partitioned lattice as the calls
    they make: the interior pass over every (index, parity) pair, then the
    pass of the dimension-3 faces over the pairs whose site lies on the
    partitioned face. *)
Definition face_items (arg : TwistedMassArg) : list (Z * Z) :=
  List.filter (fun it => on_face arg (coord_at arg (fst it) (snd it)) 3) (cpu_items 2 arg).

Definition two_passes (arg : TwistedMassArg) : list Call :=
  pass_calls INTERIOR_KERNEL (cpu_items 2 arg)
  ++ pass_calls EXTERIOR_KERNEL_T (face_items arg).

End Reference.

(** ** transform_reduce.h: the functors, the overloads and the device kernel *)
Module TransformReduceMore.
Import TransformReduce TwistedMass.

Section Functors.

Context {T : Type}.

(** [operator+], [operator>] and [operator<] of [T]. *)
Variable add : T -> T -> T.
Variable gt : T -> T -> bool.
Variable lt : T -> T -> bool.

(** [plus<T>::operator()]: [return a + b;] *)
Definition plus (a b : T) : T := add a b.

(** [maximum<T>::operator()]: [return a > b ? a : b;] *)
Definition maximum (a b : T) : T := if gt a b then a else b.

(** [minimum<T>::operator()]: [return a < b ? a : b;] *)
Definition minimum (a b : T) : T := if lt a b then a else b.

(** [identity<T>::operator()]: [return a;] *)
Definition identity (a : T) : T := a.

End Functors.

Section Overloads.

Context {T reduce_t : Type}.

(** [v + k]: the pointer [k] elements further. *)
Definition offset (p : pointer T) (k : Z) : pointer T := fun i => p (i + k).

(** [result[0]] of a [std::vector]. *)
Definition front (res : list reduce_t) : outcome reduce_t :=
  match res !! 0%nat with
  | Some y => Done y
  | None => Undefined
  end.

(** The single-array [transform_reduce(location, v, n_items, h, init, r)],
    host location:
    [std::vector<reduce_t> result = {0.0}; std::vector<const T *> v_ = {v};
     transform_reduce(location, result, v_, n_items, h, init, r);
     return result[0];]
    [zero] is the literal [0.0] as a [reduce_t]. *)
Definition transform_reduce_single (zero : reduce_t) (p : pointer T) (n_items : Z)
    (h : T -> reduce_t) (init : reduce_t) (r : reduce_t -> reduce_t -> reduce_t)
  : outcome reduce_t :=
  res ← transform_reduce_host [zero] [p] n_items h init r;
  front res.

(** The batched [reduce(location, result, v, n_items, init, r)], host
    location: [transform_reduce(location, result, v, n_items, identity<T>(),
    init, r);].  The reducer takes [reduce_t]: [convert] is the conversion
    of an element at the call of the reducer. *)
Definition reduce_host (convert : T -> reduce_t) (res : list reduce_t)
    (vs : list (pointer T)) (n_items : Z) (init : reduce_t)
    (r : reduce_t -> reduce_t -> reduce_t) : outcome (list reduce_t) :=
  transform_reduce_host res vs n_items (fun t => convert (identity t)) init r.

(** The single-array [reduce(location, v, n_items, init, r)], host location. *)
Definition reduce_single (convert : T -> reduce_t) (zero : reduce_t) (p : pointer T)
    (n_items : Z) (init : reduce_t) (r : reduce_t -> reduce_t -> reduce_t)
  : outcome reduce_t :=
  res ← transform_reduce_host [zero] [p] n_items (fun t => convert (identity t)) init r;
  front res.









End Overloads.




End TransformReduceMore.

(** ** The twisted-mass kernels: what a call reads *)
Module TwistedMassMore.
Import TwistedMass.

Section MoreKernels.

Context `{SA : SpinorAlgebra} `{G : Geometry} `{C : !Collaborators}.

(** The accumulator of a call of [twistedMass] after the gather, before the
    partial merge. *)
Definition gathered (nDim nParity : Z) (dagger asymmetric_ : bool)
    (kernel_type : KernelType) (arg : TwistedMassArg) (idx par : Z) : Vector :=
  let '(_, _, out1, _) :=
    resolve_and_gather nDim nParity dagger asymmetric_ kernel_type arg idx par in
  out1.

(** Two bundles agree on every member [applyWilsonTM] reads ([arg.nFace],
    [arg.dim], [arg.dc], [arg.t_proj_scale], [arg.a], [arg.b], [arg.in],
    [arg.U] and their halo variants) and on [isActive]. *)
Definition same_hopping_inputs (arg arg' : TwistedMassArg) : Prop :=
  nFace arg = nFace arg' /\ dim arg = dim arg' /\ dc arg = dc arg' /\
  t_proj_scale arg = t_proj_scale arg' /\ a arg = a arg' /\ b arg = b arg' /\
  (forall i p, in_ arg i p = in_ arg' i p) /\
  (forall d dir gi p, in_Ghost arg d dir gi p = in_Ghost arg' d dir gi p) /\
  (forall d i p, U arg d i p = U arg' d i p) /\
  (forall d gi p, U_Ghost arg d gi p = U_Ghost arg' d gi p) /\
  (forall kernel_type active thread_dim d coord,
     isActive kernel_type active thread_dim d coord arg =
     isActive kernel_type active thread_dim d coord arg').

End MoreKernels.

End TwistedMassMore.

(** More bundles and launches on the reference lattice. *)
Module ReferenceMore.
Import TwistedMass Reference.

#[local] Existing Instance algebra.
#[local] Existing Instance geometry.
#[local] Existing Instance collaborators.

(** A single-parity bundle whose parity is the invalid marker (negative),
    and one whose parity is 2. *)
Definition arg_negative : TwistedMassArg := arg_on single true (-1) true false.
Definition arg_parity_two : TwistedMassArg := arg_on single true 2 true false.

(** Another launch over 16 indices and 2 parities: 1 x 1 x 1 blocks of
    32 x 1 x 2 threads. *)
Definition grid_dim_wide : dim3 := {| dim3_x := 1; dim3_y := 1; dim3_z := 1 |}.
Definition block_dim_wide : dim3 := {| dim3_x := 32; dim3_y := 1; dim3_z := 2 |}.

End ReferenceMore.
(** * Properties of the sequential transform-reduce *)
Module TransformReduceFacts.
Import TransformReduce.

Lemma int_of_size_small (n : nat) :
  Z.of_nat n < 2 ^ 31 -> int_of_size n = Z.of_nat n.
Proof.
  intros Hn. unfold int_of_size, to_int32.
  rewrite Z.mod_small by lia. lia.
Qed.

Section ReduceFacts.

Context {T reduce_t : Type}.
Implicit Types (arg : TransformReduceArg T reduce_t) (p : pointer T).
Implicit Types (hh : T -> reduce_t) (rr : reduce_t -> reduce_t -> reduce_t).
Implicit Types (ini : reduce_t) (vs : list (pointer T)).

Lemma item_loop_fold arg p fuel i acc :
  (Z.to_nat (n_items arg - i) <= fuel)%nat ->
  item_loop arg p fuel i acc =
  fold_left (fun acc t => r arg acc (h arg t)) (p <$> seqZ i (n_items arg - i)) acc.
Proof.
  revert i acc. induction fuel as [|fuel IH]; intros i acc Hfuel; simpl.
  - rewrite seqZ_nil by lia. reflexivity.
  - destruct (Z.ltb_spec i (n_items arg)) as [Hlt|Hge].
    + rewrite (seqZ_cons i) by lia. simpl.
      rewrite IH by lia. do 3 f_equal. lia.
    + rewrite seqZ_nil by lia. reflexivity.
Qed.

Lemma reduce_batch_fold arg p :
  reduce_batch arg p = fold_items (h arg) (r arg) p (n_items arg) (init arg).
Proof.
  unfold reduce_batch, fold_items. rewrite item_loop_fold by lia.
  rewrite Z.sub_0_r. reflexivity.
Qed.

Lemma reduce_batch_set_result arg res p :
  reduce_batch (set_result arg res) p = reduce_batch arg p.
Proof. rewrite !reduce_batch_fold. reflexivity. Qed.


Lemma store_ok {A} (arr : list (option A)) (j : nat) (y : A) :
  (j < length arr)%nat -> store arr j y = Done (<[j := Some y]> arr).
Proof. intros Hj. unfold store. case_decide; [reflexivity | lia]. Qed.

Lemma store_out_of_range {A} (arr : list (option A)) (j : nat) (y : A) :
  (length arr <= j)%nat -> store arr j y = Undefined.
Proof. intros Hj. unfold store. case_decide; [lia | reflexivity]. Qed.

(** Copying [vs] into slots [j], [j+1], ... of an array that has room. *)
Lemma copy_pointers_ok (vs : list (pointer T)) :
  forall (j : nat) (dst : list (option (pointer T))),
    (j + length vs <= length dst)%nat ->
    exists dst',
      copy_pointers vs j dst = Done dst' /\
      length dst' = length dst /\
      (forall i p, vs !! i = Some p -> dst' !! (j + i)%nat = Some (Some p)) /\
      (forall k, (k < j \/ j + length vs <= k)%nat -> dst' !! k = dst !! k).
Proof.
  induction vs as [|p vs IH]; intros j dst Hlen; simpl in *.
  - exists dst. repeat split; auto. intros i p Hi. rewrite lookup_nil in Hi. discriminate.
  - rewrite store_ok by lia. simpl.
    destruct (IH (S j) (<[j := Some p]> dst)) as (dst' & Hcp & Hl & Hin & Hout).
    { rewrite length_insert. lia. }
    exists dst'. split; [exact Hcp|]. split; [rewrite Hl; apply length_insert|]. split.
    + intros [|i] q Hq; simpl in Hq.
      * inversion Hq; subst q. rewrite Nat.add_0_r.
        rewrite Hout by lia. apply list_lookup_insert_eq. lia.
      * replace (j + S i)%nat with (S j + i)%nat by lia. apply Hin, Hq.
    + intros k Hk. rewrite Hout by lia. apply list_lookup_insert_ne. lia.
Qed.

(** Copying past the end of the array is an access out of range. *)
Lemma copy_pointers_overflow (vs : list (pointer T)) :
  forall (j : nat) (dst : list (option (pointer T))),
    (length dst < j + length vs)%nat -> (j <= length dst)%nat ->
    copy_pointers vs j dst = Undefined.
Proof.
  induction vs as [|p vs IH]; intros j dst Hlen Hj; simpl in *; [lia|].
  destruct (decide (j < length dst)%nat) as [Hlt|Hge].
  - rewrite store_ok by lia. simpl. apply IH; rewrite length_insert; lia.
  - rewrite store_out_of_range by lia. reflexivity.
Qed.

Lemma ctor_fatal (vs : list (pointer T)) n hh ini rr :
  n_batch_max < int_of_size (length vs) ->
  TransformReduceArg_ctor vs n hh ini rr =
  Fatal (BatchTooLarge (int_of_size (length vs)) n_batch_max).
Proof.
  intros Hgt. unfold TransformReduceArg_ctor.
  destruct (Z.gtb_spec (int_of_size (length vs)) n_batch_max); [reflexivity | lia].
Qed.

Lemma ctor_accepts (vs : list (pointer T)) n hh ini rr :
  (length vs <= Z.to_nat n_batch_max)%nat ->
  exists arg,
    TransformReduceArg_ctor vs n hh ini rr = Done arg /\
    n_batch arg = Z.of_nat (length vs) /\
    n_items arg = n /\ h arg = hh /\ init arg = ini /\ r arg = rr /\
    length (v arg) = Z.to_nat n_batch_max /\
    length (result arg) = Z.to_nat n_batch_max /\
    (forall j p, vs !! j = Some p -> v arg !! j = Some (Some p)).
Proof.
  intros Hlen. unfold TransformReduceArg_ctor.
  assert (Hmax : Z.to_nat n_batch_max = 8%nat) by reflexivity.
  assert (Hsmall : int_of_size (length vs) = Z.of_nat (length vs)).
  { apply int_of_size_small. change (2 ^ 31) with 2147483648. lia. }
  rewrite Hsmall.
  destruct (Z.gtb_spec (Z.of_nat (length vs)) n_batch_max) as [Hgt|_].
  { unfold n_batch_max in Hgt. lia. }
  destruct (copy_pointers_ok vs 0%nat (replicate (Z.to_nat n_batch_max) None))
    as (dst' & Hcp & Hl & Hin & _).
  { rewrite length_replicate. lia. }
  cbn [v]. rewrite Hcp. eexists. split; [reflexivity|]. cbn.
  rewrite Hl, !length_replicate. repeat split; auto.
Qed.

Lemma load_ok {A} (arr : list (option A)) (j : nat) (y : A) :
  arr !! j = Some (Some y) -> load arr j = Done y.
Proof. intros Hj. unfold load. rewrite Hj. reflexivity. Qed.

Lemma set_result_id arg : set_result arg (result arg) = arg.
Proof. destruct arg; reflexivity. Qed.

(** The outer loop, from batch [j] on: it ends, it writes the reduction of
    batch [k] to slot [k] for every [j <= k < n_batch], and it leaves the
    other slots alone. *)
Lemma batch_loop_spec (fuel : nat) :
  forall (j : Z) arg,
    0 <= j ->
    (Z.to_nat (n_batch arg - j) <= fuel)%nat ->
    n_batch arg <= Z.of_nat (length (result arg)) ->
    (forall k, j <= k < n_batch arg -> exists p, v arg !! Z.to_nat k = Some (Some p)) ->
    exists res',
      batch_loop fuel j arg = Done (set_result arg res') /\
      length res' = length (result arg) /\
      (forall k p, j <= k < n_batch arg -> v arg !! Z.to_nat k = Some (Some p) ->
                   res' !! Z.to_nat k = Some (Some (reduce_batch arg p))) /\
      (forall k, (k < Z.to_nat j \/ Z.to_nat (n_batch arg) <= k)%nat ->
                 res' !! k = result arg !! k).
Proof.
  induction fuel as [|fuel IH]; intros j arg Hj Hfuel Hroom Hinit.
  - exists (result arg). simpl. rewrite set_result_id.
    repeat split; auto. intros k p Hk. lia.
  - simpl. destruct (Z.ltb_spec j (n_batch arg)) as [Hlt|Hge].
    + destruct (Hinit j ltac:(lia)) as [p Hp].
      rewrite (load_ok _ _ _ Hp). cbn [mbind outcome_bind].
      rewrite store_ok by lia. cbn [mbind outcome_bind].
      set (res := <[Z.to_nat j := Some (reduce_batch arg p)]> (result arg)).
      destruct (IH (j + 1) (set_result arg res)) as (res' & Hrun & Hl & Hin & Hout).
      * lia.
      * cbn. lia.
      * cbn. unfold res. rewrite length_insert. exact Hroom.
      * cbn. intros k Hk. apply Hinit. lia.
      * exists res'. cbn in Hrun, Hl, Hin, Hout.
        split; [exact Hrun|]. split; [rewrite Hl; apply length_insert|]. split.
        -- intros k q Hk Hq. destruct (decide (k = j)) as [->|Hne].
           ++ rewrite Hout by lia. rewrite Hp in Hq. inversion Hq; subst q.
              apply list_lookup_insert_eq. lia.
           ++ rewrite (Hin k q) by (auto; lia).
              rewrite reduce_batch_set_result. reflexivity.
        -- intros k Hk. rewrite Hout by lia. apply list_lookup_insert_ne. lia.
    + exists (result arg). rewrite set_result_id.
      repeat split; auto. intros k p Hk. lia.
Qed.

Lemma transform_reduce_spec arg :
  well_formed arg ->
  exists res',
    transform_reduce arg = Done (set_result arg res') /\
    length res' = length (result arg) /\
    (forall k p, 0 <= k < n_batch arg -> v arg !! Z.to_nat k = Some (Some p) ->
                 res' !! Z.to_nat k = Some (Some (reduce_batch arg p))) /\
    (forall k, (Z.to_nat (n_batch arg) <= k)%nat -> res' !! k = result arg !! k).
Proof.
  intros [Hroom Hinit]. unfold transform_reduce.
  destruct (batch_loop_spec (Z.to_nat (n_batch arg)) 0 arg) as (res' & Hrun & Hl & Hin & Hout);
    [lia | lia | exact Hroom | exact Hinit |].
  exists res'. repeat split; auto.
Qed.

Lemma copy_results_ok arg (f : nat -> reduce_t) (n : nat) :
  forall j,
    (forall i, (j <= i < j + n)%nat -> result arg !! i = Some (Some (f i))) ->
    copy_results arg n j = Done (f <$> seq j n).
Proof.
  induction n as [|n IH]; intros j Hres; simpl; [reflexivity|].
  rewrite (load_ok _ _ (f j)) by (apply Hres; lia). cbn [mbind outcome_bind].
  rewrite IH by (intros i Hi; apply Hres; lia). reflexivity.
Qed.

Lemma ctor_well_formed vs n hh ini rr arg :
  TransformReduceArg_ctor vs n hh ini rr = Done arg ->
  (length vs <= Z.to_nat n_batch_max)%nat ->
  well_formed arg.
Proof.
  intros Hctor Hlen.
  destruct (ctor_accepts vs n hh ini rr Hlen)
    as (arg0 & H0 & Hnb & _ & _ & _ & _ & Hlv & Hlr & Hv).
  rewrite H0 in Hctor. inversion Hctor; subst arg0. split.
  - rewrite Hnb, Hlr. lia.
  - intros k Hk. rewrite Hnb in Hk.
    destruct (lookup_lt_is_Some_2 vs (Z.to_nat k)) as [p Hp]; [lia|].
    exists p. apply Hv, Hp.
Qed.

(** End to end on the host: with at most [n_batch_max] batches and a result
    vector of the same size, every entry is the left fold of its batch. *)
Lemma apply_cpu_spec (res : list reduce_t) vs n hh ini rr :
  (length vs <= Z.to_nat n_batch_max)%nat ->
  length res = length vs ->
  apply_cpu res vs n hh ini rr = Done ((fun p => fold_items hh rr p n ini) <$> vs).
Proof.
  intros Hlen Hres. unfold apply_cpu.
  destruct (ctor_accepts vs n hh ini rr Hlen)
    as (arg & Hctor & Hnb & Hn & Hh & Hi & Hr & Hlv & Hlr & Hv).
  rewrite Hctor. cbn [mbind outcome_bind].
  destruct (transform_reduce_spec arg) as (res' & Hrun & Hl & Hin & _).
  { eapply ctor_well_formed; eauto. }
  rewrite Hrun. cbn [mbind outcome_bind].
  destruct vs as [|p0 vs'] eqn:Evs.
  - simpl in Hres. rewrite Hres. reflexivity.
  - rewrite <- Evs in *.
    rewrite (copy_results_ok _ (fun i => fold_items hh rr (nth i vs p0) n ini)).
    + rewrite Hres. f_equal. apply list_eq. intros i.
      rewrite !list_lookup_fmap.
      destruct (decide (i < length vs)%nat) as [Hi'|Hi'].
      * rewrite lookup_seq_lt by lia. simpl.
        destruct (lookup_lt_is_Some_2 vs i Hi') as [q Hq]. rewrite Hq. simpl.
        f_equal. f_equal. apply nth_lookup_Some with (d := p0) in Hq. exact Hq.
      * rewrite lookup_seq_ge by lia. rewrite lookup_ge_None_2 by lia. reflexivity.
    + intros i Hi'. cbn [result set_result].
      destruct (lookup_lt_is_Some_2 vs i ltac:(lia)) as [q Hq].
      specialize (Hin (Z.of_nat i) q). rewrite Nat2Z.id in Hin.
      rewrite Hin; [|lia|apply Hv, Hq].
      rewrite reduce_batch_fold, Hn, Hh, Hi, Hr.
      apply nth_lookup_Some with (d := p0) in Hq. rewrite Hq. reflexivity.
Qed.

Lemma int_of_size_exceeds vs :
  (Z.to_nat n_batch_max < length vs)%nat -> Z.of_nat (length vs) < 2 ^ 31 ->
  n_batch_max < int_of_size (length vs).
Proof.
  intros Hgt Hfit. rewrite int_of_size_small by exact Hfit.
  change (Z.to_nat n_batch_max) with 8%nat in Hgt. unfold n_batch_max. lia.
Qed.

Lemma apply_cpu_fatal (res : list reduce_t) vs n hh ini rr :
  n_batch_max < int_of_size (length vs) ->
  apply_cpu res vs n hh ini rr =
  Fatal (BatchTooLarge (int_of_size (length vs)) n_batch_max).
Proof.
  intros Hgt. unfold apply_cpu. rewrite ctor_fatal by exact Hgt. reflexivity.
Qed.

(** A count that exceeds [n_batch_max] but is at most [n_batch_max] once
    converted to [int] passes the comparison, and the copy loop, which runs
    to [v.size()], stores past the last slot of [v]. *)
Lemma ctor_count_wraps vs n hh ini rr :
  (Z.to_nat n_batch_max < length vs)%nat -> int_of_size (length vs) <= n_batch_max ->
  TransformReduceArg_ctor vs n hh ini rr = Undefined.
Proof.
  intros Hmany Hwrap. unfold TransformReduceArg_ctor.
  destruct (Z.gtb_spec (int_of_size (length vs)) n_batch_max) as [Hgt|_]; [lia|].
  cbn [v]. rewrite copy_pointers_overflow; [reflexivity | |].
  - rewrite length_replicate. lia.
  - lia.
Qed.

(** The batch limit where the count fits an [int].  The constructor of the
    argument bundle compares the batch count,
    stored in the [int] member [n_batch], with [n_batch_max = 8].  When the
    count is greater the constructor ends in the fatal error, and so does
    [apply] on the host, whatever the elements, the transformer and the
    reducer are: nothing is reduced and no result is returned.  This is the
    case for every input of more than 8 batches whose size fits an [int].
    When there are at most 8 batches the bundle is built, [n_batch] is the
    number of batches and slot [j] of [v] holds the [j]-th pointer. *)
Theorem batch_limit_enforced vs n hh ini rr :
  n_batch_max = 8 /\
  (n_batch_max < int_of_size (length vs) ->
     TransformReduceArg_ctor vs n hh ini rr =
       Fatal (BatchTooLarge (int_of_size (length vs)) n_batch_max) /\
     forall res : list reduce_t,
       apply_cpu res vs n hh ini rr =
       Fatal (BatchTooLarge (int_of_size (length vs)) n_batch_max)) /\
  ((8 < length vs)%nat -> Z.of_nat (length vs) < 2 ^ 31 ->
     TransformReduceArg_ctor vs n hh ini rr =
       Fatal (BatchTooLarge (Z.of_nat (length vs)) 8) /\
     forall res : list reduce_t,
       apply_cpu res vs n hh ini rr = Fatal (BatchTooLarge (Z.of_nat (length vs)) 8)) /\
  ((length vs <= 8)%nat ->
     exists arg,
       TransformReduceArg_ctor vs n hh ini rr = Done arg /\
       n_batch arg = Z.of_nat (length vs) /\
       (forall j p, vs !! j = Some p -> v arg !! j = Some (Some p))).
Proof.
  split; [reflexivity|]. split; [|split].
  - intros Hgt. split; [apply ctor_fatal, Hgt|].
    intros res. apply apply_cpu_fatal, Hgt.
  - intros Hgt Hfit.
    assert (Hn : n_batch_max < int_of_size (length vs))
      by (apply int_of_size_exceeds; [exact Hgt | exact Hfit]).
    rewrite <- (int_of_size_small _ Hfit). change 8 with n_batch_max.
    split; [apply ctor_fatal, Hn|]. intros res. apply apply_cpu_fatal, Hn.
  - intros Hlen.
    destruct (ctor_accepts vs n hh ini rr Hlen) as (arg & Hctor & Hnb & _ & _ & _ & _ & _ & _ & Hv).
    exists arg. auto.
Qed.

(** C10.  On a well-formed bundle [transform_reduce] returns, and for every
    batch [j < n_batch] slot [j] of [result] is the left fold of the reducer
    over [h(v[j][0]), ..., h(v[j][n_items-1])], in ascending index order,
    from [init]; the value depends on no other batch, the slots from
    [n_batch] on are not written, and with [n_items = 0] every batch
    yields [init]. *)
Theorem transform_reduce_left_fold arg :
  well_formed arg ->
  exists arg',
    transform_reduce arg = Done arg' /\
    (forall j p, 0 <= j < n_batch arg -> v arg !! Z.to_nat j = Some (Some p) ->
       result arg' !! Z.to_nat j =
       Some (Some (fold_items (h arg) (r arg) p (n_items arg) (init arg)))) /\
    (forall k, (Z.to_nat (n_batch arg) <= k)%nat -> result arg' !! k = result arg !! k) /\
    (n_items arg = 0 ->
       forall j, 0 <= j < n_batch arg -> result arg' !! Z.to_nat j = Some (Some (init arg))).
Proof.
  intros Hwf. destruct (transform_reduce_spec arg Hwf) as (res' & Hrun & Hl & Hin & Hout).
  exists (set_result arg res'). split; [exact Hrun|]. cbn [result set_result].
  split; [|split].
  - intros j p Hj Hp. rewrite (Hin j p Hj Hp). rewrite reduce_batch_fold. reflexivity.
  - exact Hout.
  - intros Hzero j Hj. destruct Hwf as [_ Hinit].
    destruct (Hinit j Hj) as [p Hp].
    rewrite (Hin j p Hj Hp), reduce_batch_fold, Hzero. reflexivity.
Qed.

End ReduceFacts.

Lemma int_of_size_wraps : int_of_size (Z.to_nat (2 ^ 31)) = - 2 ^ 31.
Proof. unfold int_of_size. rewrite Z2Nat.id by (apply Z.pow_nonneg; lia). reflexivity. Qed.

(** C9.  A vector of 2^31 batch pointers.  Converted to the [int] member
    [n_batch] the count is -2^31, so [n_batch > n_batch_max] does not hold
    and no error is raised; the copy loop then stores past the eight slots
    of [v].  The constructor, and with it [apply] and the entry point on the
    host, end in an access out of range, not in the fatal error. *)
Theorem batch_limit_missed :
  (8 < length (replicate (Z.to_nat (2 ^ 31)) (fun i : Z => i)))%nat /\
  int_of_size (length (replicate (Z.to_nat (2 ^ 31)) (fun i : Z => i))) = - 2 ^ 31 /\
  TransformReduceArg_ctor (replicate (Z.to_nat (2 ^ 31)) (fun i : Z => i))
    3 (fun t => t) 0 Z.add = Undefined /\
  (forall res : list Z,
     apply_cpu res (replicate (Z.to_nat (2 ^ 31)) (fun i : Z => i))
       3 (fun t => t) 0 Z.add = Undefined) /\
  transform_reduce_host (replicate (Z.to_nat (2 ^ 31)) 0)
    (replicate (Z.to_nat (2 ^ 31)) (fun i : Z => i)) 3 (fun t => t) 0 Z.add = Undefined.
Proof.
  assert (Hlen : (8 < Z.to_nat (2 ^ 31))%nat).
  { apply (Nat2Z.inj_lt 8). rewrite Z2Nat.id by (apply Z.pow_nonneg; lia). reflexivity. }
  assert (Hctor : TransformReduceArg_ctor (replicate (Z.to_nat (2 ^ 31)) (fun i : Z => i))
                    3 (fun t => t) 0 Z.add = Undefined).
  { apply ctor_count_wraps.
    - rewrite length_replicate. exact Hlen.
    - rewrite length_replicate, int_of_size_wraps. discriminate. }
  split; [rewrite length_replicate; exact Hlen|].
  split; [rewrite length_replicate; apply int_of_size_wraps|].
  split; [exact Hctor|].
  split.
  - intros res. unfold apply_cpu. rewrite Hctor. reflexivity.
  - unfold transform_reduce_host. rewrite !length_replicate, Nat.eqb_refl.
    cbn [negb]. unfold apply_cpu. rewrite Hctor. reflexivity.
Qed.

Lemma batch_limit_enforced_witness :
  TransformReduceArg_ctor nine_batches 3 (fun t => t) 0 Z.add = Fatal (BatchTooLarge 9 8) /\
  apply_cpu [0; 0] nine_batches 3 (fun t => t) 0 Z.add = Fatal (BatchTooLarge 9 8) /\
  exists arg,
    TransformReduceArg_ctor example_batches 3 (fun t => 2 * t) 100 Z.add = Done arg /\
    n_batch arg = 2.
Proof.
  destruct (batch_limit_enforced nine_batches 3 (fun t => t) 0 Z.add)
    as (_ & Hfatal & _ & _).
  destruct (batch_limit_enforced example_batches 3 (fun t => 2 * t) 100 Z.add)
    as (_ & _ & _ & Hok).
  destruct Hfatal as [Hc Ha]; [vm_compute; reflexivity|].
  destruct Hok as (arg & Hctor & Hnb & _); [simpl; lia|].
  split; [exact Hc|]. split; [exact (Ha [0; 0])|].
  exists arg. split; [exact Hctor | exact Hnb].
Defined.

Lemma example_arg_well_formed : well_formed example_arg.
Proof.
  split; [vm_compute; discriminate|].
  intros k Hk. cbn in Hk.
  assert (Hcases : k = 0 \/ k = 1) by lia.
  destruct Hcases as [-> | ->]; eexists; reflexivity.
Defined.

Lemma transform_reduce_left_fold_witness :
  exists arg',
    transform_reduce example_arg = Done arg' /\
    result arg' !! 0%nat = Some (Some 112) /\
    result arg' !! 1%nat = Some (Some 160).
Proof.
  destruct (transform_reduce_left_fold example_arg example_arg_well_formed)
    as (arg' & Hrun & Hfold & _ & _).
  exists arg'. split; [exact Hrun|]. split.
  - apply (Hfold 0 (fun i => i + 1)); [cbn; lia | reflexivity].
  - apply (Hfold 1 (fun i => 10 * i)); [cbn; lia | reflexivity].
Defined.

End TransformReduceFacts.

(** * Properties of the twisted-mass kernels *)
Module TwistedMassFacts.
Import TwistedMass.

Section KernelFacts.

Context `{SA : SpinorAlgebra} `{G : Geometry} `{C : !Collaborators}.
Implicit Types (arg : TwistedMassArg) (kernel_type : KernelType).
Implicit Types (coord : Coord) (acc : Vector).

(** *** The argument bundle is only ever changed in its output field *)

Lemma set_out_id arg : set_out arg (out arg) = arg.
Proof. destruct arg as [[ds o i ig xx u ug k] aa bb asy]. reflexivity. Qed.

Lemma set_out_set_out arg o1 o2 : set_out (set_out arg o1) o2 = set_out arg o2.
Proof. reflexivity. Qed.

Lemma out_set_out arg o : out (set_out arg o) = o.
Proof. reflexivity. Qed.

Lemma twistedMass_unfold nDim nParity dagger asymmetric_ xpay kernel_type arg idx par :
  twistedMass nDim nParity dagger asymmetric_ xpay kernel_type arg idx par =
  if writes nDim nParity dagger asymmetric_ kernel_type arg idx par
  then write_out arg
         (fst (site_of nDim nParity dagger asymmetric_ kernel_type arg idx par))
         (snd (site_of nDim nParity dagger asymmetric_ kernel_type arg idx par))
         (finalize dagger asymmetric_ xpay kernel_type arg
            (coord_of nDim nParity dagger asymmetric_ kernel_type arg idx par)
            (fst (site_of nDim nParity dagger asymmetric_ kernel_type arg idx par))
            (snd (site_of nDim nParity dagger asymmetric_ kernel_type arg idx par))
            (active_after nDim nParity dagger asymmetric_ kernel_type arg idx par)
            (merged nDim nParity dagger asymmetric_ kernel_type arg idx par))
  else arg.
Proof.
  unfold twistedMass, writes, site_of, coord_of, active_after, merged.
  destruct (resolve_and_gather nDim nParity dagger asymmetric_ kernel_type arg idx par)
    as [[[x_cb coord] out1] active].
  reflexivity.
Qed.

Lemma twistedMass_frame nDim nParity dagger asymmetric_ xpay kernel_type arg idx par :
  twistedMass nDim nParity dagger asymmetric_ xpay kernel_type arg idx par =
  set_out arg (out (twistedMass nDim nParity dagger asymmetric_ xpay kernel_type arg idx par)).
Proof.
  rewrite twistedMass_unfold.
  destruct (writes nDim nParity dagger asymmetric_ kernel_type arg idx par).
  - reflexivity.
  - symmetry. apply set_out_id.
Qed.


(** *** The branches of the gathers *)

Lemma select_path_cases kernel_type d ghost :
  (select_path kernel_type d ghost = HaloPath <->
     doHalo kernel_type d = true /\ ghost = true) /\
  (select_path kernel_type d ghost = BulkPath <->
     doBulk kernel_type = true /\ ghost = false) /\
  (select_path kernel_type d ghost = NoPath <->
     (ghost = true /\ doHalo kernel_type d = false) \/
     (ghost = false /\ doBulk kernel_type = false)).
Proof.
  unfold select_path.
  destruct (doHalo kernel_type d), (doBulk kernel_type), ghost; simpl;
    intuition congruence.
Qed.

Lemma ghost_test_fst kernel_type crosses active thread_dim d coord arg :
  fst (ghost_test kernel_type crosses active thread_dim d coord arg) =
  crosses && fst (isActive kernel_type active thread_dim d coord arg).
Proof. unfold ghost_test. destruct crosses; reflexivity. Qed.

Lemma forward_gather_path nParity dagger kernel_type arg coord x_cb par idx thread_dim d acc active :
  fst (forward_gather nParity dagger kernel_type arg coord x_cb par idx thread_dim d (acc, active)) =
  match forward_path kernel_type arg coord thread_dim active d with
  | HaloPath =>
      vadd acc
        (reconstruct d (if dagger then 1 else -1)
           (link_mul (U arg d x_cb par)
              (halo_rescale arg d
                 (in_Ghost arg d 1 (ghost_index 1 kernel_type arg coord idx thread_dim d)
                    (their_spinor_parity nParity par)))))
  | BulkPath =>
      vadd acc
        (reconstruct d (if dagger then 1 else -1)
           (link_mul (U arg d x_cb par)
              (project d (if dagger then 1 else -1)
                 (twist arg (in_ arg (getNeighborIndexCB coord d 1 (dc arg))
                               (their_spinor_parity nParity par))))))
  | NoPath => acc
  end.
Proof.
  unfold forward_gather, forward_path.
  destruct (forward_ghost kernel_type arg coord thread_dim active d) as [ghost act].
  simpl. destruct (select_path kernel_type d ghost); reflexivity.
Qed.

Lemma backward_gather_path nParity dagger kernel_type arg coord x_cb par idx thread_dim d acc active :
  fst (backward_gather nParity dagger kernel_type arg coord x_cb par idx thread_dim d (acc, active)) =
  match backward_path kernel_type arg coord thread_dim active d with
  | HaloPath =>
      vadd acc
        (reconstruct d (if dagger then -1 else 1)
           (link_mul (conj (U_Ghost arg d (ghost_index 0 kernel_type arg coord idx thread_dim d)
                              (1 - par)))
              (halo_rescale arg d
                 (in_Ghost arg d 0 (ghost_index 0 kernel_type arg coord idx thread_dim d)
                    (their_spinor_parity nParity par)))))
  | BulkPath =>
      vadd acc
        (reconstruct d (if dagger then -1 else 1)
           (link_mul (conj (U arg d (getNeighborIndexCB coord d (-1) (dc arg)) (1 - par)))
              (project d (if dagger then -1 else 1)
                 (twist arg (in_ arg (getNeighborIndexCB coord d (-1) (dc arg))
                               (their_spinor_parity nParity par))))))
  | NoPath => acc
  end.
Proof.
  unfold backward_gather, backward_path.
  destruct (backward_ghost kernel_type arg coord thread_dim active d) as [ghost act].
  simpl. destruct (select_path kernel_type d ghost); reflexivity.
Qed.

(** C1, as amended.  In each gather of [applyWilsonTM] the halo path and
    the bulk path exclude each other: the halo path runs exactly when
    [ghost] holds and [kernel_type] processes halo data for the dimension,
    the bulk path exactly when [ghost] does not hold and [kernel_type]
    processes bulk data, and in the remaining cases neither runs and the
    accumulator is left as it is.  [ghost] is the boundary test of the
    direction conjoined with [isActive], so the branch is a function of
    [kernel_type], the dimension and [ghost] alone.  An interior pass
    takes the bulk path for local neighbours and skips ghost ones; an
    exterior pass takes the halo path for ghost neighbours of the
    dimensions it processes and skips everything else; so over the interior
    pass and the exterior passes (one per dimension, or the fused one) a
    gather with a given [ghost] takes a path in exactly one pass. *)
Theorem gather_path_choice kernel_type arg coord thread_dim active d :
  fst (forward_ghost kernel_type arg coord thread_dim active d) =
    (coord d + nFace arg >=? dim arg d)
    && fst (isActive kernel_type active thread_dim d coord arg) /\
  fst (backward_ghost kernel_type arg coord thread_dim active d) =
    (coord d - nFace arg <? 0)
    && fst (isActive kernel_type active thread_dim d coord arg) /\
  (forall ghost,
     (select_path kernel_type d ghost = HaloPath <->
        doHalo kernel_type d = true /\ ghost = true) /\
     (select_path kernel_type d ghost = BulkPath <->
        doBulk kernel_type = true /\ ghost = false) /\
     (select_path kernel_type d ghost = NoPath <->
        (ghost = true /\ doHalo kernel_type d = false) \/
        (ghost = false /\ doBulk kernel_type = false))) /\
  (forall ghost,
     ~ ((doHalo kernel_type d && ghost = true) /\ (doBulk kernel_type && negb ghost = true))) /\
  (forall ghost,
     select_path INTERIOR_KERNEL d ghost = (if ghost then NoPath else BulkPath) /\
     select_path EXTERIOR_KERNEL_ALL d ghost = (if ghost then HaloPath else NoPath) /\
     select_path EXTERIOR_KERNEL_X d ghost = (if (d =? 0) && ghost then HaloPath else NoPath) /\
     select_path EXTERIOR_KERNEL_Y d ghost = (if (d =? 1) && ghost then HaloPath else NoPath) /\
     select_path EXTERIOR_KERNEL_Z d ghost = (if (d =? 2) && ghost then HaloPath else NoPath) /\
     select_path EXTERIOR_KERNEL_T d ghost = (if (d =? 3) && ghost then HaloPath else NoPath)) /\
  (forall ghost,
     length (List.filter (fun kt => takes_path kt d ghost) fused_passes) = 1%nat /\
     (0 <= d < 4 ->
      length (List.filter (fun kt => takes_path kt d ghost) split_passes) = 1%nat)) /\
  (forall nParity dagger x_cb par idx acc,
     (forward_path kernel_type arg coord thread_dim active d = NoPath ->
      fst (forward_gather nParity dagger kernel_type arg coord x_cb par idx thread_dim d
             (acc, active)) = acc) /\
     (backward_path kernel_type arg coord thread_dim active d = NoPath ->
      fst (backward_gather nParity dagger kernel_type arg coord x_cb par idx thread_dim d
             (acc, active)) = acc)).
Proof.
  split; [apply ghost_test_fst|]. split; [apply ghost_test_fst|].
  split; [intros ghost; apply select_path_cases|].
  split; [intros [|] [H1 H2]; rewrite ?andb_false_r in *; discriminate|]. split.
  - intros ghost. unfold select_path. simpl.
    destruct ghost, (d =? 0), (d =? 1), (d =? 2), (d =? 3); repeat split; reflexivity.
  - split.
    + intros ghost. split; [destruct ghost; reflexivity|].
      intros Hd.
      assert (Hcases : d = 0 \/ d = 1 \/ d = 2 \/ d = 3) by lia.
      destruct Hcases as [-> | [-> | [-> | ->]]]; destruct ghost; reflexivity.
    + intros nParity dagger x_cb par idx acc. split; intros Hp.
      * rewrite forward_gather_path, Hp. reflexivity.
      * rewrite backward_gather_path, Hp. reflexivity.
Qed.

(** The loop of [applyWilsonTM] over one more dimension: the forward and
    then the backward gather of the last dimension, run on the accumulator
    and the flag the dimensions before it leave. *)
Lemma applyWilsonTM_step nParity dagger kernel_type arg coord x_cb par idx thread_dim d acc active :
  0 <= d ->
  applyWilsonTM (d + 1) nParity dagger kernel_type acc arg coord x_cb par idx thread_dim active =
  backward_gather nParity dagger kernel_type arg coord x_cb par idx thread_dim d
    (forward_gather nParity dagger kernel_type arg coord x_cb par idx thread_dim d
       (applyWilsonTM d nParity dagger kernel_type acc arg coord x_cb par idx thread_dim active)).
Proof.
  intros Hd. unfold applyWilsonTM.
  rewrite (seqZ_app 0 d 1) by lia. rewrite fold_left_app.
  rewrite Z.add_0_l. reflexivity.
Qed.

(** C3.  [applyWilsonTM] runs, dimension after dimension, the forward and
    then the backward gather on its accumulator.  When a gather takes the
    bulk path, the vector read through the ordinary accessor at the
    neighbour index is first rotated, [a * (v + i*b * gamma4(v))], then
    projected, multiplied by the link (for the backward gather the conjugate
    of the link at the backward index and the other parity), reconstructed
    and added to the accumulator; so a dimension in which both gathers take
    the bulk path adds these two terms to the accumulator of
    [applyWilsonTM]. *)
Theorem bulk_gather_twists_first (nParity : Z) (dagger : bool) kernel_type arg coord
    (x_cb par idx thread_dim d : Z) acc (active : bool) :
  let rotate := fun w : Vector =>
    rscale (a arg) (vadd w (cscale (mk_complex (real_of_double d0) (b arg)) (gamma 4 w))) in
  let forward_term :=
    reconstruct d (if dagger then 1 else -1)
      (link_mul (U arg d x_cb par)
         (project d (if dagger then 1 else -1)
            (rotate (in_ arg (getNeighborIndexCB coord d 1 (dc arg))
                         (their_spinor_parity nParity par))))) in
  let backward_term :=
    reconstruct d (if dagger then -1 else 1)
      (link_mul (conj (U arg d (getNeighborIndexCB coord d (-1) (dc arg)) (1 - par)))
         (project d (if dagger then -1 else 1)
            (rotate (in_ arg (getNeighborIndexCB coord d (-1) (dc arg))
                         (their_spinor_parity nParity par))))) in
  let before :=
    applyWilsonTM d nParity dagger kernel_type acc arg coord x_cb par idx thread_dim active in
  let between :=
    forward_gather nParity dagger kernel_type arg coord x_cb par idx thread_dim d before in
  let after :=
    applyWilsonTM (d + 1) nParity dagger kernel_type acc arg coord x_cb par idx thread_dim
                  active in
  (forward_path kernel_type arg coord thread_dim active d = BulkPath ->
   fst (forward_gather nParity dagger kernel_type arg coord x_cb par idx thread_dim d
          (acc, active)) =
   vadd acc forward_term) /\
  (backward_path kernel_type arg coord thread_dim active d = BulkPath ->
   fst (backward_gather nParity dagger kernel_type arg coord x_cb par idx thread_dim d
          (acc, active)) =
   vadd acc backward_term) /\
  (forall w : Vector, twist arg w = rotate w) /\
  (0 <= d ->
   after =
   backward_gather nParity dagger kernel_type arg coord x_cb par idx thread_dim d between) /\
  (0 <= d ->
   forward_path kernel_type arg coord thread_dim (snd before) d = BulkPath ->
   backward_path kernel_type arg coord thread_dim (snd between) d = BulkPath ->
   fst after = vadd (vadd (fst before) forward_term) backward_term).
Proof.
  intros rotate forward_term backward_term before between after.
  split; [|split; [|split; [|split]]].
  - intros Hp. rewrite forward_gather_path, Hp. reflexivity.
  - intros Hp. rewrite backward_gather_path, Hp. reflexivity.
  - intros w. reflexivity.
  - intros Hd. apply applyWilsonTM_step, Hd.
  - intros Hd Hf Hb. subst after. rewrite applyWilsonTM_step by exact Hd.
    fold before. fold between.
    rewrite (surjective_pairing between), backward_gather_path, Hb.
    subst between. rewrite (surjective_pairing before), forward_gather_path, Hf.
    reflexivity.
Qed.

(** C4, as amended.  When a gather of [applyWilsonTM] takes the halo path,
    the half-projected input vector comes from the halo accessor of the
    input field, and it is multiplied by [t_proj_scale] when [d = 3] and
    left as it is otherwise, before the product with the link is
    reconstructed and added to the accumulator.  The backward gather reads
    its link from the halo accessor of the gauge field (at the face index
    and the other parity) and conjugates it; the forward gather reads its
    link from the ordinary accessor at the site itself.  These are the
    gathers [applyWilsonTM] runs on its accumulator, dimension after
    dimension. *)
Theorem halo_gather_links nParity dagger kernel_type arg coord x_cb par idx thread_dim d acc active :
  (forward_path kernel_type arg coord thread_dim active d = HaloPath ->
   fst (forward_gather nParity dagger kernel_type arg coord x_cb par idx thread_dim d
          (acc, active)) =
   vadd acc
     (reconstruct d (if dagger then 1 else -1)
        (link_mul (U arg d x_cb par)
           (halo_rescale arg d
              (in_Ghost arg d 1 (ghost_index 1 kernel_type arg coord idx thread_dim d)
                 (their_spinor_parity nParity par)))))) /\
  (backward_path kernel_type arg coord thread_dim active d = HaloPath ->
   fst (backward_gather nParity dagger kernel_type arg coord x_cb par idx thread_dim d
          (acc, active)) =
   vadd acc
     (reconstruct d (if dagger then -1 else 1)
        (link_mul (conj (U_Ghost arg d (ghost_index 0 kernel_type arg coord idx thread_dim d)
                           (1 - par)))
           (halo_rescale arg d
              (in_Ghost arg d 0 (ghost_index 0 kernel_type arg coord idx thread_dim d)
                 (their_spinor_parity nParity par)))))) /\
  (forall hv : HalfVector,
     halo_rescale arg 3 hv = hscale hv (t_proj_scale arg) /\
     (d <> 3 -> halo_rescale arg d hv = hv)) /\
  (0 <= d ->
   applyWilsonTM (d + 1) nParity dagger kernel_type acc arg coord x_cb par idx thread_dim
                 active =
   backward_gather nParity dagger kernel_type arg coord x_cb par idx thread_dim d
     (forward_gather nParity dagger kernel_type arg coord x_cb par idx thread_dim d
        (applyWilsonTM d nParity dagger kernel_type acc arg coord x_cb par idx thread_dim
                       active))).
Proof.
  split; [|split; [|split]].
  - intros Hp. rewrite forward_gather_path, Hp. reflexivity.
  - intros Hp. rewrite backward_gather_path, Hp. reflexivity.
  - intros hv. split; [reflexivity|].
    intros Hd. unfold halo_rescale.
    destruct (Z.eqb_spec d 3); [contradiction | reflexivity].
  - intros Hd. apply applyWilsonTM_step, Hd.
Qed.


(** *** The site update *)

Lemma site_of_getCoords nDim nParity dagger asymmetric_ kernel_type arg idx par :
  site_of nDim nParity dagger asymmetric_ kernel_type arg idx par =
  (fst (fst (getCoords nDim kernel_type arg idx par)), my_spinor_parity nParity par).
Proof.
  unfold site_of, resolve_and_gather.
  destruct (getCoords nDim kernel_type arg idx par) as [[x_cb coord] thread_dim].
  destruct (run_hopping _ _ _ _ _ _ _ _ _ _ _ _ _) as [out1 active]. reflexivity.
Qed.

Lemma out_write_out_same arg i p w : out (write_out arg i p w) i p = w.
Proof. unfold write_out. cbn. rewrite !Z.eqb_refl. reflexivity. Qed.

Lemma out_write_out arg i p w j q :
  out (write_out arg i p w) j q = if (j =? i) && (q =? p) then w else out arg j q.
Proof. reflexivity. Qed.

Lemma finalizes_writes nDim nParity dagger asymmetric_ kernel_type arg idx par :
  finalizes nDim nParity dagger asymmetric_ kernel_type arg idx par = true ->
  writes nDim nParity dagger asymmetric_ kernel_type arg idx par = true.
Proof.
  unfold finalizes, writes. intros H. apply andb_true_iff in H as [_ ->].
  apply orb_true_r.
Qed.

(** C5.  [twistedMass] resolves the coordinate and then calls
    [applyWilsonTM] when the variant is adjoint and not asymmetric, and
    [applyWilson] in the three other combinations.  Either routine is
    called with the same arguments (the fresh accumulator, the bundle, the
    coordinate, the indices and the [active] flag), and the accumulator and
    the flag it returns go through the same partial merge, finalize and
    store. *)
Theorem hopping_dispatch nDim nParity dagger asymmetric_ xpay kernel_type arg idx par :
  let update :=
    fun routine : Z -> Z -> bool -> KernelType -> Vector -> TwistedMassArg -> Coord ->
                  Z -> Z -> Z -> Z -> bool -> Vector * bool =>
      let '(x_cb, coord, thread_dim) := getCoords nDim kernel_type arg idx par in
      let '(acc, active) :=
        routine nDim nParity dagger kernel_type vzero arg coord x_cb par idx thread_dim
                (if is_all kernel_type then false else true) in
      let sp := my_spinor_parity nParity par in
      if negb (is_all kernel_type) || active
      then write_out arg x_cb sp
             (finalize dagger asymmetric_ xpay kernel_type arg coord x_cb sp active
                (partial_merge kernel_type arg x_cb sp active acc))
      else arg in
  (dagger = true -> asymmetric_ = false ->
   twistedMass nDim nParity dagger asymmetric_ xpay kernel_type arg idx par =
   update applyWilsonTM) /\
  (dagger = false \/ asymmetric_ = true ->
   twistedMass nDim nParity dagger asymmetric_ xpay kernel_type arg idx par =
   update applyWilson).
Proof.
  intros update. subst update. cbv beta.
  unfold twistedMass, resolve_and_gather, hopping_routine, run_hopping.
  destruct (getCoords nDim kernel_type arg idx par) as [[x_cb coord] thread_dim].
  split.
  - intros -> ->. cbn [andb negb].
    destruct (applyWilsonTM _ _ _ _ _ _ _ _ _ _ _ _) as [acc active]. reflexivity.
  - intros [-> | ->]; [|destruct dagger]; cbn [andb negb];
      destruct (applyWilson _ _ _ _ _ _ _ _ _ _ _ _) as [acc active]; reflexivity.
Qed.

(** C2.  The value [twistedMass] stores at its site: when the site is
    complete for the pass and the thread is active, the accumulator is
    rotated, [a * (v + i*b*gamma4(v))], exactly in the variants with
    [!dagger || asymmetric], and then, when [xpay] is set, the value of the
    pass-through field at the site is added; when the site is not complete
    or the thread is not active, neither happens. *)
Theorem finalize_rotation_and_xpay nDim nParity dagger asymmetric_ xpay kernel_type arg idx par :
  let site := site_of nDim nParity dagger asymmetric_ kernel_type arg idx par in
  let acc := merged nDim nParity dagger asymmetric_ kernel_type arg idx par in
  let stored :=
    out (twistedMass nDim nParity dagger asymmetric_ xpay kernel_type arg idx par)
        (fst site) (snd site) in
  let rotated :=
    rscale (a arg) (vadd acc (cscale (mk_complex (real_of_double d0) (b arg)) (gamma 4 acc))) in
  (finalizes nDim nParity dagger asymmetric_ kernel_type arg idx par = true ->
   negb dagger || asymmetric_ = true ->
   stored = if xpay then vadd rotated (x arg (fst site) (snd site))
            else rotated) /\
  (finalizes nDim nParity dagger asymmetric_ kernel_type arg idx par = true ->
   negb dagger || asymmetric_ = false ->
   stored = if xpay then vadd acc (x arg (fst site) (snd site)) else acc) /\
  (finalizes nDim nParity dagger asymmetric_ kernel_type arg idx par = false ->
   writes nDim nParity dagger asymmetric_ kernel_type arg idx par = true ->
   stored = acc).
Proof.
  intros site acc stored rotated. subst stored rotated. rewrite twistedMass_unfold.
  fold site. fold acc. unfold finalize, twist.
  split; [|split].
  - intros Hfin Hrot. rewrite (finalizes_writes _ _ _ _ _ _ _ _ Hfin).
    rewrite out_write_out_same. unfold finalizes in Hfin. rewrite Hfin, Hrot. reflexivity.
  - intros Hfin Hrot. rewrite (finalizes_writes _ _ _ _ _ _ _ _ Hfin).
    rewrite out_write_out_same. unfold finalizes in Hfin. rewrite Hfin, Hrot. reflexivity.
  - intros Hfin Hw. rewrite Hw, out_write_out_same.
    unfold finalizes in Hfin. rewrite Hfin. reflexivity.
Qed.


(** *** What a pass leaves untouched *)

Lemma frame_refl arg : frame arg arg.
Proof. unfold frame. symmetry. apply set_out_id. Qed.

Lemma frame_trans arg1 arg2 arg3 : frame arg1 arg2 -> frame arg2 arg3 -> frame arg1 arg3.
Proof. unfold frame. intros H12 H23. rewrite H23 at 1. rewrite H12. reflexivity. Qed.

Lemma frame_twistedMass nDim nParity dagger asymmetric_ xpay kernel_type arg idx par :
  frame arg (twistedMass nDim nParity dagger asymmetric_ xpay kernel_type arg idx par).
Proof. apply twistedMass_frame. Qed.

Lemma frame_threads arg arg' : frame arg arg' -> threads arg' = threads arg.
Proof. intros ->. reflexivity. Qed.

Lemma frame_parity arg arg' : frame arg arg' -> parity arg' = parity arg.
Proof. intros ->. reflexivity. Qed.

Lemma frame_scalars arg arg' :
  frame arg arg' ->
  a arg' = a arg /\ b arg' = b arg /\ asymmetric arg' = asymmetric arg /\
  twist_a arg' = twist_a arg /\ twist_b arg' = twist_b arg.
Proof. intros ->. repeat split. Qed.

Lemma frame_site_loop nDim nParity dagger asymmetric_ xpay kernel_type fuel :
  forall x_cb par arg,
    frame arg (site_loop nDim nParity dagger asymmetric_ xpay kernel_type fuel x_cb par arg).
Proof.
  induction fuel as [|fuel IH]; intros x_cb par arg; simpl.
  - apply frame_refl.
  - destruct (x_cb <? threads arg); [|apply frame_refl].
    eapply frame_trans; [apply frame_twistedMass | apply IH].
Qed.

Lemma frame_parity_loop nDim nParity dagger asymmetric_ xpay kernel_type fuel :
  forall par arg arg',
    parity_loop nDim nParity dagger asymmetric_ xpay kernel_type fuel par arg = Some arg' ->
    frame arg arg'.
Proof.
  induction fuel as [|fuel IH]; intros par arg arg' Hrun; simpl in Hrun; [discriminate|].
  destruct (par <? nParity).
  - eapply frame_trans; [|apply (IH _ _ _ Hrun)]. apply frame_site_loop.
  - inversion Hrun; subst. apply frame_refl.
Qed.

Lemma frame_twistedMassGPU nDim nParity dagger asymmetric_ xpay kernel_type bd bi ti arg :
  frame arg (twistedMassGPU nDim nParity dagger asymmetric_ xpay kernel_type bd bi ti arg).
Proof.
  unfold twistedMassGPU.
  destruct (_ >=? threads arg); [apply frame_refl|].
  destruct (if nParity =? 2 then _ else _) as [|[p|p|]|p];
    try apply frame_refl; apply frame_twistedMass.
Qed.

Lemma frame_launch nDim nParity dagger asymmetric_ xpay kernel_type bd sched :
  forall arg, frame arg (launch nDim nParity dagger asymmetric_ xpay kernel_type bd sched arg).
Proof.
  induction sched as [|t sched IH]; intros arg; simpl.
  - apply frame_refl.
  - eapply frame_trans; [apply frame_twistedMassGPU | apply IH].
Qed.

(** *** The kernels read the output field at their own site only *)

Section Dispatch.

Hypothesis Hro : reads_no_output.

Lemma forward_gather_ro nParity dagger kernel_type arg o coord x_cb par idx thread_dim d st :
  forward_gather nParity dagger kernel_type (set_out arg o) coord x_cb par idx thread_dim d st =
  forward_gather nParity dagger kernel_type arg coord x_cb par idx thread_dim d st.
Proof.
  destruct Hro as (_ & Hact & _ & _).
  unfold forward_gather, forward_ghost, ghost_test. destruct st as [acc active].
  cbn [nFace dim dslash wilson set_out].
  rewrite Hact. reflexivity.
Qed.

Lemma backward_gather_ro nParity dagger kernel_type arg o coord x_cb par idx thread_dim d st :
  backward_gather nParity dagger kernel_type (set_out arg o) coord x_cb par idx thread_dim d st =
  backward_gather nParity dagger kernel_type arg coord x_cb par idx thread_dim d st.
Proof.
  destruct Hro as (_ & Hact & _ & _).
  unfold backward_gather, backward_ghost, ghost_test. destruct st as [acc active].
  cbn [nFace dim dslash wilson set_out].
  rewrite Hact. reflexivity.
Qed.

(** [applyWilsonTM] does not read the output field. *)
Lemma applyWilsonTM_ro nDim nParity dagger kernel_type acc arg o coord x_cb par idx thread_dim active :
  applyWilsonTM nDim nParity dagger kernel_type acc (set_out arg o) coord
                x_cb par idx thread_dim active =
  applyWilsonTM nDim nParity dagger kernel_type acc arg coord
                x_cb par idx thread_dim active.
Proof.
  unfold applyWilsonTM. generalize (acc, active) as st.
  induction (seqZ 0 nDim) as [|d ds IH]; intros st; simpl; [reflexivity|].
  unfold dim_step at 2 4. rewrite forward_gather_ro, backward_gather_ro. apply IH.
Qed.

Lemma resolve_and_gather_ro nDim nParity dagger asymmetric_ kernel_type arg o idx par :
  resolve_and_gather nDim nParity dagger asymmetric_ kernel_type (set_out arg o) idx par =
  resolve_and_gather nDim nParity dagger asymmetric_ kernel_type arg idx par.
Proof.
  pose proof Hro as (Hco & _ & _ & Hw).
  unfold resolve_and_gather. rewrite Hco.
  destruct (getCoords nDim kernel_type arg idx par) as [[x_cb coord] thread_dim].
  unfold run_hopping. destruct (hopping_routine dagger asymmetric_).
  - rewrite applyWilsonTM_ro. reflexivity.
  - rewrite Hw. reflexivity.
Qed.

Lemma site_of_ro nDim nParity dagger asymmetric_ kernel_type arg o idx par :
  site_of nDim nParity dagger asymmetric_ kernel_type (set_out arg o) idx par =
  site_of nDim nParity dagger asymmetric_ kernel_type arg idx par.
Proof. unfold site_of. rewrite resolve_and_gather_ro. reflexivity. Qed.

Lemma writes_ro nDim nParity dagger asymmetric_ kernel_type arg o idx par :
  writes nDim nParity dagger asymmetric_ kernel_type (set_out arg o) idx par =
  writes nDim nParity dagger asymmetric_ kernel_type arg idx par.
Proof. unfold writes, active_after. rewrite resolve_and_gather_ro. reflexivity. Qed.

Lemma finalize_ro dagger asymmetric_ xpay kernel_type arg o coord x_cb sp active acc :
  finalize dagger asymmetric_ xpay kernel_type (set_out arg o) coord x_cb sp active acc =
  finalize dagger asymmetric_ xpay kernel_type arg coord x_cb sp active acc.
Proof.
  destruct Hro as (_ & _ & Hcomp & _). unfold finalize. rewrite Hcomp. reflexivity.
Qed.

(** The output field after one call, site by site: the call's own site
    holds [stored_value] of what was there, every other site is as
    before. *)
Lemma twistedMass_out nDim nParity dagger asymmetric_ xpay kernel_type arg o idx par i q :
  out (twistedMass nDim nParity dagger asymmetric_ xpay kernel_type (set_out arg o) idx par) i q =
  if writes nDim nParity dagger asymmetric_ kernel_type arg idx par
     && bool_decide (site_of nDim nParity dagger asymmetric_ kernel_type arg idx par = (i, q))
  then stored_value nDim nParity dagger asymmetric_ xpay kernel_type arg idx par (o i q)
  else o i q.
Proof.
  rewrite twistedMass_unfold. rewrite writes_ro, site_of_ro.
  unfold writes, site_of, coord_of, active_after, merged, stored_value.
  rewrite resolve_and_gather_ro.
  destruct (resolve_and_gather nDim nParity dagger asymmetric_ kernel_type arg idx par)
    as [[[x_cb coord] out1] active].
  cbn [fst snd].
  destruct (negb (is_all kernel_type) || active); [|reflexivity].
  rewrite out_write_out. cbn [andb].
  destruct (Z.eqb_spec i x_cb) as [->|Hi]; destruct (Z.eqb_spec q (my_spinor_parity nParity par)) as [->|Hq];
    cbn [andb].
  - rewrite bool_decide_eq_true_2 by reflexivity.
    rewrite finalize_ro. unfold partial_merge. reflexivity.
  - rewrite bool_decide_eq_false_2 by congruence. reflexivity.
  - rewrite bool_decide_eq_false_2 by congruence. reflexivity.
  - rewrite bool_decide_eq_false_2 by congruence. reflexivity.
Qed.


Lemma twistedMass_out_target nDim nParity dagger asymmetric_ xpay kernel_type arg o it i q :
  targets nDim nParity dagger asymmetric_ kernel_type arg it i q ->
  out (twistedMass nDim nParity dagger asymmetric_ xpay kernel_type (set_out arg o)
         (fst it) (snd it)) i q =
  stored_value nDim nParity dagger asymmetric_ xpay kernel_type arg (fst it) (snd it) (o i q).
Proof.
  intros [Hw Hs]. rewrite twistedMass_out, Hw.
  rewrite bool_decide_eq_true_2 by exact Hs. reflexivity.
Qed.

Lemma twistedMass_out_other nDim nParity dagger asymmetric_ xpay kernel_type arg o it i q :
  ~ targets nDim nParity dagger asymmetric_ kernel_type arg it i q ->
  out (twistedMass nDim nParity dagger asymmetric_ xpay kernel_type (set_out arg o)
         (fst it) (snd it)) i q = o i q.
Proof.
  intros Hnt. rewrite twistedMass_out.
  destruct (writes nDim nParity dagger asymmetric_ kernel_type arg (fst it) (snd it)) eqn:Hw;
    [|reflexivity].
  cbn [andb]. rewrite bool_decide_eq_false_2; [reflexivity|].
  intros Hs. apply Hnt. split; assumption.
Qed.

Lemma run_items_step nDim nParity dagger asymmetric_ xpay kernel_type arg o it items :
  run_items nDim nParity dagger asymmetric_ xpay kernel_type (it :: items) (set_out arg o) =
  run_items nDim nParity dagger asymmetric_ xpay kernel_type items
    (set_out arg
       (out (twistedMass nDim nParity dagger asymmetric_ xpay kernel_type
               (set_out arg o) (fst it) (snd it)))).
Proof.
  unfold run_items. cbn [fold_left].
  rewrite (twistedMass_frame _ _ _ _ _ _ (set_out arg o)) at 1.
  reflexivity.
Qed.

(** The output field after a list of calls whose stores do not collide:
    a site some call of the list stores into holds [stored_value] of
    that call, every other site is as before. *)
Lemma run_items_out nDim nParity dagger asymmetric_ xpay kernel_type arg items :
  NoDup items ->
  (forall it it' i q,
     it ∈ items -> it' ∈ items ->
     targets nDim nParity dagger asymmetric_ kernel_type arg it i q ->
     targets nDim nParity dagger asymmetric_ kernel_type arg it' i q ->
     it = it') ->
  forall o i q,
    (forall it, it ∈ items ->
       targets nDim nParity dagger asymmetric_ kernel_type arg it i q ->
       out (run_items nDim nParity dagger asymmetric_ xpay kernel_type items (set_out arg o)) i q =
       stored_value nDim nParity dagger asymmetric_ xpay kernel_type arg (fst it) (snd it) (o i q)) /\
    ((forall it, it ∈ items ->
        ~ targets nDim nParity dagger asymmetric_ kernel_type arg it i q) ->
     out (run_items nDim nParity dagger asymmetric_ xpay kernel_type items (set_out arg o)) i q =
     o i q).
Proof.
  induction items as [|it0 items IH]; intros Hnd Hinj o i q.
  - split.
    + intros it Hin. apply elem_of_nil in Hin. contradiction.
    + intros _. reflexivity.
  - apply NoDup_cons in Hnd as [Hnotin Hnd].
    assert (Hinj' : forall it it' i q,
               it ∈ items -> it' ∈ items ->
               targets nDim nParity dagger asymmetric_ kernel_type arg it i q ->
               targets nDim nParity dagger asymmetric_ kernel_type arg it' i q ->
               it = it').
    { intros it it' i' q' Hin Hin'. apply Hinj; apply elem_of_cons; right; assumption. }
    rewrite run_items_step.
    set (o' := out (twistedMass nDim nParity dagger asymmetric_ xpay kernel_type
                      (set_out arg o) (fst it0) (snd it0))).
    destruct (IH Hnd Hinj' o' i q) as [IHhit IHmiss].
    split.
    + intros it Hin Ht. apply elem_of_cons in Hin as [->|Hin].
      * rewrite IHmiss.
        -- unfold o'. apply twistedMass_out_target, Ht.
        -- intros it' Hin' Ht'. apply Hnotin.
           rewrite (Hinj it0 it' i q); auto; apply elem_of_cons; auto.
      * rewrite (IHhit it Hin Ht). f_equal.
        unfold o'. apply twistedMass_out_other.
        intros Ht0. apply Hnotin.
        rewrite (Hinj it0 it i q); auto; apply elem_of_cons; auto.
    + intros Hmiss. rewrite IHmiss.
      * unfold o'. apply twistedMass_out_other, Hmiss, elem_of_cons. auto.
      * intros it Hin. apply Hmiss, elem_of_cons. auto.
Qed.

(** The order of the calls does not matter. *)
Lemma run_items_order nDim nParity dagger asymmetric_ xpay kernel_type arg items1 items2 :
  NoDup items1 -> NoDup items2 ->
  (forall it, it ∈ items1 <-> it ∈ items2) ->
  (forall it it' i q,
     it ∈ items1 -> it' ∈ items1 ->
     targets nDim nParity dagger asymmetric_ kernel_type arg it i q ->
     targets nDim nParity dagger asymmetric_ kernel_type arg it' i q ->
     it = it') ->
  forall o i q,
    out (run_items nDim nParity dagger asymmetric_ xpay kernel_type items1 (set_out arg o)) i q =
    out (run_items nDim nParity dagger asymmetric_ xpay kernel_type items2 (set_out arg o)) i q.
Proof.
  intros Hnd1 Hnd2 Hsame Hinj1 o i q.
  assert (Hinj2 : forall it it' i q,
             it ∈ items2 -> it' ∈ items2 ->
             targets nDim nParity dagger asymmetric_ kernel_type arg it i q ->
             targets nDim nParity dagger asymmetric_ kernel_type arg it' i q ->
             it = it').
  { intros it it' i' q' Hin Hin'. apply Hinj1; apply Hsame; assumption. }
  destruct (run_items_out nDim nParity dagger asymmetric_ xpay kernel_type arg items1
              Hnd1 Hinj1 o i q) as [Hhit1 Hmiss1].
  destruct (run_items_out nDim nParity dagger asymmetric_ xpay kernel_type arg items2
              Hnd2 Hinj2 o i q) as [Hhit2 Hmiss2].
  destruct (decide (Exists (fun it => targets nDim nParity dagger asymmetric_ kernel_type
                                        arg it i q) items1)) as [Hex|Hnex].
  - apply Exists_exists in Hex as (it & Hin & Ht).
    rewrite (Hhit1 it Hin Ht). symmetry. apply Hhit2; [apply Hsame, Hin | exact Ht].
  - assert (Hnone : forall it, it ∈ items1 ->
                      ~ targets nDim nParity dagger asymmetric_ kernel_type arg it i q).
    { intros it Hin Ht. apply Hnex, Exists_exists. eauto. }
    rewrite Hmiss1 by exact Hnone. symmetry. apply Hmiss2.
    intros it Hin. apply Hnone, Hsame, Hin.
Qed.


(** *** The sequential wrapper as a list of calls *)

Lemma run_items_app nDim nParity dagger asymmetric_ xpay kernel_type items1 items2 arg :
  run_items nDim nParity dagger asymmetric_ xpay kernel_type (items1 ++ items2) arg =
  run_items nDim nParity dagger asymmetric_ xpay kernel_type items2
    (run_items nDim nParity dagger asymmetric_ xpay kernel_type items1 arg).
Proof. unfold run_items. apply fold_left_app. Qed.

Lemma frame_run_items nDim nParity dagger asymmetric_ xpay kernel_type items :
  forall arg, frame arg (run_items nDim nParity dagger asymmetric_ xpay kernel_type items arg).
Proof.
  induction items as [|it items IH]; intros arg; simpl.
  - apply frame_refl.
  - eapply frame_trans; [apply frame_twistedMass | apply IH].
Qed.

Lemma site_loop_run nDim nParity dagger asymmetric_ xpay kernel_type par fuel :
  forall x_cb arg,
    (Z.to_nat (threads arg - x_cb) <= fuel)%nat ->
    site_loop nDim nParity dagger asymmetric_ xpay kernel_type fuel x_cb par arg =
    run_items nDim nParity dagger asymmetric_ xpay kernel_type
      ((fun i => (i, par)) <$> seqZ x_cb (threads arg - x_cb)) arg.
Proof.
  induction fuel as [|fuel IH]; intros x_cb arg Hfuel; simpl.
  - rewrite seqZ_nil by lia. reflexivity.
  - destruct (Z.ltb_spec x_cb (threads arg)) as [Hlt|Hge].
    + rewrite (seqZ_cons x_cb) by lia. cbn [fmap list_fmap run_items fold_left fst snd].
      set (arg' := twistedMass nDim nParity dagger asymmetric_ xpay kernel_type arg x_cb par).
      assert (Hth : threads arg' = threads arg)
        by (apply frame_threads, frame_twistedMass).
      rewrite IH by (rewrite Hth; lia).
      rewrite Hth. unfold run_items. do 3 f_equal; lia.
    + rewrite seqZ_nil by lia. reflexivity.
Qed.

Lemma all_sites_run nDim nParity dagger asymmetric_ xpay kernel_type par arg :
  all_sites nDim nParity dagger asymmetric_ xpay kernel_type par arg =
  run_items nDim nParity dagger asymmetric_ xpay kernel_type
    ((fun i => (i, par)) <$> seqZ 0 (threads arg)) arg.
Proof.
  unfold all_sites. rewrite site_loop_run by lia. rewrite Z.sub_0_r. reflexivity.
Qed.

(** The sequential wrapper returns, and it is the list of calls of
    section 4.3: one per (index, parity), parity by parity, indices
    ascending. *)
Lemma twistedMassCPU_run nDim nParity dagger asymmetric_ xpay kernel_type fuel arg :
  valid_parity nParity arg = true ->
  (3 <= fuel)%nat ->
  twistedMassCPU nDim nParity dagger asymmetric_ xpay kernel_type fuel arg =
  Some (run_items nDim nParity dagger asymmetric_ xpay kernel_type (cpu_items nParity arg) arg).
Proof.
  intros Hvalid Hfuel.
  destruct fuel as [|[|[|fuel]]]; try lia.
  unfold twistedMassCPU, cpu_items, valid_parity in *.
  destruct (Z.eqb_spec nParity 2) as [->|Hn2].
  - cbn [parity_loop]. change (0 <? 2) with true. cbn match.
    change (2 =? 2) with true. cbn match. change (0 + 1 <? 2) with true. cbn match.
    change (0 + 1) with 1. change (1 + 1 <? 2) with false. cbn match.
    rewrite run_items_app. rewrite !all_sites_run.
    rewrite (frame_threads arg (run_items _ _ _ _ _ _ _ arg)) by apply frame_run_items.
    reflexivity.
  - simpl in Hvalid. apply andb_true_iff in Hvalid as [Hn1 Hpar].
    apply Z.eqb_eq in Hn1. subst nParity.
    cbn [parity_loop]. change (0 <? 1) with true. cbn match.
    change (1 =? 2) with false. cbn match.
    rewrite (frame_parity arg (all_sites _ _ _ _ _ _ _ arg))
      by (unfold all_sites; apply frame_site_loop).
    assert (Hcond : (parity arg + 1 <? 1) = false).
    { apply orb_true_iff in Hpar as [H0|H0]; apply Z.eqb_eq in H0;
        apply Z.ltb_ge; lia. }
    rewrite Hcond. rewrite all_sites_run. reflexivity.
Qed.

(** *** The parallel wrapper as a list of calls *)

Lemma twistedMassGPU_item nDim nParity dagger asymmetric_ xpay kernel_type bd t arg :
  twistedMassGPU nDim nParity dagger asymmetric_ xpay kernel_type bd
                 (blockIdx t) (threadIdx t) arg =
  match item_of_thread nParity bd arg t with
  | Some it => twistedMass nDim nParity dagger asymmetric_ xpay kernel_type arg (fst it) (snd it)
  | None => arg
  end.
Proof.
  unfold twistedMassGPU, item_of_thread.
  destruct (_ >=? threads arg); [reflexivity|].
  destruct (if nParity =? 2 then _ else _) as [|[p|p|]|p]; reflexivity.
Qed.

Lemma launch_run nDim nParity dagger asymmetric_ xpay kernel_type bd arg sched :
  forall o,
    launch nDim nParity dagger asymmetric_ xpay kernel_type bd sched (set_out arg o) =
    run_items nDim nParity dagger asymmetric_ xpay kernel_type
      (omap (item_of_thread nParity bd arg) sched) (set_out arg o).
Proof.
  induction sched as [|t sched IH]; intros o; [reflexivity|].
  unfold launch. cbn [fold_left]. fold (launch nDim nParity dagger asymmetric_ xpay kernel_type bd sched).
  rewrite twistedMassGPU_item.
  change (item_of_thread nParity bd (set_out arg o) t)
    with (item_of_thread nParity bd arg t).
  cbn [omap list_omap].
  destruct (item_of_thread nParity bd arg t) as [it|].
  - rewrite run_items_step.
    rewrite (twistedMass_frame _ _ _ _ _ _ (set_out arg o)). rewrite set_out_set_out.
    rewrite out_set_out. apply IH.
  - apply IH.
Qed.


(** *** The threads of a launch *)

Lemma elem_of_range3 (extent w : dim3) :
  w ∈ range3 extent <->
  0 <= dim3_x w < dim3_x extent /\
  0 <= dim3_y w < dim3_y extent /\
  0 <= dim3_z w < dim3_z extent.
Proof.
  unfold range3. split.
  - intros Hin.
    apply list_elem_of_bind in Hin as (i & Hin & Hi).
    apply list_elem_of_bind in Hin as (j & Hin & Hj).
    apply list_elem_of_bind in Hin as (k & Hin & Hk).
    apply list_elem_of_ret in Hin. subst w. cbn.
    apply elem_of_seqZ in Hi, Hj, Hk. lia.
  - intros (Hx & Hy & Hz). destruct w as [i j k]. cbn in *.
    apply list_elem_of_bind. exists i. split; [|apply elem_of_seqZ; lia].
    apply list_elem_of_bind. exists j. split; [|apply elem_of_seqZ; lia].
    apply list_elem_of_bind. exists k. split; [|apply elem_of_seqZ; lia].
    apply list_elem_of_ret. reflexivity.
Qed.

Lemma NoDup_range3 (extent : dim3) : NoDup (range3 extent).
Proof.
  unfold range3.
  apply NoDup_bind; [| |apply NoDup_seqZ].
  { intros i1 i2 w _ _ H1 H2.
    apply list_elem_of_bind in H1 as (j1 & H1 & _).
    apply list_elem_of_bind in H1 as (k1 & H1 & _).
    apply list_elem_of_ret in H1.
    apply list_elem_of_bind in H2 as (j2 & H2 & _).
    apply list_elem_of_bind in H2 as (k2 & H2 & _).
    apply list_elem_of_ret in H2. congruence. }
  intros i _. apply NoDup_bind; [| |apply NoDup_seqZ].
  { intros j1 j2 w _ _ H1 H2.
    apply list_elem_of_bind in H1 as (k1 & H1 & _).
    apply list_elem_of_ret in H1.
    apply list_elem_of_bind in H2 as (k2 & H2 & _).
    apply list_elem_of_ret in H2. congruence. }
  intros j _. apply NoDup_bind; [| |apply NoDup_seqZ].
  { intros k1 k2 w _ _ H1 H2.
    apply list_elem_of_ret in H1. apply list_elem_of_ret in H2. congruence. }
  intros k _. apply NoDup_singleton.
Qed.

Lemma elem_of_grid_threads (gd bd : dim3) (t : Thread) :
  t ∈ grid_threads gd bd <-> blockIdx t ∈ range3 gd /\ threadIdx t ∈ range3 bd.
Proof.
  unfold grid_threads. split.
  - intros Hin.
    apply list_elem_of_bind in Hin as (bi & Hin & Hbi).
    apply list_elem_of_bind in Hin as (ti & Hin & Hti).
    apply list_elem_of_ret in Hin. subst t. cbn. auto.
  - intros [Hbi Hti]. destruct t as [bi ti]. cbn in *.
    apply list_elem_of_bind. exists bi. split; [|exact Hbi].
    apply list_elem_of_bind. exists ti. split; [|exact Hti].
    apply list_elem_of_ret. reflexivity.
Qed.

Lemma NoDup_grid_threads (gd bd : dim3) : NoDup (grid_threads gd bd).
Proof.
  unfold grid_threads.
  apply NoDup_bind; [| |apply NoDup_range3].
  { intros b1 b2 t _ _ H1 H2.
    apply list_elem_of_bind in H1 as (t1 & H1 & _). apply list_elem_of_ret in H1.
    apply list_elem_of_bind in H2 as (t2 & H2 & _). apply list_elem_of_ret in H2.
    congruence. }
  intros bi _. apply NoDup_bind; [| |apply NoDup_range3].
  { intros t1 t2 t _ _ H1 H2.
    apply list_elem_of_ret in H1. apply list_elem_of_ret in H2. congruence. }
  intros ti _. apply NoDup_singleton.
Qed.

Lemma NoDup_omap_inj {A B} (f : A -> option B) (l : list A) :
  NoDup l ->
  (forall x1 x2 y, x1 ∈ l -> x2 ∈ l -> f x1 = Some y -> f x2 = Some y -> x1 = x2) ->
  NoDup (omap f l).
Proof.
  induction 1 as [|x l Hnotin Hnd IH]; intros Hinj; [constructor|].
  cbn [omap list_omap].
  assert (Hrest : NoDup (omap f l)).
  { apply IH. intros x1 x2 y H1 H2. apply Hinj; apply elem_of_cons; auto. }
  destruct (f x) as [y|] eqn:Hfx; [|exact Hrest].
  apply NoDup_cons. split; [|exact Hrest].
  intros Hin. apply list_elem_of_omap in Hin as (x' & Hin' & Hfx').
  apply Hnotin. rewrite (Hinj x x' y); auto; apply elem_of_cons; auto.
Qed.

Lemma wrap_small (n : Z) : 0 <= n < 2 ^ 31 -> to_int32 (uint32 n) = n.
Proof.
  intros Hn. unfold to_int32, uint32.
  change (2 ^ 31) with 2147483648 in *. change (2 ^ 32) with 4294967296.
  rewrite (Z.mod_small n) by lia. rewrite Z.mod_small by lia. lia.
Qed.

Lemma flat_index_unique (n b1 t1 b2 t2 : Z) :
  0 <= t1 < n -> 0 <= t2 < n -> b1 * n + t1 = b2 * n + t2 -> b1 = b2 /\ t1 = t2.
Proof. intros H1 H2 Heq. assert (b1 = b2) by nia. subst. lia. Qed.


Lemma launch_covers_facts nParity gd bd arg :
  launch_covers nParity gd bd arg = true ->
  0 < dim3_x gd /\ 0 < dim3_x bd /\
  threads arg <= dim3_x gd * dim3_x bd /\ dim3_x gd * dim3_x bd < 2 ^ 31 /\
  dim3_y gd = 1 /\ dim3_y bd = 1 /\
  0 < dim3_z gd /\ 0 < dim3_z bd /\
  dim3_z gd * dim3_z bd = (if nParity =? 2 then 2 else 1).
Proof.
  unfold launch_covers. rewrite !andb_true_iff.
  rewrite !Z.ltb_lt, !Z.leb_le, !Z.eqb_eq. tauto.
Qed.

(** In a covering launch the index arithmetic of a thread does not wrap. *)
Lemma item_of_thread_grid nParity gd bd arg t :
  launch_covers nParity gd bd arg = true ->
  t ∈ grid_threads gd bd ->
  item_of_thread nParity bd arg t =
  let xv := dim3_x (blockIdx t) * dim3_x bd + dim3_x (threadIdx t) in
  let pv := if nParity =? 2
            then dim3_z bd * dim3_z (blockIdx t) + dim3_z (threadIdx t)
            else parity arg in
  if xv >=? threads arg then None
  else if pv =? 0 then Some (xv, 0)
  else if pv =? 1 then Some (xv, 1)
  else None.
Proof.
  intros Hcov Hin.
  apply launch_covers_facts in Hcov as (Hgx & Hbx & Hth & Hfit & Hgy & Hby & Hgz & Hbz & Hz).
  apply elem_of_grid_threads in Hin as [Hbi Hti].
  apply elem_of_range3 in Hbi as (Hbix & Hbiy & Hbiz).
  apply elem_of_range3 in Hti as (Htix & Htiy & Htiz).
  unfold item_of_thread. cbv zeta.
  rewrite wrap_small by nia.
  destruct (nParity =? 2); [|reflexivity].
  rewrite wrap_small; [reflexivity|].
  change (2 ^ 31) with 2147483648. nia.
Qed.

Lemma item_of_thread_inj nParity gd bd arg t1 t2 it :
  launch_covers nParity gd bd arg = true ->
  t1 ∈ grid_threads gd bd -> t2 ∈ grid_threads gd bd ->
  item_of_thread nParity bd arg t1 = Some it ->
  item_of_thread nParity bd arg t2 = Some it ->
  t1 = t2.
Proof.
  intros Hcov Hin1 Hin2.
  rewrite (item_of_thread_grid nParity gd bd arg t1 Hcov Hin1).
  rewrite (item_of_thread_grid nParity gd bd arg t2 Hcov Hin2).
  apply launch_covers_facts in Hcov as (Hgx & Hbx & Hth & Hfit & Hgy & Hby & Hgz & Hbz & Hz).
  apply elem_of_grid_threads in Hin1 as [Hbi1 Hti1].
  apply elem_of_range3 in Hbi1 as (Hbix1 & Hbiy1 & Hbiz1).
  apply elem_of_range3 in Hti1 as (Htix1 & Htiy1 & Htiz1).
  apply elem_of_grid_threads in Hin2 as [Hbi2 Hti2].
  apply elem_of_range3 in Hbi2 as (Hbix2 & Hbiy2 & Hbiz2).
  apply elem_of_range3 in Hti2 as (Htix2 & Htiy2 & Htiz2).
  destruct t1 as [[bx1 by1 bz1] [tx1 ty1 tz1]].
  destruct t2 as [[bx2 by2 bz2] [tx2 ty2 tz2]].
  cbn [blockIdx threadIdx dim3_x dim3_y dim3_z] in *. cbv zeta.
  intros H1 H2.
  assert (Hx : bx1 * dim3_x bd + tx1 = bx2 * dim3_x bd + tx2 /\
               ((nParity =? 2) = true ->
                dim3_z bd * bz1 + tz1 = dim3_z bd * bz2 + tz2)).
  { destruct (_ >=? threads arg) in H1; [discriminate|].
    destruct (_ >=? threads arg) in H2; [discriminate|].
    destruct (nParity =? 2).
    - destruct (Z.eqb_spec (dim3_z bd * bz1 + tz1) 0) as [E1|N1];
        [|destruct (Z.eqb_spec (dim3_z bd * bz1 + tz1) 1) as [E1|N1']; [|discriminate]];
      (destruct (Z.eqb_spec (dim3_z bd * bz2 + tz2) 0) as [E2|N2];
        [|destruct (Z.eqb_spec (dim3_z bd * bz2 + tz2) 1) as [E2|N2']; [|discriminate]]);
      inversion H1; subst it; inversion H2; split; try lia; intros _; lia.
    - split; [|discriminate].
      destruct (parity arg =? 0); [|destruct (parity arg =? 1); [|discriminate]];
        inversion H1; subst it; inversion H2; lia. }
  destruct Hx as [Hx Hzeq].
  destruct (flat_index_unique (dim3_x bd) bx1 tx1 bx2 tx2) as [-> ->]; [lia|lia|exact Hx|].
  assert (by1 = 0 /\ by2 = 0 /\ ty1 = 0 /\ ty2 = 0) as (-> & -> & -> & ->) by lia.
  assert (bz1 = bz2 /\ tz1 = tz2) as [-> ->]; [|reflexivity].
  destruct (nParity =? 2).
  - apply (flat_index_unique (dim3_z bd)); [lia|lia|].
    specialize (Hzeq eq_refl). lia.
  - assert (dim3_z gd = 1 /\ dim3_z bd = 1) by nia. lia.
Qed.


Lemma elem_of_cpu_items nParity arg (i p : Z) :
  (i, p) ∈ cpu_items nParity arg <->
  0 <= i < threads arg /\ (if nParity =? 2 then p = 0 \/ p = 1 else p = parity arg).
Proof.
  unfold cpu_items. destruct (nParity =? 2).
  - rewrite elem_of_app, !list_elem_of_fmap. setoid_rewrite elem_of_seqZ. split.
    + intros [(j & Heq & Hj)|(j & Heq & Hj)]; inversion Heq; subst; lia.
    + intros [Hi [-> | ->]]; [left|right]; exists i; split; auto; lia.
  - rewrite list_elem_of_fmap. setoid_rewrite elem_of_seqZ. split.
    + intros (j & Heq & Hj). inversion Heq; subst. lia.
    + intros [Hi ->]. exists i. split; auto; lia.
Qed.

Lemma NoDup_cpu_items nParity arg : NoDup (cpu_items nParity arg).
Proof.
  unfold cpu_items. destruct (nParity =? 2).
  - apply NoDup_app. split; [|split].
    + apply NoDup_fmap_2; [intros i j Heq; congruence | apply NoDup_seqZ].
    + intros it Hin Hin'.
      apply list_elem_of_fmap in Hin as (j & -> & _).
      apply list_elem_of_fmap in Hin' as (j' & Heq & _). congruence.
    + apply NoDup_fmap_2; [intros i j Heq; congruence | apply NoDup_seqZ].
  - apply NoDup_fmap_2; [intros i j Heq; congruence | apply NoDup_seqZ].
Qed.

(** In a covering launch the threads work on the pairs of the sequential
    wrapper: every pair has its thread, and no thread has another pair. *)
Lemma gpu_items_cover nParity gd bd arg sched :
  valid_parity nParity arg = true ->
  launch_covers nParity gd bd arg = true ->
  sched ≡ₚ grid_threads gd bd ->
  forall it, it ∈ omap (item_of_thread nParity bd arg) sched <-> it ∈ cpu_items nParity arg.
Proof.
  intros Hvalid Hcov Hperm [i p].
  rewrite list_elem_of_omap, elem_of_cpu_items.
  pose proof (launch_covers_facts _ _ _ _ Hcov)
    as (Hgx & Hbx & Hth & Hfit & Hgy & Hby & Hgz & Hbz & Hz).
  split.
  - intros (t & Hin & Hitem). rewrite Hperm in Hin.
    rewrite (item_of_thread_grid nParity gd bd arg t Hcov Hin) in Hitem.
    apply elem_of_grid_threads in Hin as [Hbi Hti].
    apply elem_of_range3 in Hbi as (Hbix & Hbiy & Hbiz).
    apply elem_of_range3 in Hti as (Htix & Htiy & Htiz).
    cbv zeta in Hitem.
    destruct (Z.geb_spec (dim3_x (blockIdx t) * dim3_x bd + dim3_x (threadIdx t))
                         (threads arg)) as [Hge|Hlt]; [discriminate|].
    destruct (nParity =? 2).
    + destruct (_ =? 0) in Hitem; [|destruct (_ =? 1) in Hitem; [|discriminate]];
        inversion Hitem; subst; split; auto; nia.
    + destruct (Z.eqb_spec (parity arg) 0) as [E|N];
        [|destruct (Z.eqb_spec (parity arg) 1) as [E|N']; [|discriminate]];
        inversion Hitem; subst; split; auto; nia.
  - intros [Hi Hp].
    set (pz := if nParity =? 2 then p else 0).
    exists {| blockIdx := {| dim3_x := i / dim3_x bd; dim3_y := 0;
                             dim3_z := pz / dim3_z bd |};
              threadIdx := {| dim3_x := i mod dim3_x bd; dim3_y := 0;
                              dim3_z := pz mod dim3_z bd |} |}.
    assert (Hpz : 0 <= pz < dim3_z gd * dim3_z bd).
    { unfold pz. destruct (nParity =? 2); lia. }
    assert (Hin : {| blockIdx := {| dim3_x := i / dim3_x bd; dim3_y := 0;
                                    dim3_z := pz / dim3_z bd |};
                     threadIdx := {| dim3_x := i mod dim3_x bd; dim3_y := 0;
                                     dim3_z := pz mod dim3_z bd |} |}
                  ∈ grid_threads gd bd).
    { apply elem_of_grid_threads. cbn [blockIdx threadIdx].
      split; apply elem_of_range3; cbn [dim3_x dim3_y dim3_z].
      - split; [|split]; [|lia|].
        + split; [apply Z.div_pos; lia|]. apply Z.div_lt_upper_bound; lia.
        + split; [apply Z.div_pos; lia|]. apply Z.div_lt_upper_bound; lia.
      - split; [|split]; [|lia|]; apply Z.mod_pos_bound; lia. }
    split; [rewrite Hperm; exact Hin|].
    rewrite (item_of_thread_grid nParity gd bd arg _ Hcov Hin).
    cbn [blockIdx threadIdx dim3_x dim3_y dim3_z]. cbv zeta.
    assert (Hix : i / dim3_x bd * dim3_x bd + i mod dim3_x bd = i).
    { rewrite Z.mul_comm. symmetry. apply Z.div_mod. lia. }
    assert (Hpzz : dim3_z bd * (pz / dim3_z bd) + pz mod dim3_z bd = pz).
    { symmetry. apply Z.div_mod. lia. }
    rewrite Hix, Hpzz.
    destruct (Z.geb_spec i (threads arg)) as [Hge|_]; [lia|].
    unfold pz. unfold valid_parity in Hvalid.
    destruct (nParity =? 2).
    + destruct Hp as [-> | ->]; reflexivity.
    + subst p. simpl in Hvalid. apply andb_true_iff in Hvalid as [_ Hpar].
      apply orb_true_iff in Hpar as [H0|H0]; apply Z.eqb_eq in H0; rewrite H0; reflexivity.
Qed.

Lemma NoDup_gpu_items nParity gd bd arg sched :
  launch_covers nParity gd bd arg = true ->
  sched ≡ₚ grid_threads gd bd ->
  NoDup (omap (item_of_thread nParity bd arg) sched).
Proof.
  intros Hcov Hperm. apply NoDup_omap_inj.
  - rewrite Hperm. apply NoDup_grid_threads.
  - intros t1 t2 it H1 H2. rewrite Hperm in H1, H2.
    apply (item_of_thread_inj nParity gd bd arg t1 t2 it Hcov H1 H2).
Qed.

(** C8.  For a bundle with a valid parity configuration, helpers that do
    not read the output field and stores that do not collide, the
    sequential wrapper returns, and a launch of the parallel wrapper that
    covers the sites, with its threads run in any order, leaves the same
    output field, site by site: both make the calls of [twistedMass] on
    the same (index, parity) pairs. *)
Theorem cpu_gpu_same_output nDim nParity dagger asymmetric_ xpay kernel_type
    (gd bd : dim3) (sched : list Thread) (fuel : nat) arg :
  valid_parity nParity arg = true ->
  launch_covers nParity gd bd arg = true ->
  sites_distinct nDim nParity dagger asymmetric_ kernel_type arg ->
  sched ≡ₚ grid_threads gd bd ->
  (3 <= fuel)%nat ->
  exists cpu_arg,
    twistedMassCPU nDim nParity dagger asymmetric_ xpay kernel_type fuel arg = Some cpu_arg /\
    cpu_arg = run_items nDim nParity dagger asymmetric_ xpay kernel_type
                (cpu_items nParity arg) arg /\
    launch nDim nParity dagger asymmetric_ xpay kernel_type bd sched arg =
      run_items nDim nParity dagger asymmetric_ xpay kernel_type
        (omap (item_of_thread nParity bd arg) sched) arg /\
    (forall it, it ∈ omap (item_of_thread nParity bd arg) sched <->
                it ∈ cpu_items nParity arg) /\
    frame arg cpu_arg /\
    frame arg (launch nDim nParity dagger asymmetric_ xpay kernel_type bd sched arg) /\
    forall i q,
      out (launch nDim nParity dagger asymmetric_ xpay kernel_type bd sched arg) i q =
      out cpu_arg i q.
Proof.
  intros Hvalid Hcov Hdist Hperm Hfuel.
  eexists. split; [apply twistedMassCPU_run; assumption|].
  split; [reflexivity|].
  assert (Hlaunch :
    launch nDim nParity dagger asymmetric_ xpay kernel_type bd sched arg =
    run_items nDim nParity dagger asymmetric_ xpay kernel_type
      (omap (item_of_thread nParity bd arg) sched) arg).
  { rewrite <- (set_out_id arg) at 1 3. rewrite launch_run.
    rewrite set_out_id. reflexivity. }
  split; [exact Hlaunch|].
  split; [apply gpu_items_cover with (gd := gd); assumption|].
  split; [apply frame_run_items|]. split; [apply frame_launch|].
  intros i q. rewrite Hlaunch.
  rewrite <- (set_out_id arg).
  apply run_items_order.
  - apply NoDup_gpu_items with (gd := gd); assumption.
  - apply NoDup_cpu_items.
  - intros it. rewrite set_out_id. apply gpu_items_cover with (gd := gd); assumption.
  - intros it it' i' q' Hin Hin' [Hw Hs] [Hw' Hs'].
    rewrite set_out_id in Hin, Hin'.
    apply (gpu_items_cover nParity gd bd arg sched Hvalid Hcov Hperm) in Hin, Hin'.
    apply Hdist; auto. congruence.
Qed.


(** *** A whole pass with and without xpay *)

Lemma stored_value_xpay nDim nParity dagger asymmetric_ kernel_type arg idx par old :
  stored_value nDim nParity dagger asymmetric_ true kernel_type arg idx par old =
  if finalizes nDim nParity dagger asymmetric_ kernel_type arg idx par
  then vadd (stored_value nDim nParity dagger asymmetric_ false kernel_type arg idx par old)
            (x arg (fst (site_of nDim nParity dagger asymmetric_ kernel_type arg idx par))
                   (snd (site_of nDim nParity dagger asymmetric_ kernel_type arg idx par)))
  else stored_value nDim nParity dagger asymmetric_ false kernel_type arg idx par old.
Proof.
  unfold stored_value, finalizes, site_of, coord_of, active_after.
  destruct (resolve_and_gather nDim nParity dagger asymmetric_ kernel_type arg idx par)
    as [[[x_cb coord] out1] active].
  unfold finalize. cbn [fst snd].
  destruct (isComplete kernel_type arg coord && active); reflexivity.
Qed.

Lemma stored_value_unmerged nDim nParity dagger asymmetric_ xpay kernel_type arg idx par old old' :
  merges nDim nParity dagger asymmetric_ kernel_type arg idx par = false ->
  stored_value nDim nParity dagger asymmetric_ xpay kernel_type arg idx par old =
  stored_value nDim nParity dagger asymmetric_ xpay kernel_type arg idx par old'.
Proof.
  unfold stored_value, merges, active_after.
  destruct (resolve_and_gather nDim nParity dagger asymmetric_ kernel_type arg idx par)
    as [[[x_cb coord] out1] active].
  intros ->. reflexivity.
Qed.

Lemma targets_decide nDim nParity dagger asymmetric_ kernel_type arg it i q :
  bool_decide (targets nDim nParity dagger asymmetric_ kernel_type arg it i q) =
  writes nDim nParity dagger asymmetric_ kernel_type arg (fst it) (snd it)
  && bool_decide (site_of nDim nParity dagger asymmetric_ kernel_type arg (fst it) (snd it)
                  = (i, q)).
Proof.
  destruct (decide (targets nDim nParity dagger asymmetric_ kernel_type arg it i q))
    as [[Hw Hs]|Hn].
  - rewrite bool_decide_eq_true_2 by (split; assumption).
    rewrite Hw, (bool_decide_eq_true_2 _ Hs). reflexivity.
  - rewrite bool_decide_eq_false_2 by exact Hn.
    symmetry. apply not_true_is_false. intros Hboth.
    apply andb_true_iff in Hboth as [Hw Hs]. apply bool_decide_eq_true_1 in Hs.
    apply Hn. split; assumption.
Qed.

(** One call, with and without [xpay], and the status of a site. *)
Lemma status_step_sound nDim nParity dagger asymmetric_ arg (c : Call) st o1 o0 i q :
  match st with
  | Pending => o1 i q = o0 i q
  | Finalized => o1 i q = vadd (o0 i q) (x arg i q)
  | Overrun => True
  end ->
  match status_step nDim nParity dagger asymmetric_ arg i q st c with
  | Pending =>
      out (twistedMass nDim nParity dagger asymmetric_ true (fst c) (set_out arg o1)
             (fst (snd c)) (snd (snd c))) i q =
      out (twistedMass nDim nParity dagger asymmetric_ false (fst c) (set_out arg o0)
             (fst (snd c)) (snd (snd c))) i q
  | Finalized =>
      out (twistedMass nDim nParity dagger asymmetric_ true (fst c) (set_out arg o1)
             (fst (snd c)) (snd (snd c))) i q =
      vadd (out (twistedMass nDim nParity dagger asymmetric_ false (fst c) (set_out arg o0)
                   (fst (snd c)) (snd (snd c))) i q)
           (x arg i q)
  | Overrun => True
  end.
Proof.
  destruct c as [kt [idx par]]. cbn [fst snd]. intros Hinv.
  rewrite !twistedMass_out. unfold status_step. rewrite targets_decide. cbn [fst snd].
  destruct (writes nDim nParity dagger asymmetric_ kt arg idx par
            && bool_decide (site_of nDim nParity dagger asymmetric_ kt arg idx par = (i, q)))
    eqn:Ht; [|exact Hinv].
  apply andb_true_iff in Ht as [_ Hs]. apply bool_decide_eq_true_1 in Hs.
  rewrite stored_value_xpay, Hs. cbn [fst snd].
  destruct (merges nDim nParity dagger asymmetric_ kt arg idx par) eqn:Hm.
  - destruct st; try exact I. rewrite Hinv.
    destruct (finalizes nDim nParity dagger asymmetric_ kt arg idx par); reflexivity.
  - rewrite (stored_value_unmerged _ _ _ _ false _ _ _ _ (o1 i q) (o0 i q) Hm).
    destruct (finalizes nDim nParity dagger asymmetric_ kt arg idx par); reflexivity.
Qed.

Lemma run_calls_step nDim nParity dagger asymmetric_ xpay arg o (c : Call) calls :
  run_calls nDim nParity dagger asymmetric_ xpay (c :: calls) (set_out arg o) =
  run_calls nDim nParity dagger asymmetric_ xpay calls
    (set_out arg (out (twistedMass nDim nParity dagger asymmetric_ xpay (fst c)
                         (set_out arg o) (fst (snd c)) (snd (snd c))))).
Proof.
  unfold run_calls. cbn [fold_left]. f_equal.
  rewrite twistedMass_frame at 1. apply set_out_set_out.
Qed.

(** A sequence of calls, with and without [xpay], and the status of a
    site. *)
Lemma run_calls_xpay nDim nParity dagger asymmetric_ arg (calls : list Call) i q :
  forall st o1 o0,
    match st with
    | Pending => o1 i q = o0 i q
    | Finalized => o1 i q = vadd (o0 i q) (x arg i q)
    | Overrun => True
    end ->
    match fold_left (status_step nDim nParity dagger asymmetric_ arg i q) calls st with
    | Pending =>
        out (run_calls nDim nParity dagger asymmetric_ true calls (set_out arg o1)) i q =
        out (run_calls nDim nParity dagger asymmetric_ false calls (set_out arg o0)) i q
    | Finalized =>
        out (run_calls nDim nParity dagger asymmetric_ true calls (set_out arg o1)) i q =
        vadd (out (run_calls nDim nParity dagger asymmetric_ false calls (set_out arg o0)) i q)
             (x arg i q)
    | Overrun => True
    end.
Proof.
  induction calls as [|c calls IH]; intros st o1 o0 Hinv.
  - cbn [fold_left]. unfold run_calls. cbn [fold_left]. exact Hinv.
  - cbn [fold_left]. rewrite !run_calls_step. apply IH.
    apply status_step_sound, Hinv.
Qed.

End Dispatch.

Lemma run_calls_pass nDim nParity dagger asymmetric_ xpay kernel_type items arg :
  run_calls nDim nParity dagger asymmetric_ xpay (pass_calls kernel_type items) arg =
  run_items nDim nParity dagger asymmetric_ xpay kernel_type items arg.
Proof.
  unfold run_calls, run_items, pass_calls. revert arg.
  induction items as [|it items IH]; intros arg; [reflexivity|].
  cbn [fmap list_fmap fold_left fst snd]. apply IH.
Qed.

Lemma run_calls_app nDim nParity dagger asymmetric_ xpay calls1 calls2 arg :
  run_calls nDim nParity dagger asymmetric_ xpay (calls1 ++ calls2) arg =
  run_calls nDim nParity dagger asymmetric_ xpay calls2
    (run_calls nDim nParity dagger asymmetric_ xpay calls1 arg).
Proof. unfold run_calls. apply fold_left_app. Qed.

(** Successive passes of the sequential wrapper return, and make the calls
    of their passes in order. *)
Lemma run_passes_calls nDim nParity dagger asymmetric_ xpay fuel kts :
  (3 <= fuel)%nat ->
  forall arg,
    valid_parity nParity arg = true ->
    run_passes nDim nParity dagger asymmetric_ xpay fuel kts arg =
    Some (run_calls nDim nParity dagger asymmetric_ xpay
            (kts ≫= (fun kt => pass_calls kt (cpu_items nParity arg))) arg).
Proof.
  intros Hfuel. induction kts as [|kt kts IH]; intros arg Hvalid; [reflexivity|].
  cbn [run_passes]. rewrite twistedMassCPU_run by assumption. cbn [mbind option_bind].
  set (arg1 := run_items nDim nParity dagger asymmetric_ xpay kt (cpu_items nParity arg) arg).
  assert (Hframe : arg1 = set_out arg (out arg1)) by apply frame_run_items.
  assert (Hitems : cpu_items nParity arg1 = cpu_items nParity arg).
  { unfold cpu_items. rewrite Hframe. reflexivity. }
  assert (Hvalid1 : valid_parity nParity arg1 = true).
  { unfold valid_parity. rewrite Hframe. exact Hvalid. }
  rewrite (IH arg1 Hvalid1), Hitems.
  rewrite bind_cons, run_calls_app, run_calls_pass. reflexivity.
Qed.

(** C7.  The operator runs its passes as sequences of calls of
    [twistedMass] on one bundle.  At every site that the sequence leaves
    finalized (the last store to the site finalized it, and no call added
    its gather to a value finalized before), the output field produced with
    [xpay] equals the output field produced without it plus the
    pass-through field at the site; a site the sequence leaves pending
    holds the same value in both.  Successive passes of the sequential
    wrapper are such a sequence: they return, and make the calls of their
    passes in order.  (The helpers outside the file do not read the output
    field.) *)
Theorem xpay_adds_passthrough nDim nParity dagger asymmetric_ arg :
  reads_no_output ->
  (forall (calls : list Call) i q,
     site_status nDim nParity dagger asymmetric_ arg calls i q = Finalized ->
     out (run_calls nDim nParity dagger asymmetric_ true calls arg) i q =
     vadd (out (run_calls nDim nParity dagger asymmetric_ false calls arg) i q) (x arg i q)) /\
  (forall (calls : list Call) i q,
     site_status nDim nParity dagger asymmetric_ arg calls i q = Pending ->
     out (run_calls nDim nParity dagger asymmetric_ true calls arg) i q =
     out (run_calls nDim nParity dagger asymmetric_ false calls arg) i q) /\
  (forall xpay kts fuel,
     valid_parity nParity arg = true -> (3 <= fuel)%nat ->
     run_passes nDim nParity dagger asymmetric_ xpay fuel kts arg =
     Some (run_calls nDim nParity dagger asymmetric_ xpay
             (kts ≫= (fun kt => pass_calls kt (cpu_items nParity arg))) arg)).
Proof.
  intros Hro. split; [|split].
  - intros calls i q Hst.
    pose proof (run_calls_xpay Hro nDim nParity dagger asymmetric_ arg calls i q
                  Pending (out arg) (out arg) eq_refl) as Hx.
    unfold site_status in Hst. rewrite Hst, set_out_id in Hx. exact Hx.
  - intros calls i q Hst.
    pose proof (run_calls_xpay Hro nDim nParity dagger asymmetric_ arg calls i q
                  Pending (out arg) (out arg) eq_refl) as Hx.
    unfold site_status in Hst. rewrite Hst, set_out_id in Hx. exact Hx.
  - intros xpay kts fuel Hvalid Hfuel. apply run_passes_calls; assumption.
Qed.

(** C6.  The constructor stores the twist converted to the working
    precision, negated beforehand when [dagger] is requested; the rotation
    of the kernels reads this stored value; and a call of [twistedMass], a
    run of the sequential wrapper (which returns for every valid parity
    configuration) and a launch of the parallel one return the bundle with
    the same twist, so the stored value is the one every later computation
    uses. *)
Theorem twist_sign_fixed (out_f in_f x_f : ColorSpinorField) (U_f : GaugeField)
    (a_ b_ : double) (xpay0 dagger0 asymmetric0 : bool) (parity_ : Z)
    (comm_override : Z -> Z) :
  let arg0 := TwistedMassArg_ctor out_f in_f U_f a_ b_ xpay0 x_f parity_
                                  dagger0 asymmetric0 comm_override in
  b arg0 = real_of_double (if dagger0 then dneg b_ else b_) /\
  (forall w : Vector,
     twist arg0 w =
     rscale (real_of_double a_)
       (vadd w (cscale (mk_complex (real_of_double d0)
                          (real_of_double (if dagger0 then dneg b_ else b_)))
                  (gamma 4 w)))) /\
  (forall nDim nParity dagger asymmetric_ xpay kernel_type arg,
     (forall idx par,
        b (twistedMass nDim nParity dagger asymmetric_ xpay kernel_type arg idx par) = b arg) /\
     (forall fuel,
        match twistedMassCPU nDim nParity dagger asymmetric_ xpay kernel_type fuel arg with
        | Some arg' => b arg' = b arg
        | None => True
        end) /\
     (forall fuel,
        valid_parity nParity arg = true -> (3 <= fuel)%nat ->
        exists arg',
          twistedMassCPU nDim nParity dagger asymmetric_ xpay kernel_type fuel arg = Some arg' /\
          b arg' = b arg) /\
     (forall bd sched,
        b (launch nDim nParity dagger asymmetric_ xpay kernel_type bd sched arg) = b arg)).
Proof.
  intros arg0. split; [|split].
  - subst arg0. unfold TwistedMassArg_ctor.
    destruct (dagger0 && negb asymmetric0); reflexivity.
  - intros w. subst arg0. unfold TwistedMassArg_ctor, twist.
    destruct (dagger0 && negb asymmetric0); reflexivity.
  - intros nDim nParity dagger asymmetric_ xpay kernel_type arg. split; [|split; [|split]].
    + intros idx par. apply (frame_scalars arg). apply frame_twistedMass.
    + intros fuel. unfold twistedMassCPU.
      destruct (parity_loop nDim nParity dagger asymmetric_ xpay kernel_type fuel 0 arg)
        as [arg'|] eqn:Hrun; [|exact I].
      apply (frame_scalars arg). eapply frame_parity_loop, Hrun.
    + intros fuel Hvalid Hfuel. eexists.
      split; [apply twistedMassCPU_run; assumption|].
      apply (frame_scalars arg). apply frame_run_items.
    + intros bd sched. apply (frame_scalars arg). apply frame_launch.
Qed.

End KernelFacts.
End TwistedMassFacts.

(** * The kernels on the reference lattice *)
Module ReferenceRuns.
Import TwistedMass Reference TwistedMassFacts.

#[local] Existing Instance algebra.
#[local] Existing Instance geometry.
#[local] Existing Instance collaborators.

Lemma reference_reads_no_output : reads_no_output.
Proof. repeat split. Defined.

(** On the partitioned lattice the site with index 12 and parity 0 has
    coordinate (1, 0, 0, 3): its forward neighbour in dimension 3 lies across
    the partitioned face.  The interior pass takes neither path for it and
    leaves the accumulator as it is; the pass of the dimension-3 faces takes
    neither path for the backward neighbour of the same site, which is
    local. *)
Lemma interior_pass_skips_ghost_neighbour :
  (coord_at arg_partitioned 12 0 3 + nFace arg_partitioned >=? dim arg_partitioned 3) = true /\
  forward_path INTERIOR_KERNEL arg_partitioned (coord_at arg_partitioned 12 0) 3 true 3
    <> HaloPath /\
  forward_path INTERIOR_KERNEL arg_partitioned (coord_at arg_partitioned 12 0) 3 true 3
    <> BulkPath /\
  forward_gather 2 true INTERIOR_KERNEL arg_partitioned (coord_at arg_partitioned 12 0)
                 12 0 12 3 3 (vzero, true) = (vzero, true) /\
  backward_path EXTERIOR_KERNEL_T arg_partitioned (coord_at arg_partitioned 12 0) 3 true 3
    <> HaloPath /\
  backward_path EXTERIOR_KERNEL_T arg_partitioned (coord_at arg_partitioned 12 0) 3 true 3
    <> BulkPath.
Proof. vm_compute. repeat split; discriminate. Qed.

Lemma gather_path_choice_witness :
  forward_path INTERIOR_KERNEL arg_partitioned (coord_at arg_partitioned 12 0) 3 true 3 = NoPath /\
  fst (forward_gather 2 true INTERIOR_KERNEL arg_partitioned (coord_at arg_partitioned 12 0)
         12 0 12 3 3 (vzero, true)) = vzero.
Proof.
  destruct (gather_path_choice INTERIOR_KERNEL arg_partitioned
              (coord_at arg_partitioned 12 0) 3 true 3) as (_ & _ & _ & _ & _ & _ & Hskip).
  destruct (Hskip 2 true 12 0 12 vzero) as [Hfwd _].
  split; [reflexivity|]. apply Hfwd. reflexivity.
Defined.

Lemma bulk_gather_twists_first_witness :
  fst (applyWilsonTM (3 + 1) 2 true INTERIOR_KERNEL vzero arg_partitioned
         (coord_at arg_partitioned 5 0) 5 0 5 3 true) =
  vadd
    (vadd
       (fst (applyWilsonTM 3 2 true INTERIOR_KERNEL vzero arg_partitioned
               (coord_at arg_partitioned 5 0) 5 0 5 3 true))
       (reconstruct 3 1
          (link_mul (U arg_partitioned 3 5 0)
             (project 3 1
                (rscale (a arg_partitioned)
                   (vadd
                      (in_ arg_partitioned
                           (getNeighborIndexCB (coord_at arg_partitioned 5 0) 3 1
                                               (dc arg_partitioned))
                           (their_spinor_parity 2 0))
                      (cscale (mk_complex (real_of_double d0) (b arg_partitioned))
                         (gamma 4
                            (in_ arg_partitioned
                                 (getNeighborIndexCB (coord_at arg_partitioned 5 0) 3 1
                                                     (dc arg_partitioned))
                                 (their_spinor_parity 2 0))))))))))
    (reconstruct 3 (-1)
       (link_mul
          (conj (U arg_partitioned 3
                   (getNeighborIndexCB (coord_at arg_partitioned 5 0) 3 (-1)
                                       (dc arg_partitioned))
                   (1 - 0)))
          (project 3 (-1)
             (rscale (a arg_partitioned)
                (vadd
                   (in_ arg_partitioned
                        (getNeighborIndexCB (coord_at arg_partitioned 5 0) 3 (-1)
                                            (dc arg_partitioned))
                        (their_spinor_parity 2 0))
                   (cscale (mk_complex (real_of_double d0) (b arg_partitioned))
                      (gamma 4
                         (in_ arg_partitioned
                              (getNeighborIndexCB (coord_at arg_partitioned 5 0) 3 (-1)
                                                  (dc arg_partitioned))
                              (their_spinor_parity 2 0))))))))) /\
  applyWilsonTM (3 + 1) 2 true INTERIOR_KERNEL vzero arg_partitioned
    (coord_at arg_partitioned 5 0) 5 0 5 3 true =
  backward_gather 2 true INTERIOR_KERNEL arg_partitioned (coord_at arg_partitioned 5 0)
    5 0 5 3 3
    (forward_gather 2 true INTERIOR_KERNEL arg_partitioned (coord_at arg_partitioned 5 0)
       5 0 5 3 3
       (applyWilsonTM 3 2 true INTERIOR_KERNEL vzero arg_partitioned
          (coord_at arg_partitioned 5 0) 5 0 5 3 true)) /\
  fst (forward_gather 2 true INTERIOR_KERNEL arg_partitioned (coord_at arg_partitioned 5 0)
         5 0 5 3 3 (vzero, true)) =
  vadd vzero
    (reconstruct 3 1
       (link_mul (U arg_partitioned 3 5 0)
          (project 3 1
             (rscale (a arg_partitioned)
                (vadd
                   (in_ arg_partitioned
                        (getNeighborIndexCB (coord_at arg_partitioned 5 0) 3 1
                                            (dc arg_partitioned))
                        (their_spinor_parity 2 0))
                   (cscale (mk_complex (real_of_double d0) (b arg_partitioned))
                      (gamma 4
                         (in_ arg_partitioned
                              (getNeighborIndexCB (coord_at arg_partitioned 5 0) 3 1
                                                  (dc arg_partitioned))
                              (their_spinor_parity 2 0))))))))) /\
  fst (backward_gather 2 true INTERIOR_KERNEL arg_partitioned (coord_at arg_partitioned 5 0)
         5 0 5 3 3 (vzero, true)) =
  vadd vzero
    (reconstruct 3 (-1)
       (link_mul
          (conj (U arg_partitioned 3
                   (getNeighborIndexCB (coord_at arg_partitioned 5 0) 3 (-1)
                                       (dc arg_partitioned))
                   (1 - 0)))
          (project 3 (-1)
             (rscale (a arg_partitioned)
                (vadd
                   (in_ arg_partitioned
                        (getNeighborIndexCB (coord_at arg_partitioned 5 0) 3 (-1)
                                            (dc arg_partitioned))
                        (their_spinor_parity 2 0))
                   (cscale (mk_complex (real_of_double d0) (b arg_partitioned))
                      (gamma 4
                         (in_ arg_partitioned
                              (getNeighborIndexCB (coord_at arg_partitioned 5 0) 3 (-1)
                                                  (dc arg_partitioned))
                              (their_spinor_parity 2 0))))))))).
Proof.
  destruct (bulk_gather_twists_first 2 true INTERIOR_KERNEL arg_partitioned
              (coord_at arg_partitioned 5 0) 5 0 5 3 3 vzero true)
    as (Hfwd & Hbwd & _ & Hloop & Hboth).
  split; [apply Hboth; [lia | reflexivity | reflexivity]|].
  split; [apply Hloop; lia|].
  split; [apply Hfwd | apply Hbwd]; reflexivity.
Defined.

Lemma halo_gather_links_witness :
  fst (forward_gather 2 true EXTERIOR_KERNEL_T arg_partitioned (coord_at arg_partitioned 12 0)
         12 0 12 3 3 (vzero, true)) =
  vadd vzero
    (reconstruct 3 1
       (link_mul (U arg_partitioned 3 12 0)
          (hscale (in_Ghost arg_partitioned 3 1 12 1) (t_proj_scale arg_partitioned)))) /\
  fst (backward_gather 2 true EXTERIOR_KERNEL_T arg_partitioned (coord_at arg_partitioned 0 0)
         0 0 0 3 3 (vzero, true)) =
  vadd vzero
    (reconstruct 3 (-1)
       (link_mul (conj (U_Ghost arg_partitioned 3 0 1))
          (hscale (in_Ghost arg_partitioned 3 0 0 1) (t_proj_scale arg_partitioned)))).
Proof.
  destruct (halo_gather_links 2 true EXTERIOR_KERNEL_T arg_partitioned
              (coord_at arg_partitioned 12 0) 12 0 12 3 3 vzero true) as (Hfwd & _ & _).
  destruct (halo_gather_links 2 true EXTERIOR_KERNEL_T arg_partitioned
              (coord_at arg_partitioned 0 0) 0 0 0 3 3 vzero true) as (_ & Hbwd & _).
  split; [apply Hfwd | apply Hbwd]; reflexivity.
Defined.

(** In the pass of the dimension-3 faces the forward gather of the site with
    index 12 takes the halo path; the link it multiplies with is the one of
    the ordinary accessor at the site, [U(3, 12, 0) = 4 + 12i], and no link
    of the halo accessor, whose real part is -2, gives the same
    contribution. *)
Lemma forward_halo_link_is_local :
  forward_path EXTERIOR_KERNEL_T arg_partitioned (coord_at arg_partitioned 12 0) 3 true 3
    = HaloPath /\
  fst (forward_gather 2 true EXTERIOR_KERNEL_T arg_partitioned (coord_at arg_partitioned 12 0)
         12 0 12 3 3 (vzero, true)) = ((16, 168), (-8, 16), (16, 168), (-8, 16)) /\
  ~ (exists gi p : Z,
       fst (forward_gather 2 true EXTERIOR_KERNEL_T arg_partitioned (coord_at arg_partitioned 12 0)
              12 0 12 3 3 (vzero, true)) =
       vadd vzero
         (reconstruct 3 1
            (link_mul (U_Ghost arg_partitioned 3 gi p)
               (hscale (in_Ghost arg_partitioned 3 1 12 1) (t_proj_scale arg_partitioned))))).
Proof.
  split; [reflexivity|]. split; [reflexivity|].
  intros (gi & p & Heq).
  change (fst (forward_gather 2 true EXTERIOR_KERNEL_T arg_partitioned
                 (coord_at arg_partitioned 12 0) 12 0 12 3 3 (vzero, true)))
    with ((16, 168) : cplx, (-8, 16) : cplx, (16, 168) : cplx, (-8, 16) : cplx) in Heq.
  cbn in Heq. inversion Heq. lia.
Qed.

Lemma hopping_dispatch_witness :
  twistedMass 4 2 true false true INTERIOR_KERNEL arg_partitioned 5 0 =
    (let '(x_cb, coord, thread_dim) := getCoords 4 INTERIOR_KERNEL arg_partitioned 5 0 in
     let '(acc, active) :=
       applyWilsonTM 4 2 true INTERIOR_KERNEL vzero arg_partitioned coord x_cb 0 5 thread_dim
                     (if is_all INTERIOR_KERNEL then false else true) in
     let sp := my_spinor_parity 2 0 in
     if negb (is_all INTERIOR_KERNEL) || active
     then write_out arg_partitioned x_cb sp
            (finalize true false true INTERIOR_KERNEL arg_partitioned coord x_cb sp active
               (partial_merge INTERIOR_KERNEL arg_partitioned x_cb sp active acc))
     else arg_partitioned) /\
  twistedMass 4 2 false false true INTERIOR_KERNEL arg_single 5 0 =
    (let '(x_cb, coord, thread_dim) := getCoords 4 INTERIOR_KERNEL arg_single 5 0 in
     let '(acc, active) :=
       applyWilson 4 2 false INTERIOR_KERNEL vzero arg_single coord x_cb 0 5 thread_dim
                   (if is_all INTERIOR_KERNEL then false else true) in
     let sp := my_spinor_parity 2 0 in
     if negb (is_all INTERIOR_KERNEL) || active
     then write_out arg_single x_cb sp
            (finalize false false true INTERIOR_KERNEL arg_single coord x_cb sp active
               (partial_merge INTERIOR_KERNEL arg_single x_cb sp active acc))
     else arg_single).
Proof.
  destruct (hopping_dispatch 4 2 true false true INTERIOR_KERNEL arg_partitioned 5 0)
    as [Htm _].
  destruct (hopping_dispatch 4 2 false false true INTERIOR_KERNEL arg_single 5 0)
    as [_ Hplain].
  split; [apply Htm; reflexivity | apply Hplain; left; reflexivity].
Defined.

Lemma finalize_rotation_and_xpay_witness :
  out (twistedMass 4 2 false false true INTERIOR_KERNEL arg_single 5 0) 5 0 =
    vadd (rscale (a arg_single)
            (vadd (merged 4 2 false false INTERIOR_KERNEL arg_single 5 0)
               (cscale (mk_complex (real_of_double d0) (b arg_single))
                  (gamma 4 (merged 4 2 false false INTERIOR_KERNEL arg_single 5 0)))))
         (x arg_single 5 0) /\
  out (twistedMass 4 2 true false true INTERIOR_KERNEL arg_partitioned 5 0) 5 0 =
    vadd (merged 4 2 true false INTERIOR_KERNEL arg_partitioned 5 0) (x arg_partitioned 5 0) /\
  out (twistedMass 4 2 true false true INTERIOR_KERNEL arg_partitioned 0 0) 0 0 =
    merged 4 2 true false INTERIOR_KERNEL arg_partitioned 0 0.
Proof.
  destruct (finalize_rotation_and_xpay 4 2 false false true INTERIOR_KERNEL arg_single 5 0)
    as (Hrot & _ & _).
  destruct (finalize_rotation_and_xpay 4 2 true false true INTERIOR_KERNEL arg_partitioned 5 0)
    as (_ & Hplain & _).
  destruct (finalize_rotation_and_xpay 4 2 true false true INTERIOR_KERNEL arg_partitioned 0 0)
    as (_ & _ & Hskip).
  split; [apply Hrot; reflexivity|].
  split; [apply Hplain; reflexivity | apply Hskip; reflexivity].
Defined.

Lemma reference_sites_distinct nParity dagger asymmetric_ kernel_type arg :
  sites_distinct 4 nParity dagger asymmetric_ kernel_type arg.
Proof.
  intros [i p] [i' p'] Hin Hin' _ _.
  rewrite !site_of_getCoords. cbn [fst snd getCoords collaborators coords].
  unfold my_spinor_parity.
  apply elem_of_cpu_items in Hin, Hin'.
  destruct (nParity =? 2).
  - congruence.
  - destruct Hin as [_ ->], Hin' as [_ ->]. congruence.
Defined.

Lemma cpu_gpu_same_output_witness :
  (exists cpu_arg,
     twistedMassCPU 4 2 true false true INTERIOR_KERNEL 3 arg_partitioned = Some cpu_arg /\
     forall i q,
       out (launch 4 2 true false true INTERIOR_KERNEL block_dim
              (reverse (grid_threads grid_dim block_dim)) arg_partitioned) i q =
       out cpu_arg i q) /\
  (exists cpu_arg,
     twistedMassCPU 4 1 false false true EXTERIOR_KERNEL_T 3 arg_odd = Some cpu_arg /\
     forall i q,
       out (launch 4 1 false false true EXTERIOR_KERNEL_T block_dim_one
              (reverse (grid_threads grid_dim_one block_dim_one)) arg_odd) i q =
       out cpu_arg i q).
Proof.
  split.
  - destruct (cpu_gpu_same_output reference_reads_no_output
                4 2 true false true INTERIOR_KERNEL grid_dim block_dim
                (reverse (grid_threads grid_dim block_dim)) 3%nat arg_partitioned)
      as (cpu_arg & Hrun & _ & _ & _ & _ & _ & Hsame).
    + reflexivity.
    + reflexivity.
    + apply reference_sites_distinct.
    + apply reverse_Permutation.
    + lia.
    + exists cpu_arg. split; [exact Hrun | exact Hsame].
  - destruct (cpu_gpu_same_output reference_reads_no_output
                4 1 false false true EXTERIOR_KERNEL_T grid_dim_one block_dim_one
                (reverse (grid_threads grid_dim_one block_dim_one)) 3%nat arg_odd)
      as (cpu_arg & Hrun & _ & _ & _ & _ & _ & Hsame).
    + reflexivity.
    + reflexivity.
    + apply reference_sites_distinct.
    + apply reverse_Permutation.
    + lia.
    + exists cpu_arg. split; [exact Hrun | exact Hsame].
Defined.


(** The interior pass and then the pass of the dimension-3 faces leave
    every site of the partitioned lattice finalized. *)
Lemma two_passes_finalize :
  Forall (fun s => site_status 4 2 true false arg_partitioned (two_passes arg_partitioned)
                     (fst s) (snd s) = Finalized)
         (cpu_items 2 arg_partitioned).
Proof. apply (bool_decide_unpack _). vm_compute. exact I. Defined.

Lemma xpay_adds_passthrough_witness :
  Forall (fun s =>
            out (run_calls 4 2 true false true (two_passes arg_partitioned) arg_partitioned)
                (fst s) (snd s) =
            vadd (out (run_calls 4 2 true false false (two_passes arg_partitioned)
                         arg_partitioned) (fst s) (snd s))
                 (x arg_partitioned (fst s) (snd s)))
         (cpu_items 2 arg_partitioned) /\
  run_passes 4 2 true false true 3 [INTERIOR_KERNEL] arg_partitioned =
  Some (run_calls 4 2 true false true
          ([INTERIOR_KERNEL] ≫= (fun kt => pass_calls kt (cpu_items 2 arg_partitioned)))
          arg_partitioned).
Proof.
  destruct (xpay_adds_passthrough 4 2 true false arg_partitioned reference_reads_no_output)
    as (Hfin & _ & Hpasses).
  split.
  - eapply Forall_impl; [exact two_passes_finalize|].
    intros s Hs. apply Hfin, Hs.
  - apply Hpasses; [reflexivity | lia].
Defined.


Lemma twist_sign_fixed_witness :
  b arg_partitioned = -3 /\
  exists arg' : TwistedMassArg,
    twistedMassCPU 4 2 true false true INTERIOR_KERNEL 3 arg_partitioned = Some arg' /\
    b arg' = -3.
Proof.
  destruct (twist_sign_fixed (SA := algebra) (G := geometry) (C := collaborators)
              blank source passthrough (gauge partitioned) 2 3 true true false 0 no_override)
    as (Hb & _ & Hkeep).
  destruct (Hkeep 4 2 true false true INTERIOR_KERNEL arg_partitioned)
    as (_ & _ & Hcpu & _).
  destruct (Hcpu 3%nat eq_refl (le_n 3)) as (arg' & Hrun & Hsame).
  split; [exact Hb|]. exists arg'. split; [exact Hrun|]. rewrite Hsame. exact Hb.
Defined.

End ReferenceRuns.

(** * Further properties of the transform-reduce *)
Module TransformReduceExtra.
Import TransformReduce TwistedMass TransformReduceMore TransformReduceFacts.

Section OverloadFacts.

Context {T reduce_t : Type}.
Implicit Types (arg : TransformReduceArg T reduce_t) (p : pointer T).
Implicit Types (hh : T -> reduce_t) (rr : reduce_t -> reduce_t -> reduce_t).
Implicit Types (ini zero : reduce_t) (vs : list (pointer T)) (res : list reduce_t).

(** X1.  The batched entry point on the host, in full.  A result vector of
    another size than the input set ends in the size error, whatever the
    number of batches.  With equal sizes: at most 8 batches return one left
    fold per batch, in the order of the batches, and what the result vector
    held before does not matter; a count that is greater than 8 after its
    conversion to [int] ends in the batch error, which reports the converted
    count; and a count above 8 that the conversion takes to 8 or less passes
    the check and ends in an access out of range. *)
Theorem host_entry_point res vs n hh ini rr :
  (length res <> length vs ->
   transform_reduce_host res vs n hh ini rr =
   Fatal (SizeMismatch (length res) (length vs))) /\
  (length res = length vs -> (length vs <= 8)%nat ->
   transform_reduce_host res vs n hh ini rr =
   Done ((fun p => fold_items hh rr p n ini) <$> vs)) /\
  (length res = length vs -> 8 < int_of_size (length vs) ->
   transform_reduce_host res vs n hh ini rr =
   Fatal (BatchTooLarge (int_of_size (length vs)) 8)) /\
  (length res = length vs -> (8 < length vs)%nat -> int_of_size (length vs) <= 8 ->
   transform_reduce_host res vs n hh ini rr = Undefined) /\
  ((8 < length vs)%nat -> Z.of_nat (length vs) < 2 ^ 31 ->
   int_of_size (length vs) = Z.of_nat (length vs) /\ 8 < int_of_size (length vs)).
Proof.
  unfold transform_reduce_host. split; [|split; [|split; [|split]]].
  - intros Hne. destruct (Nat.eqb_spec (length res) (length vs)); [contradiction|reflexivity].
  - intros Heq Hle. rewrite Heq at 1. rewrite Nat.eqb_refl. cbn [negb].
    apply apply_cpu_spec; assumption.
  - intros Heq Hgt. rewrite Heq, Nat.eqb_refl. cbn [negb].
    apply apply_cpu_fatal. exact Hgt.
  - intros Heq Hgt Hwrap. rewrite Heq, Nat.eqb_refl. cbn [negb].
    unfold apply_cpu. rewrite ctor_count_wraps; [reflexivity | exact Hgt | exact Hwrap].
  - intros Hgt Hfit. rewrite int_of_size_small by exact Hfit. split; [reflexivity | lia].
Qed.

Lemma single_host_call zero p n hh ini rr :
  transform_reduce_host [zero] [p] n hh ini rr = Done [fold_items hh rr p n ini].
Proof.
  unfold transform_reduce_host. cbn [length]. rewrite Nat.eqb_refl. cbn [negb].
  rewrite apply_cpu_spec; [reflexivity | apply (Nat.leb_le 1 8); reflexivity | reflexivity].
Qed.

Lemma single_call_fold zero p n hh ini rr :
  transform_reduce_single zero p n hh ini rr = Done (fold_items hh rr p n ini).
Proof. unfold transform_reduce_single. rewrite single_host_call. reflexivity. Qed.

(** X2.  The single-array overloads never end in an error: whatever the
    pointer, the count, the functors and the initial value are, they return
    the left fold over the first [n_items] elements (all of [init] when the
    count is zero or negative); the [0.0] the result vector starts with does
    not show. *)
Theorem single_overloads_total zero p n hh ini rr (convert : T -> reduce_t) :
  transform_reduce_single zero p n hh ini rr = Done (fold_items hh rr p n ini) /\
  reduce_single convert zero p n ini rr = Done (fold_items convert rr p n ini) /\
  (n <= 0 -> transform_reduce_single zero p n hh ini rr = Done ini).
Proof.
  unfold transform_reduce_single, reduce_single. rewrite !single_host_call.
  split; [reflexivity|]. split; [reflexivity|].
  intros Hn. unfold fold_items. rewrite seqZ_nil by lia. reflexivity.
Qed.

(** A fold that keeps one of its two arguments keeps an extremal one. *)
Lemma selection_fold {A : Type} (rel : A -> A -> bool) (l : list A) :
  (forall a1 a2, rel a1 a2 = true -> rel a2 a1 = false) ->
  (forall a1 a2 a3, rel a1 a2 = false -> rel a2 a3 = false -> rel a1 a3 = false) ->
  forall start,
    let m := fold_left (fun acc y => if rel acc y then acc else y) l start in
    rel start m = false /\ Forall (fun y => rel y m = false) l /\ (m = start \/ m ∈ l).
Proof.
  intros Hasym Htrans.
  assert (Hirr : forall a1, rel a1 a1 = false).
  { intros a1. destruct (rel a1 a1) eqn:E; [|reflexivity]. rewrite <- E at 1. apply Hasym, E. }
  induction l as [|y l IH]; intros start; cbn [fold_left].
  - split; [apply Hirr|]. split; [constructor | left; reflexivity].
  - destruct (IH (if rel start y then start else y)) as (Hstart & Hall & Hmem).
    set (m := fold_left (fun acc y0 => if rel acc y0 then acc else y0) l
                (if rel start y then start else y)) in *.
    assert (Hfirst : rel start (if rel start y then start else y) = false /\
                     rel y (if rel start y then start else y) = false).
    { destruct (rel start y) eqn:E; auto. }
    destruct Hfirst as [H1 H2].
    split; [exact (Htrans _ _ _ H1 Hstart)|].
    split; [constructor; [exact (Htrans _ _ _ H2 Hstart) | exact Hall]|].
    destruct Hmem as [Hm|Hm].
    + rewrite Hm. destruct (rel start y); [left; reflexivity | right; apply elem_of_cons; auto].
    + right. apply elem_of_cons. auto.
Qed.

Lemma fold_items_selection {A : Type} (rel : A -> A -> bool) (convert : T -> A) p n (start : A) :
  (forall a1 a2, rel a1 a2 = true -> rel a2 a1 = false) ->
  (forall a1 a2 a3, rel a1 a2 = false -> rel a2 a3 = false -> rel a1 a3 = false) ->
  let m := fold_items convert (fun a1 a2 => if rel a1 a2 then a1 else a2) p n start in
  rel start m = false /\
  (forall i, 0 <= i < n -> rel (convert (p i)) m = false) /\
  (m = start \/ exists i, 0 <= i < n /\ m = convert (p i)).
Proof.
  intros Hasym Htrans m.
  assert (Hm : m = fold_left (fun acc y => if rel acc y then acc else y)
                             (convert <$> (p <$> seqZ 0 n)) start).
  { unfold m, fold_items. generalize (p <$> seqZ 0 n) as l. generalize start as s.
    intros s l. revert s. induction l as [|y l IH]; intros s; [reflexivity|]. apply IH. }
  destruct (selection_fold rel (convert <$> (p <$> seqZ 0 n)) Hasym Htrans start)
    as (Hstart & Hall & Hmem).
  rewrite <- Hm in Hstart, Hall, Hmem.
  split; [exact Hstart|]. split.
  - intros i Hi. rewrite Forall_forall in Hall. apply Hall.
    apply list_elem_of_fmap. exists (p i). split; [reflexivity|].
    apply list_elem_of_fmap. exists i. split; [reflexivity|]. apply elem_of_seqZ. lia.
  - destruct Hmem as [Hs|Hin]; [left; exact Hs|right].
    apply list_elem_of_fmap in Hin as (y & Hy & Hin).
    apply list_elem_of_fmap in Hin as (i & Hi & Hin).
    apply elem_of_seqZ in Hin. exists i. split; [lia|]. congruence.
Qed.

(** X3.  [reduce] with the [maximum] functor returns a value that neither
    the initial value nor any of the first [n_items] elements is greater
    than, and that is the initial value or one of these elements; with the
    [minimum] functor the same holds with "less than".  This needs
    [operator>] (resp. [operator<]) to be a strict weak order: asymmetric,
    and with a transitive "not greater" (which a NaN breaks). *)
Theorem reduce_extremum (gt lt : reduce_t -> reduce_t -> bool) (convert : T -> reduce_t)
    zero p n (start : reduce_t) :
  (forall a1 a2, gt a1 a2 = true -> gt a2 a1 = false) ->
  (forall a1 a2 a3, gt a1 a2 = false -> gt a2 a3 = false -> gt a1 a3 = false) ->
  (forall a1 a2, lt a1 a2 = true -> lt a2 a1 = false) ->
  (forall a1 a2 a3, lt a1 a2 = false -> lt a2 a3 = false -> lt a1 a3 = false) ->
  (exists m,
     reduce_single convert zero p n start (maximum gt) = Done m /\
     gt start m = false /\
     (forall i, 0 <= i < n -> gt (convert (p i)) m = false) /\
     (m = start \/ exists i, 0 <= i < n /\ m = convert (p i))) /\
  (exists m,
     reduce_single convert zero p n start (minimum lt) = Done m /\
     lt start m = false /\
     (forall i, 0 <= i < n -> lt (convert (p i)) m = false) /\
     (m = start \/ exists i, 0 <= i < n /\ m = convert (p i))).
Proof.
  intros Hgt1 Hgt2 Hlt1 Hlt2. split.
  - eexists. split.
    + unfold reduce_single. rewrite single_host_call. reflexivity.
    + apply (fold_items_selection gt (fun t => convert (identity t)) p n start Hgt1 Hgt2).
  - eexists. split.
    + unfold reduce_single. rewrite single_host_call. reflexivity.
    + apply (fold_items_selection lt (fun t => convert (identity t)) p n start Hlt1 Hlt2).
Qed.

Lemma fold_items_split hh rr p n1 n2 ini :
  0 <= n1 -> 0 <= n2 ->
  fold_items hh rr p (n1 + n2) ini =
  fold_items hh rr (offset p n1) n2 (fold_items hh rr p n1 ini).
Proof.
  intros H1 H2. unfold fold_items.
  rewrite seqZ_app by lia. rewrite fmap_app, fold_left_app. f_equal.
  replace (0 + n1) with (n1 + 0) by lia.
  rewrite <- (fmap_add_seqZ n1 0 n2).
  rewrite <- list_fmap_compose. apply list_fmap_ext.
  intros _ i _. unfold offset. cbn. f_equal. lia.
Qed.

(** X4.  A reduction can be done in two chunks: reducing [n1 + n2] elements
    is reducing the first [n1], and then the next [n2] (from the pointer
    advanced by [n1]) with the first result as initial value. *)
Theorem reduction_in_chunks zero p n1 n2 hh ini rr :
  0 <= n1 -> 0 <= n2 ->
  transform_reduce_single zero p (n1 + n2) hh ini rr =
  (first ← transform_reduce_single zero p n1 hh ini rr;
   transform_reduce_single zero (offset p n1) n2 hh first rr).
Proof.
  intros H1 H2.
  rewrite !single_call_fold. cbn [mbind outcome_bind].
  rewrite single_call_fold, fold_items_split by assumption. reflexivity.
Qed.

(** X5.  [transform_reduce(Arg&)] on a well-formed bundle is idempotent: a
    second run on the bundle it returns gives the same bundle again, and a
    run changes nothing but [result]. *)
Theorem transform_reduce_idempotent arg :
  well_formed arg ->
  exists arg',
    transform_reduce arg = Done arg' /\
    transform_reduce arg' = Done arg' /\
    arg' = set_result arg (result arg').
Proof.
  intros Hwf. destruct (transform_reduce_spec arg Hwf) as (res1 & Hrun1 & Hl1 & Hin1 & Hout1).
  exists (set_result arg res1). split; [exact Hrun1|]. split; [|reflexivity].
  assert (Hwf2 : well_formed (set_result arg res1)).
  { destruct Hwf as [Hroom Hinit]. split; cbn; [rewrite Hl1; exact Hroom | exact Hinit]. }
  destruct (transform_reduce_spec _ Hwf2) as (res2 & Hrun2 & Hl2 & Hin2 & Hout2).
  rewrite Hrun2. cbn in Hl2, Hin2, Hout2 |- *. do 2 f_equal.
  change (set_result (set_result arg res1) res2) with (set_result arg res2).
  f_equal. apply list_eq. intros k.
  destruct (decide (Z.of_nat k < n_batch arg)) as [Hk|Hk].
  - destruct Hwf as [_ Hinit]. destruct (Hinit (Z.of_nat k) ltac:(lia)) as [q Hq].
    specialize (Hin1 (Z.of_nat k) q ltac:(lia) Hq).
    specialize (Hin2 (Z.of_nat k) q ltac:(lia) Hq).
    rewrite Nat2Z.id in Hin1, Hin2. rewrite Hin1, Hin2.
    rewrite reduce_batch_set_result. reflexivity.
  - apply Hout2. lia.
Qed.

(** *** The device kernel *)







Section Combine.

Variable rr : reduce_t -> reduce_t -> reduce_t.
Hypothesis rr_comm : forall a1 a2, rr a1 a2 = rr a2 a1.
Hypothesis rr_assoc : forall a1 a2 a3, rr a1 (rr a2 a3) = rr (rr a1 a2) a3.





End Combine.






End OverloadFacts.
End TransformReduceExtra.

(** * Further properties of the twisted-mass kernels *)
Module TwistedMassExtra.
Import TwistedMass TwistedMassMore TwistedMassFacts.

Section MoreKernelFacts.

Context `{SA : SpinorAlgebra} `{G : Geometry} `{C : !Collaborators}.
Implicit Types (arg : TwistedMassArg) (kernel_type : KernelType).
Implicit Types (coord : Coord) (acc : Vector).

(** X7.  A call of [twistedMass] changes the bundle in its output field
    only, and there at its own site at most: every other site keeps its
    value, and a thread of the fused exterior pass that stays inactive
    returns the bundle as it was. *)
Theorem twistedMass_touches_own_site nDim nParity dagger asymmetric_ xpay kernel_type arg idx par :
  frame arg (twistedMass nDim nParity dagger asymmetric_ xpay kernel_type arg idx par) /\
  (forall i q,
     (i, q) <> site_of nDim nParity dagger asymmetric_ kernel_type arg idx par ->
     out (twistedMass nDim nParity dagger asymmetric_ xpay kernel_type arg idx par) i q =
     out arg i q) /\
  (kernel_type = EXTERIOR_KERNEL_ALL ->
   active_after nDim nParity dagger asymmetric_ kernel_type arg idx par = false ->
   twistedMass nDim nParity dagger asymmetric_ xpay kernel_type arg idx par = arg).
Proof.
  split; [apply frame_twistedMass|]. split.
  - intros i q Hne. rewrite twistedMass_unfold.
    destruct (writes nDim nParity dagger asymmetric_ kernel_type arg idx par); [|reflexivity].
    rewrite out_write_out.
    destruct (Z.eqb_spec i (fst (site_of nDim nParity dagger asymmetric_ kernel_type arg idx par)))
      as [Hi|Hi]; [|reflexivity].
    destruct (Z.eqb_spec q (snd (site_of nDim nParity dagger asymmetric_ kernel_type arg idx par)))
      as [Hq|Hq]; [|reflexivity].
    exfalso. apply Hne. rewrite Hi, Hq. symmetry. apply surjective_pairing.
  - intros -> Hact. rewrite twistedMass_unfold. unfold writes. rewrite Hact. reflexivity.
Qed.

(** An unfolding of [stored_value] in terms of the parts of a call. *)
Lemma stored_value_parts nDim nParity dagger asymmetric_ xpay kernel_type arg idx par old :
  stored_value nDim nParity dagger asymmetric_ xpay kernel_type arg idx par old =
  finalize dagger asymmetric_ xpay kernel_type arg
    (coord_of nDim nParity dagger asymmetric_ kernel_type arg idx par)
    (fst (site_of nDim nParity dagger asymmetric_ kernel_type arg idx par))
    (snd (site_of nDim nParity dagger asymmetric_ kernel_type arg idx par))
    (active_after nDim nParity dagger asymmetric_ kernel_type arg idx par)
    (if negb (is_interior kernel_type)
        && active_after nDim nParity dagger asymmetric_ kernel_type arg idx par
     then vadd (gathered nDim nParity dagger asymmetric_ kernel_type arg idx par) old
     else gathered nDim nParity dagger asymmetric_ kernel_type arg idx par).
Proof.
  unfold stored_value, coord_of, site_of, active_after, gathered.
  destruct (resolve_and_gather nDim nParity dagger asymmetric_ kernel_type arg idx par)
    as [[[x_cb coord] out1] active].
  reflexivity.
Qed.

Lemma stored_value_interior nDim nParity dagger asymmetric_ xpay arg idx par old old' :
  stored_value nDim nParity dagger asymmetric_ xpay INTERIOR_KERNEL arg idx par old =
  stored_value nDim nParity dagger asymmetric_ xpay INTERIOR_KERNEL arg idx par old'.
Proof. rewrite !stored_value_parts. reflexivity. Qed.

(** X8.  [applyWilsonTM] reads of the bundle only the input field, the gauge
    field, the lattice members and the two scalars: two bundles that agree
    on these (and on [isActive]) give the same accumulator and the same
    [active] flag, whatever their output field, pass-through field and
    [kappa] are. *)
Theorem applyWilsonTM_reads nDim nParity dagger kernel_type acc arg arg' coord
    x_cb par idx thread_dim active :
  same_hopping_inputs arg arg' ->
  applyWilsonTM nDim nParity dagger kernel_type acc arg coord x_cb par idx thread_dim active =
  applyWilsonTM nDim nParity dagger kernel_type acc arg' coord x_cb par idx thread_dim active.
Proof.
  intros (HnF & Hdim & Hdc & Hsc & Ha & Hb & Hin & Hing & HU & HUg & Hact).
  unfold applyWilsonTM. generalize (acc, active) as st.
  induction (seqZ 0 nDim) as [|d ds IH]; intros st; [reflexivity|].
  cbn [fold_left]. rewrite IH. f_equal.
  unfold dim_step.
  assert (Htw : forall w, twist arg w = twist arg' w).
  { intros w. unfold twist. rewrite Ha, Hb. reflexivity. }
  assert (Hfwd : forall s,
            forward_gather nParity dagger kernel_type arg coord x_cb par idx thread_dim d s =
            forward_gather nParity dagger kernel_type arg' coord x_cb par idx thread_dim d s).
  { intros [o act]. unfold forward_gather, forward_ghost, ghost_test, ghost_index, halo_rescale.
    rewrite HnF, Hdim, Hdc, Hsc, Hact, !HU, !Hing, !Hin, !Htw. reflexivity. }
  assert (Hbwd : forall s,
            backward_gather nParity dagger kernel_type arg coord x_cb par idx thread_dim d s =
            backward_gather nParity dagger kernel_type arg' coord x_cb par idx thread_dim d s).
  { intros [o act]. unfold backward_gather, backward_ghost, ghost_test, ghost_index, halo_rescale.
    rewrite HnF, Hdim, Hdc, Hsc, Hact, !HU, !HUg, !Hing, !Hin, !Htw. reflexivity. }
  rewrite Hfwd, Hbwd. reflexivity.
Qed.

(** *** The loop of the sequential wrapper *)

Lemma parity_loop_spins nDim nParity dagger asymmetric_ xpay kernel_type (fuel : nat) :
  forall par arg,
    nParity <> 2 -> par < nParity -> parity arg + 1 < nParity ->
    parity_loop nDim nParity dagger asymmetric_ xpay kernel_type fuel par arg = None.
Proof.
  induction fuel as [|fuel IH]; intros par arg Hn2 Hpar Hspin; [reflexivity|].
  cbn [parity_loop].
  destruct (Z.ltb_spec par nParity) as [_|Hge]; [|lia].
  destruct (Z.eqb_spec nParity 2) as [He|_]; [contradiction|].
  apply IH; [exact Hn2 | exact Hspin |].
  rewrite (frame_parity arg (all_sites _ _ _ _ _ _ _ arg))
    by (unfold all_sites; apply frame_site_loop).
  exact Hspin.
Qed.

(** X9.  The loop of [twistedMassCPU] assigns its loop variable.  For a
    single-parity dispatch ([nParity] positive and not 2) it makes exactly
    one pass over the sites, with the parity of the bundle, when
    [arg.parity + 1 >= nParity] (for [nParity = 1]: when the parity is not
    negative) and the increment does not overflow; when [arg.parity + 1 < nParity] (for [nParity = 1]: a negative
    parity) it never returns, whatever the fuel.  With [nParity <= 0] it
    returns the bundle untouched. *)
Theorem twistedMassCPU_single_parity nDim nParity dagger asymmetric_ xpay kernel_type arg :
  (nParity <> 2 -> 0 < nParity -> nParity <= parity arg + 1 -> parity arg + 1 < 2 ^ 31 ->
   forall fuel, (2 <= fuel)%nat ->
     twistedMassCPU nDim nParity dagger asymmetric_ xpay kernel_type fuel arg =
     Some (all_sites nDim nParity dagger asymmetric_ xpay kernel_type (parity arg) arg)) /\
  (nParity <> 2 -> 0 < nParity -> parity arg + 1 < nParity ->
   forall fuel,
     twistedMassCPU nDim nParity dagger asymmetric_ xpay kernel_type fuel arg = None) /\
  (nParity <= 0 ->
   forall fuel, (1 <= fuel)%nat ->
     twistedMassCPU nDim nParity dagger asymmetric_ xpay kernel_type fuel arg = Some arg).
Proof.
  unfold twistedMassCPU. split; [|split].
  - intros Hn2 Hpos Hdone _ fuel Hfuel.
    destruct fuel as [|[|fuel]]; try lia. cbn [parity_loop].
    destruct (Z.ltb_spec 0 nParity) as [_|Hge]; [|lia].
    destruct (Z.eqb_spec nParity 2) as [He|_]; [contradiction|].
    rewrite (frame_parity arg (all_sites _ _ _ _ _ _ _ arg))
      by (unfold all_sites; apply frame_site_loop).
    destruct (Z.ltb_spec (parity arg + 1) nParity) as [Hlt|_]; [lia|reflexivity].
  - intros Hn2 Hpos Hspin fuel. apply parity_loop_spins; assumption.
  - intros Hle fuel Hfuel. destruct fuel as [|fuel]; try lia. cbn [parity_loop].
    destruct (Z.ltb_spec 0 nParity) as [Hlt|_]; [lia|reflexivity].
Qed.

(** X10.  In a single-parity dispatch with a parity other than 0 and 1 no
    thread of [twistedMassGPU] calls [twistedMass]: the [switch] has no case
    for it, and a launch returns the bundle as it was, whatever its
    geometry. *)
Theorem launch_without_case nDim nParity dagger asymmetric_ xpay kernel_type arg :
  nParity <> 2 -> parity arg <> 0 -> parity arg <> 1 ->
  forall bd sched,
    launch nDim nParity dagger asymmetric_ xpay kernel_type bd sched arg = arg.
Proof.
  intros Hn2 H0 H1 bd sched. unfold launch.
  induction sched as [|t sched IH]; [reflexivity|].
  cbn [fold_left].
  assert (Hstep : twistedMassGPU nDim nParity dagger asymmetric_ xpay kernel_type bd
                    (blockIdx t) (threadIdx t) arg = arg).
  { unfold twistedMassGPU. destruct (_ >=? threads arg); [reflexivity|].
    destruct (Z.eqb_spec nParity 2) as [He|_]; [contradiction|].
    destruct (parity arg) as [|[q|q|]|q]; try reflexivity; contradiction. }
  rewrite Hstep. exact IH.
Qed.

Section MoreDispatch.

Hypothesis Hro : reads_no_output.

(** X11.  The interior pass overwrites: what it stores at a site does not
    depend on what the output field held, so running the sequential wrapper
    a second time on its own result leaves the same output field. *)
Theorem interior_pass_idempotent nDim nParity dagger asymmetric_ xpay arg (fuel : nat) :
  valid_parity nParity arg = true ->
  sites_distinct nDim nParity dagger asymmetric_ INTERIOR_KERNEL arg ->
  (3 <= fuel)%nat ->
  exists once twice,
    twistedMassCPU nDim nParity dagger asymmetric_ xpay INTERIOR_KERNEL fuel arg = Some once /\
    twistedMassCPU nDim nParity dagger asymmetric_ xpay INTERIOR_KERNEL fuel once = Some twice /\
    forall i q, out twice i q = out once i q.
Proof.
  intros Hvalid Hdist Hfuel.
  set (items := cpu_items nParity arg).
  set (once := run_items nDim nParity dagger asymmetric_ xpay INTERIOR_KERNEL items arg).
  assert (Hframe : once = set_out arg (out once)) by apply frame_run_items.
  assert (Hitems : cpu_items nParity once = items).
  { unfold items, cpu_items. rewrite Hframe. reflexivity. }
  assert (Hvalid1 : valid_parity nParity once = true).
  { unfold valid_parity. rewrite Hframe. exact Hvalid. }
  exists once, (run_items nDim nParity dagger asymmetric_ xpay INTERIOR_KERNEL items once).
  split; [apply twistedMassCPU_run; assumption|].
  split; [rewrite <- Hitems; apply twistedMassCPU_run; assumption|].
  intros i q.
  assert (Hinj : forall it it' i q,
             it ∈ items -> it' ∈ items ->
             targets nDim nParity dagger asymmetric_ INTERIOR_KERNEL arg it i q ->
             targets nDim nParity dagger asymmetric_ INTERIOR_KERNEL arg it' i q ->
             it = it').
  { intros it it' i' q' Hin Hin' [Hw Hs] [Hw' Hs']. apply Hdist; auto. congruence. }
  destruct (run_items_out Hro nDim nParity dagger asymmetric_ xpay INTERIOR_KERNEL arg items
              (NoDup_cpu_items nParity arg) Hinj (out arg) i q) as [Hhit1 Hmiss1].
  destruct (run_items_out Hro nDim nParity dagger asymmetric_ xpay INTERIOR_KERNEL arg items
              (NoDup_cpu_items nParity arg) Hinj (out once) i q) as [Hhit2 Hmiss2].
  rewrite set_out_id in Hhit1, Hmiss1. fold once in Hhit1, Hmiss1.
  rewrite <- Hframe in Hhit2, Hmiss2.
  destruct (decide (Exists (fun it => targets nDim nParity dagger asymmetric_ INTERIOR_KERNEL
                                        arg it i q) items)) as [Hex|Hnex].
  - apply Exists_exists in Hex as (it & Hin & Ht).
    rewrite (Hhit2 it Hin Ht), (Hhit1 it Hin Ht). apply stored_value_interior.
  - apply Hmiss2. intros it Hin Ht. apply Hnex, Exists_exists. eauto.
Qed.

(** X12.  The output field of a launch of [twistedMassGPU] does not depend
    on the launch geometry or on the order of the threads: two launches
    that both cover the sites leave the same output field. *)
Theorem launch_geometry_independent nDim nParity dagger asymmetric_ xpay kernel_type
    (gd1 bd1 gd2 bd2 : dim3) (sched1 sched2 : list Thread) arg :
  valid_parity nParity arg = true ->
  launch_covers nParity gd1 bd1 arg = true ->
  launch_covers nParity gd2 bd2 arg = true ->
  sites_distinct nDim nParity dagger asymmetric_ kernel_type arg ->
  sched1 ≡ₚ grid_threads gd1 bd1 ->
  sched2 ≡ₚ grid_threads gd2 bd2 ->
  forall i q,
    out (launch nDim nParity dagger asymmetric_ xpay kernel_type bd1 sched1 arg) i q =
    out (launch nDim nParity dagger asymmetric_ xpay kernel_type bd2 sched2 arg) i q.
Proof.
  intros Hvalid Hcov1 Hcov2 Hdist Hperm1 Hperm2 i q.
  pose proof (launch_run nDim nParity dagger asymmetric_ xpay kernel_type bd1 arg sched1
                (out arg)) as Hl1.
  pose proof (launch_run nDim nParity dagger asymmetric_ xpay kernel_type bd2 arg sched2
                (out arg)) as Hl2.
  rewrite set_out_id in Hl1, Hl2. rewrite Hl1, Hl2.
  pose proof (gpu_items_cover nParity gd1 bd1 arg sched1 Hvalid Hcov1 Hperm1) as Hc1.
  pose proof (gpu_items_cover nParity gd2 bd2 arg sched2 Hvalid Hcov2 Hperm2) as Hc2.
  pose proof (run_items_order Hro nDim nParity dagger asymmetric_ xpay kernel_type arg
                (omap (item_of_thread nParity bd1 arg) sched1)
                (omap (item_of_thread nParity bd2 arg) sched2)) as Hord.
  rewrite <- (set_out_id arg) at 2 4. apply Hord.
  - apply (NoDup_gpu_items nParity gd1 bd1); assumption.
  - apply (NoDup_gpu_items nParity gd2 bd2); assumption.
  - intros it. rewrite Hc1, Hc2. reflexivity.
  - intros it it' i' q' Hin Hin' [Hw Hs] [Hw' Hs'].
    apply Hc1 in Hin, Hin'. apply Hdist; auto. congruence.
Qed.

(** The value at a site after an interior call that left it incomplete
    and a later call that is active at the same site. *)
Lemma exterior_adds_to_interior nDim nParity dagger asymmetric_ xpay kernel_type
    arg idx par idx' par' :
  let site := site_of nDim nParity dagger asymmetric_ INTERIOR_KERNEL arg idx par in
  kernel_type <> INTERIOR_KERNEL ->
  finalizes nDim nParity dagger asymmetric_ INTERIOR_KERNEL arg idx par = false ->
  site_of nDim nParity dagger asymmetric_ kernel_type arg idx' par' = site ->
  active_after nDim nParity dagger asymmetric_ kernel_type arg idx' par' = true ->
  out (twistedMass nDim nParity dagger asymmetric_ xpay kernel_type
         (twistedMass nDim nParity dagger asymmetric_ xpay INTERIOR_KERNEL arg idx par)
         idx' par')
      (fst site) (snd site) =
  finalize dagger asymmetric_ xpay kernel_type arg
    (coord_of nDim nParity dagger asymmetric_ kernel_type arg idx' par')
    (fst site) (snd site) true
    (vadd (gathered nDim nParity dagger asymmetric_ kernel_type arg idx' par')
          (gathered nDim nParity dagger asymmetric_ INTERIOR_KERNEL arg idx par)).
Proof.
  intros site Hkt Hfin Hsite Hact.
  rewrite (twistedMass_frame _ _ _ _ _ INTERIOR_KERNEL arg).
  rewrite (twistedMass_out Hro).
  assert (Hw : writes nDim nParity dagger asymmetric_ kernel_type arg idx' par' = true).
  { unfold writes. rewrite Hact. apply orb_true_r. }
  rewrite Hw, Hsite. rewrite bool_decide_eq_true_2 by apply surjective_pairing.
  cbn [andb]. rewrite stored_value_parts, Hsite, Hact.
  assert (Hni : is_interior kernel_type = false).
  { unfold is_interior. apply bool_decide_eq_false_2. exact Hkt. }
  rewrite Hni. cbn [negb andb]. do 2 f_equal.
  rewrite <- (set_out_id arg) at 1. rewrite (twistedMass_out Hro).
  change (writes nDim nParity dagger asymmetric_ INTERIOR_KERNEL arg idx par) with true.
  fold site. rewrite bool_decide_eq_true_2 by apply surjective_pairing.
  cbn [andb]. rewrite stored_value_parts.
  unfold finalize. unfold finalizes in Hfin. rewrite Hfin. reflexivity.
Qed.

(** X13.  Deferred finalize across two passes: when the interior call left
    a site incomplete, a call of a later pass that finalizes the same site
    (the site is complete for that pass and the thread is active) adds its
    own gather to the gather of the interior call; the rotation
    [a * (v + i*b*gamma4(v))], in the variants with [!dagger || asymmetric],
    and the pass-through term, with [xpay], are then applied once, to the
    full sum. *)
Theorem exterior_completes_interior nDim nParity dagger asymmetric_ xpay kernel_type
    arg idx par idx' par' :
  let site := site_of nDim nParity dagger asymmetric_ INTERIOR_KERNEL arg idx par in
  let total :=
    vadd (gathered nDim nParity dagger asymmetric_ kernel_type arg idx' par')
         (gathered nDim nParity dagger asymmetric_ INTERIOR_KERNEL arg idx par) in
  let rotated :=
    if negb dagger || asymmetric_
    then rscale (a arg)
           (vadd total (cscale (mk_complex (real_of_double d0) (b arg)) (gamma 4 total)))
    else total in
  kernel_type <> INTERIOR_KERNEL ->
  finalizes nDim nParity dagger asymmetric_ INTERIOR_KERNEL arg idx par = false ->
  site_of nDim nParity dagger asymmetric_ kernel_type arg idx' par' = site ->
  finalizes nDim nParity dagger asymmetric_ kernel_type arg idx' par' = true ->
  out (twistedMass nDim nParity dagger asymmetric_ xpay kernel_type
         (twistedMass nDim nParity dagger asymmetric_ xpay INTERIOR_KERNEL arg idx par)
         idx' par')
      (fst site) (snd site) =
  if xpay then vadd rotated (x arg (fst site) (snd site)) else rotated.
Proof.
  intros site total rotated Hkt Hfin Hsite Hfin'.
  unfold finalizes in Hfin'. apply andb_true_iff in Hfin' as [Hcomplete Hact].
  subst rotated total site.
  rewrite (exterior_adds_to_interior nDim nParity dagger asymmetric_ xpay kernel_type
             arg idx par idx' par' Hkt Hfin Hsite Hact).
  unfold finalize. rewrite Hcomplete. reflexivity.
Qed.

End MoreDispatch.

End MoreKernelFacts.
End TwistedMassExtra.

(** * The further properties on concrete inputs *)
Module ExtraRuns.
Import TransformReduce TwistedMass Reference TransformReduceMore TwistedMassMore ReferenceMore.
Import TransformReduceFacts TwistedMassFacts TransformReduceExtra TwistedMassExtra ReferenceRuns.

#[local] Existing Instance algebra.
#[local] Existing Instance geometry.
#[local] Existing Instance collaborators.

Lemma host_entry_point_witness :
  transform_reduce_host [0] example_batches 3 (fun t => 2 * t) 100 Z.add =
    Fatal (SizeMismatch 1 2) /\
  transform_reduce_host [7; 7] example_batches 3 (fun t => 2 * t) 100 Z.add =
    Done [112; 160] /\
  transform_reduce_host (replicate 9 0) nine_batches 3 (fun t => 2 * t) 100 Z.add =
    Fatal (BatchTooLarge 9 8) /\
  transform_reduce_host (replicate (Z.to_nat (2 ^ 31)) 0)
    (replicate (Z.to_nat (2 ^ 31)) (fun i : Z => i)) 3 (fun t => 2 * t) 100 Z.add =
    Undefined /\
  int_of_size (length nine_batches) = 9.
Proof.
  destruct (host_entry_point [0] example_batches 3 (fun t => 2 * t) 100 Z.add)
    as (Hsize & _).
  destruct (host_entry_point [7; 7] example_batches 3 (fun t => 2 * t) 100 Z.add)
    as (_ & Hok & _).
  destruct (host_entry_point (replicate 9 0) nine_batches 3 (fun t => 2 * t) 100 Z.add)
    as (_ & _ & Hmany & _ & Hfits).
  destruct (host_entry_point (replicate (Z.to_nat (2 ^ 31)) 0)
              (replicate (Z.to_nat (2 ^ 31)) (fun i : Z => i)) 3 (fun t => 2 * t) 100 Z.add)
    as (_ & _ & _ & Hwrap & _).
  assert (Hlen : (8 < Z.to_nat (2 ^ 31))%nat).
  { apply (Nat2Z.inj_lt 8). rewrite Z2Nat.id by (apply Z.pow_nonneg; lia). reflexivity. }
  split; [apply Hsize; cbn; lia|].
  split; [apply Hok; [reflexivity | cbn; lia]|].
  split; [apply Hmany; reflexivity|].
  split.
  - apply Hwrap.
    + rewrite !length_replicate. reflexivity.
    + rewrite length_replicate. exact Hlen.
    + rewrite length_replicate, int_of_size_wraps. discriminate.
  - apply Hfits; [cbn; lia | reflexivity].
Defined.

Lemma single_overloads_total_witness :
  transform_reduce_single 0 (fun i => i + 1) 0 (fun t => 2 * t) 100 Z.add = Done 100.
Proof.
  destruct (single_overloads_total 0 (fun i => i + 1) 0 (fun t => 2 * t) 100 Z.add
              (fun t => t)) as (_ & _ & Hempty).
  apply Hempty. lia.
Defined.

Lemma reduce_extremum_witness :
  (exists m,
     reduce_single (fun t => t) 0 (fun i => i * (4 - i)) 5 (-7) (maximum Z.gtb) = Done m /\
     Z.gtb (-7) m = false /\
     (forall i, 0 <= i < 5 -> Z.gtb (i * (4 - i)) m = false) /\
     (m = -7 \/ exists i, 0 <= i < 5 /\ m = i * (4 - i))) /\
  (exists m,
     reduce_single (fun t => t) 0 (fun i => i * (4 - i)) 5 (-7) (minimum Z.ltb) = Done m /\
     Z.ltb (-7) m = false /\
     (forall i, 0 <= i < 5 -> Z.ltb (i * (4 - i)) m = false) /\
     (m = -7 \/ exists i, 0 <= i < 5 /\ m = i * (4 - i))).
Proof.
  apply (reduce_extremum Z.gtb Z.ltb (fun t => t) 0 (fun i => i * (4 - i)) 5 (-7)).
  - intros a1 a2. rewrite !Z.gtb_ltb, !Z.ltb_lt, Z.ltb_ge. lia.
  - intros a1 a2 a3. rewrite !Z.gtb_ltb, !Z.ltb_ge. lia.
  - intros a1 a2. rewrite Z.ltb_lt, Z.ltb_ge. lia.
  - intros a1 a2 a3. rewrite !Z.ltb_ge. lia.
Defined.

Lemma reduction_in_chunks_witness :
  transform_reduce_single 0 (fun i => i + 1) (2 + 3) (fun t => 2 * t) 100 Z.add =
  (first ← transform_reduce_single 0 (fun i => i + 1) 2 (fun t => 2 * t) 100 Z.add;
   transform_reduce_single 0 (offset (fun i => i + 1) 2) 3 (fun t => 2 * t) first Z.add).
Proof.
  apply (reduction_in_chunks 0 (fun i => i + 1) 2 3 (fun t => 2 * t) 100 Z.add); lia.
Defined.

Lemma transform_reduce_idempotent_witness :
  exists arg',
    transform_reduce example_arg = Done arg' /\
    transform_reduce arg' = Done arg' /\
    arg' = set_result example_arg (result arg').
Proof. apply (transform_reduce_idempotent example_arg example_arg_well_formed). Defined.


Lemma twistedMass_touches_own_site_witness :
  twistedMass 4 2 false false true EXTERIOR_KERNEL_ALL arg_single 5 0 = arg_single.
Proof.
  destruct (twistedMass_touches_own_site 4 2 false false true EXTERIOR_KERNEL_ALL arg_single 5 0)
    as (_ & _ & Hidle).
  apply Hidle; reflexivity.
Defined.

Lemma applyWilsonTM_reads_witness :
  applyWilsonTM 4 2 true INTERIOR_KERNEL vzero arg_single (coord_at arg_single 5 0)
    5 0 5 3 true =
  applyWilsonTM 4 2 true INTERIOR_KERNEL vzero (set_out arg_single (x arg_single))
    (coord_at arg_single 5 0) 5 0 5 3 true.
Proof.
  apply (applyWilsonTM_reads 4 2 true INTERIOR_KERNEL vzero arg_single
           (set_out arg_single (x arg_single))).
  repeat split.
Defined.

Lemma twistedMassCPU_single_parity_witness :
  twistedMassCPU 4 1 true false true INTERIOR_KERNEL 2 arg_odd =
    Some (all_sites 4 1 true false true INTERIOR_KERNEL 1 arg_odd) /\
  (forall fuel, twistedMassCPU 4 1 true false true INTERIOR_KERNEL fuel arg_negative = None) /\
  twistedMassCPU 4 0 true false true INTERIOR_KERNEL 1 arg_odd = Some arg_odd.
Proof.
  destruct (twistedMassCPU_single_parity 4 1 true false true INTERIOR_KERNEL arg_odd)
    as (Honce & _ & _).
  destruct (twistedMassCPU_single_parity 4 1 true false true INTERIOR_KERNEL arg_negative)
    as (_ & Hspin & _).
  destruct (twistedMassCPU_single_parity 4 0 true false true INTERIOR_KERNEL arg_odd)
    as (_ & _ & Hnone).
  split; [apply Honce; [discriminate | reflexivity | discriminate | reflexivity | lia]|].
  split; [apply Hspin; [discriminate | reflexivity | reflexivity]|].
  apply Hnone; [discriminate | lia].
Defined.

Lemma launch_without_case_witness :
  launch 4 1 true false true INTERIOR_KERNEL block_dim_one
    (grid_threads grid_dim_one block_dim_one) arg_parity_two = arg_parity_two.
Proof.
  apply (launch_without_case 4 1 true false true INTERIOR_KERNEL arg_parity_two);
    discriminate.
Defined.

Lemma interior_pass_idempotent_witness :
  exists once twice,
    twistedMassCPU 4 2 true false true INTERIOR_KERNEL 3 arg_partitioned = Some once /\
    twistedMassCPU 4 2 true false true INTERIOR_KERNEL 3 once = Some twice /\
    forall i q, out twice i q = out once i q.
Proof.
  apply (interior_pass_idempotent reference_reads_no_output
           4 2 true false true arg_partitioned 3%nat).
  - reflexivity.
  - apply reference_sites_distinct.
  - lia.
Defined.

Lemma launch_geometry_independent_witness :
  out (launch 4 2 true false true INTERIOR_KERNEL block_dim
         (reverse (grid_threads grid_dim block_dim)) arg_partitioned) 5 0 =
  out (launch 4 2 true false true INTERIOR_KERNEL block_dim_wide
         (grid_threads grid_dim_wide block_dim_wide) arg_partitioned) 5 0.
Proof.
  apply (launch_geometry_independent reference_reads_no_output
           4 2 true false true INTERIOR_KERNEL grid_dim block_dim
           grid_dim_wide block_dim_wide).
  - reflexivity.
  - reflexivity.
  - reflexivity.
  - apply reference_sites_distinct.
  - apply reverse_Permutation.
  - reflexivity.
Defined.

Lemma exterior_completes_interior_witness :
  out (twistedMass 4 2 true false true EXTERIOR_KERNEL_T
         (twistedMass 4 2 true false true INTERIOR_KERNEL arg_partitioned 12 0) 12 0) 12 0 =
  vadd (vadd (gathered 4 2 true false EXTERIOR_KERNEL_T arg_partitioned 12 0)
             (gathered 4 2 true false INTERIOR_KERNEL arg_partitioned 12 0))
       (x arg_partitioned 12 0) /\
  out (twistedMass 4 2 false false false EXTERIOR_KERNEL_T
         (twistedMass 4 2 false false false INTERIOR_KERNEL arg_partitioned 12 0) 12 0) 12 0 =
  rscale (a arg_partitioned)
    (vadd (vadd (gathered 4 2 false false EXTERIOR_KERNEL_T arg_partitioned 12 0)
                (gathered 4 2 false false INTERIOR_KERNEL arg_partitioned 12 0))
       (cscale (mk_complex (real_of_double d0) (b arg_partitioned))
          (gamma 4 (vadd (gathered 4 2 false false EXTERIOR_KERNEL_T arg_partitioned 12 0)
                         (gathered 4 2 false false INTERIOR_KERNEL arg_partitioned 12 0))))).
Proof.
  split.
  - apply (exterior_completes_interior reference_reads_no_output
             4 2 true false true EXTERIOR_KERNEL_T arg_partitioned 12 0 12 0);
      [discriminate | reflexivity | reflexivity | reflexivity].
  - apply (exterior_completes_interior reference_reads_no_output
             4 2 false false false EXTERIOR_KERNEL_T arg_partitioned 12 0 12 0);
      [discriminate | reflexivity | reflexivity | reflexivity].
Defined.

End ExtraRuns.
